(** * A shallow embedding of github.com/pgavlin/glob (glob.go)

    The development follows the source file top to bottom: the pieces of Go's
    standard library that glob.go calls ([strings.SplitSeq], [path.Match],
    [path.Join], [errors.Join], [errors.Is]), the pattern compiler, the
    pattern-set advancer, the three Glob strategies with [New], [MatchPath]
    and the tree walker [matchStep] / [allStep].

    Conventions.
    - A Go [string] is a [string], a sequence of bytes; where Go decodes
      a UTF-8 rune from a string ([path.Match] does, for [?] and for
      character classes), the model decodes it with
      [utf8.DecodeRuneInString].
    - A Go slice that is only appended to and read is a [list].
    - An index or slice expression that would panic in Go makes a pure
      function return [None] and a walker computation end in [Panic].
    - The walker runs in a small state monad that records the items handed
      to the consumer and the file-system operations performed.

    After the definitions come the facts about the compiler and the
    advancer, the properties of [MatchPath] (against the specification's
    matching, string by string, under slashes and under exclusion), and the
    properties of the walk: what it hands over and in which order, what it
    lists, when it stops and that it ends on a finite tree. *)

From Stdlib Require Import String Ascii List Bool Arith NArith Lia.
Import ListNotations.

Local Open Scope string_scope.
Local Open Scope list_scope.

(** ** Errors *)

(** The error values the program can see: the sentinels [path.ErrBadPattern],
    [fs.ErrNotExist], [fs.ErrPermission], [fs.ErrInvalid], errors made with
    [errors.New], an [*fs.PathError] wrapping another error, and the value
    built by [errors.Join]. *)
#[warnings="-register-all"]
Inductive error : Type :=
| ErrBadPattern
| ErrNotExist
| ErrPermission
| ErrInvalid
| errorString (msg : string)
| PathError (op path : string) (err : error)
| joinError (errs : list error).

(** [errors.Is(err, fs.ErrNotExist)]: the sentinel itself, or anything that
    unwraps to it. *)
Fixpoint errors_Is_ErrNotExist (err : error) : bool :=
  match err with
  | ErrNotExist => true
  | PathError _ _ e => errors_Is_ErrNotExist e
  | joinError es => existsb errors_Is_ErrNotExist es
  | _ => false
  end.

(** [errors.Join(errs...)]: nil values are discarded; the result is nil when
    nothing is left. *)
Fixpoint nonNil (errs : list (option error)) : list error :=
  match errs with
  | [] => []
  | None :: rest => nonNil rest
  | Some e :: rest => e :: nonNil rest
  end.

Definition errors_Join (errs : list (option error)) : option error :=
  match nonNil errs with
  | [] => None
  | es => Some (joinError es)
  end.

(** The sentinel errors at the leaves of an error value. *)
Fixpoint leaves (err : error) : list error :=
  match err with
  | PathError _ _ e => leaves e
  | joinError es => flat_map leaves es
  | e => [e]
  end.

(** ** Strings *)

Definition len {A} (l : list A) : nat := List.length l.

Definition byte0 (s : string) : ascii :=
  match s with
  | EmptyString => zero
  | String c _ => c
  end.

Definition from1 (s : string) : string :=
  match s with
  | EmptyString => EmptyString
  | String _ t => t
  end.

(** [s[n:]], for [n] up to [len(s)]. *)
Fixpoint skipBytes (n : nat) (s : string) : string :=
  match n, s with
  | S n, String _ t => skipBytes n t
  | _, _ => s
  end.

(** [strings.Split(s, "/")]. *)
Fixpoint splitSlash (s : string) : list string :=
  match s with
  | EmptyString => [""]
  | String c rest =>
      if (c =? "/")%char then "" :: splitSlash rest
      else match splitSlash rest with
           | [] => [String c ""]
           | x :: xs => String c x :: xs
           end
  end.

(** [slices.Collect(fx.Filter(strings.SplitSeq(p, "/"), func(s) { s != "" }))],
    the expression at lines 42 and 138. *)
Definition segments (p : string) : list string :=
  filter (fun s => negb (s =? "")) (splitSlash p).

(** [strings.ContainsRune(s, c)]. *)
Fixpoint containsByte (c : ascii) (s : string) : bool :=
  match s with
  | EmptyString => false
  | String d t => (c =? d)%char || containsByte c t
  end.

(** [slices.Contains(l, s)]. *)
Definition slices_Contains (l : list string) (s : string) : bool :=
  existsb (String.eqb s) l.

(** ** utf8.DecodeRuneInString

    The decoder of Go's [unicode/utf8] package: the rune that starts the
    string and its width in bytes, [(RuneError, 0)] for the empty string
    and [(RuneError, 1)] for an encoding that is invalid or cut short.  The
    table [first] of the package is written out as comparisons on the
    leading byte: ASCII below 0x80, two bytes from 0xC2, three from 0xE0,
    four from 0xF0 up to 0xF4, everything else invalid; the second byte
    lies in 0x80-0xBF, narrowed after 0xE0, 0xED, 0xF0 and 0xF4. *)
Module utf8.

Definition RuneError : N := 65533.

Definition DecodeRuneInString (s : string) : N * nat :=
  match s with
  | EmptyString => (RuneError, 0)
  | String c0 t0 =>
      let s0 := N_of_ascii c0 in
      if (s0 <? 128)%N then (s0, 1)
      else if (s0 <? 194)%N || (244 <? s0)%N then (RuneError, 1)
      else
        let sz := if (s0 <? 224)%N then 2 else if (s0 <? 240)%N then 3 else 4 in
        let lo := if (s0 =? 224)%N then 160%N
                  else if (s0 =? 240)%N then 144%N else 128%N in
        let hi := if (s0 =? 237)%N then 159%N
                  else if (s0 =? 244)%N then 143%N else 191%N in
        if (String.length s <? sz)%nat then (RuneError, 1)
        else
          match t0 with
          | EmptyString => (RuneError, 1)
          | String c1 t1 =>
              let s1 := N_of_ascii c1 in
              if (s1 <? lo)%N || (hi <? s1)%N then (RuneError, 1)
              else if (sz <=? 2)%nat
              then (N.lor (N.shiftl (N.land s0 31) 6) (N.land s1 63), 2)
              else
                match t1 with
                | EmptyString => (RuneError, 1)
                | String c2 t2 =>
                    let s2 := N_of_ascii c2 in
                    if (s2 <? 128)%N || (191 <? s2)%N then (RuneError, 1)
                    else if (sz <=? 3)%nat
                    then (N.lor (N.lor (N.shiftl (N.land s0 15) 12)
                                       (N.shiftl (N.land s1 63) 6))
                                (N.land s2 63), 3)
                    else
                      match t2 with
                      | EmptyString => (RuneError, 1)
                      | String c3 _ =>
                          let s3 := N_of_ascii c3 in
                          if (s3 <? 128)%N || (191 <? s3)%N then (RuneError, 1)
                          else (N.lor (N.lor (N.lor (N.shiftl (N.land s0 7) 18)
                                                    (N.shiftl (N.land s1 63) 12))
                                             (N.shiftl (N.land s2 63) 6))
                                      (N.land s3 63), 4)
                      end
                end
          end
  end.

End utf8.

(** ** path.Match

    The matcher of Go's [path] package, with its helpers [scanChunk],
    [matchChunk] and [getEsc].  [None] stands for [ErrBadPattern].  A
    literal byte of the pattern is compared with a byte of the name; [?]
    and a character class consume a rune of the name, and the bounds of a
    class are runes of the pattern.  The loops of [matchChunk] and [Match]
    consume at least one pattern byte per round; they are given the pattern
    length as fuel, which is never used up ([Match_fuel]). *)
Module GoPath.

Fixpoint scan (pattern : string) (inrange : bool) : string * string :=
  match pattern with
  | EmptyString => ("", "")
  | String c rest =>
      let keep (r : string * string) := (String c (fst r), snd r) in
      if (c =? "\")%char then
        match rest with
        | EmptyString => ("\", "")
        | String c' rest' =>
            let r := scan rest' inrange in (String c (String c' (fst r)), snd r)
        end
      else if (c =? "[")%char then keep (scan rest true)
      else if (c =? "]")%char then keep (scan rest false)
      else if (c =? "*")%char then
        if inrange then keep (scan rest inrange) else ("", pattern)
      else keep (scan rest inrange)
  end.

Fixpoint dropStars (pattern : string) : bool * string :=
  match pattern with
  | EmptyString => (false, pattern)
  | String c rest =>
      if (c =? "*")%char then (true, snd (dropStars rest)) else (false, pattern)
  end.

(** [scanChunk]: whether the chunk is preceded by stars, the chunk, and the
    rest of the pattern. *)
Definition scanChunk (pattern : string) : bool * string * string :=
  let '(star, pattern) := dropStars pattern in
  let '(chunk, rest) := scan pattern false in
  (star, chunk, rest).

Definition getEsc (chunk : string) : option (N * string) :=
  match chunk with
  | EmptyString => None
  | String c rest =>
      if (c =? "-")%char || (c =? "]")%char then None
      else
        let chunk := if (c =? "\")%char then rest else chunk in
        match chunk with
        | EmptyString => None
        | _ =>
            let '(r, n) := utf8.DecodeRuneInString chunk in
            let nchunk := skipBytes n chunk in
            if ((r =? utf8.RuneError)%N && (n =? 1)%nat)
               || (String.length nchunk =? 0)%nat
            then None
            else Some (r, nchunk)
        end
  end.

(** One round of the range loop of a character class, which reads the
    bytes after [[] or [[^] up to and including the closing bracket; [again]
    is the next round. *)
Definition rangeRound (again : string -> bool -> nat -> option (bool * string))
    (chunk : string) (r : N) (matched : bool) (nrange : nat)
    : option (bool * string) :=
  let closes :=
    match chunk, nrange with
    | String c _, S _ => (c =? "]")%char
    | _, _ => false
    end in
  if closes then Some (matched, from1 chunk)
  else
    match getEsc chunk with
    | None => None
    | Some (lo, chunk) =>
        let next :=
          if (byte0 chunk =? "-")%char then getEsc (from1 chunk)
          else Some (lo, chunk) in
        match next with
        | None => None
        | Some (hi, chunk) =>
            again chunk (matched || ((lo <=? r)%N && (r <=? hi)%N)) (S nrange)
        end
    end.

Fixpoint ranges (fuel : nat) (chunk : string) (r : N) (matched : bool)
    (nrange : nat) : option (bool * string) :=
  rangeRound
    (fun chunk matched nrange =>
       match fuel with
       | 0 => None
       | S fuel => ranges fuel chunk r matched nrange
       end)
    chunk r matched nrange.

(** One round of the loop of [matchChunk] on a chunk that starts with the
    byte [c]; [failed] is the loop's variable of that name, [again] is the
    next round and [class] reads a character class. *)
Definition chunkRound (again : string -> string -> bool -> option (string * bool))
    (class : string -> N -> option (bool * string))
    (c : ascii) (chunk1 s : string) (failed : bool) : option (string * bool) :=
  let failed := failed || (String.length s =? 0)%nat in
  let literalByte (c : ascii) (chunk : string) :=
    if failed then again chunk s failed
    else again chunk (from1 s) (negb (c =? byte0 s)%char) in
  if (c =? "[")%char then
    let r := if failed then 0%N else fst (utf8.DecodeRuneInString s) in
    let s := if failed then s else skipBytes (snd (utf8.DecodeRuneInString s)) s in
    let negated := (byte0 chunk1 =? "^")%char in
    let chunk2 := if negated then from1 chunk1 else chunk1 in
    match class chunk2 r with
    | None => None
    | Some (matched, chunk3) =>
        again chunk3 s (failed || Bool.eqb matched negated)
    end
  else if (c =? "?")%char then
    if failed then again chunk1 s failed
    else again chunk1 (skipBytes (snd (utf8.DecodeRuneInString s)) s)
               (byte0 s =? "/")%char
  else if (c =? "\")%char then
    match chunk1 with
    | EmptyString => None
    | String c' chunk2 => literalByte c' chunk2
    end
  else literalByte c chunk1.

Fixpoint chunkLoop (fuel : nat) (chunk s : string) (failed : bool)
    : option (string * bool) :=
  match chunk with
  | EmptyString => if failed then Some ("", false) else Some (s, true)
  | String c chunk1 =>
      match fuel with
      | 0 => None
      | S fuel =>
          chunkRound (chunkLoop fuel) (fun chunk r => ranges fuel chunk r false 0)
                     c chunk1 s failed
      end
  end.

Definition matchChunk (chunk s : string) : option (string * bool) :=
  chunkLoop (String.length chunk) chunk s false.

(** The inner loop of [Match] that lets a star swallow [i+1] bytes of the
    name, for [i = 0, 1, ...], never a slash. *)
Inductive skipped : Type :=
| Resume (name : string)
| NoMatch
| Bad.

Fixpoint skipLoop (chunk name : string) (lastChunk : bool) : skipped :=
  match name with
  | EmptyString => NoMatch
  | String c rest =>
      if (c =? "/")%char then NoMatch
      else
        match matchChunk chunk rest with
        | Some (t, true) =>
            if lastChunk && (0 <? String.length t)%nat then skipLoop chunk rest lastChunk
            else Resume t
        | Some (_, false) => skipLoop chunk rest lastChunk
        | None => Bad
        end
  end.

(** The closing loop of [Match]: the rest of the pattern must be well
    formed even when the match has already failed. *)
Fixpoint checkRest (fuel : nat) (pattern : string) : option bool :=
  match pattern with
  | EmptyString => Some false
  | _ =>
      match fuel with
      | 0 => None
      | S fuel =>
          let '(_, chunk, pattern) := scanChunk pattern in
          match matchChunk chunk "" with
          | None => None
          | Some _ => checkRest fuel pattern
          end
      end
  end.

(** One round of the main loop of [Match] on a non-empty pattern; [again]
    is the next round and [check] the closing loop. *)
Definition matchRound (again : string -> string -> option bool)
    (check : string -> option bool) (pattern name : string) : option bool :=
  let '(star, chunk, pattern) := scanChunk pattern in
  if star && (chunk =? "") then Some (negb (containsByte "/" name))
  else
    let lastChunk := (String.length pattern =? 0)%nat in
    let fallback :=
      match (if star then skipLoop chunk name lastChunk else NoMatch) with
      | Resume t => again pattern t
      | Bad => None
      | NoMatch => check pattern
      end in
    match matchChunk chunk name with
    | Some (t, true) =>
        if (String.length t =? 0)%nat || negb lastChunk
        then again pattern t
        else fallback
    | Some (_, false) => fallback
    | None => None
    end.

Fixpoint matchLoop (fuel : nat) (pattern name : string) : option bool :=
  match pattern with
  | EmptyString => Some (String.length name =? 0)%nat
  | _ =>
      match fuel with
      | 0 => None
      | S fuel => matchRound (matchLoop fuel) (checkRest fuel) pattern name
      end
  end.

(** [path.Match(pattern, name)]: [Some matched], or [None] for
    [ErrBadPattern]. *)
Definition Match (pattern name : string) : option bool :=
  matchLoop (String.length pattern) pattern name.

(** [path.Clean] on the elements of a path: empty and [.] elements go, a
    [..] element removes the element before it, or stays when there is
    nothing to remove and the path is not rooted.  [acc] holds the elements
    kept so far, last one first. *)
Fixpoint cleanElems (rooted : bool) (elems acc : list string) : list string :=
  match elems with
  | [] => rev acc
  | e :: rest =>
      if (e =? "") || (e =? ".") then cleanElems rooted rest acc
      else if e =? ".." then
        match acc with
        | [] => cleanElems rooted rest (if rooted then [] else [".."])
        | top :: acc' =>
            if top =? ".." then cleanElems rooted rest (".." :: acc)
            else cleanElems rooted rest acc'
        end
      else cleanElems rooted rest (e :: acc)
  end.

Definition Clean (p : string) : string :=
  match p with
  | EmptyString => "."
  | String c _ =>
      let rooted := (c =? "/")%char in
      match cleanElems rooted (splitSlash p) [] with
      | [] => if rooted then "/" else "."
      | elems => (if rooted then "/" else "") ++ String.concat "/" elems
      end
  end.

(** [path.Join(a, b)]: empty elements are ignored, the result is cleaned,
    and two empty elements give the empty string. *)
Definition Join (a b : string) : string :=
  match a, b with
  | EmptyString, EmptyString => ""
  | EmptyString, _ => Clean b
  | _, EmptyString => Clean a
  | _, _ => Clean (a ++ "/" ++ b)
  end.

(** The loop of the variadic [path.Join] that fills [buf]: an element is
    skipped while it is empty and nothing has been written, and is preceded
    by a slash once something has. *)
Fixpoint joinBuf (buf : string) (elem : list string) : string :=
  match elem with
  | [] => buf
  | e :: rest =>
      if (0 <? String.length buf)%nat || negb (e =? "")
      then joinBuf ((if (0 <? String.length buf)%nat then buf ++ "/" else buf) ++ e)
                          rest
      else joinBuf buf rest
  end.

(** [path.Join(elem...)]: the empty string when every element is empty,
    otherwise the cleaned buffer. *)
Definition JoinAll (elem : list string) : string :=
  if (fold_left (fun size e => size + String.length e) elem 0 =? 0)%nat then ""
  else Clean (joinBuf "" elem).

End GoPath.

(** ** Patterns (lines 18-123) *)

(** [match] (lines 18-21): the error of [path.Match] is dropped. *)
Definition match_ (pattern name : string) : bool :=
  match GoPath.Match pattern name with
  | Some ok => ok
  | None => false
  end.

(** [type pattern []string] (line 27). *)
Definition pattern : Type := list string.

(** [pattern.String] (lines 29-31). *)
Definition pattern_String (p : pattern) : string := GoPath.JoinAll p.

(** [newPattern] (lines 34-53): the new value of [*patterns] and the
    returned error. *)
Definition newPattern (p : string) (patterns : list pattern)
    : list pattern * option error :=
  match GoPath.Match p "" with
  | None => (patterns, Some ErrBadPattern)
  | Some _ =>
      let steps := segments p in
      let steps := if (len steps =? 0)%nat then [""] else steps in
      let patterns := patterns ++ [steps] in
      match steps with
      | step0 :: rest =>
          if (step0 =? "**") && negb (len steps =? 1)%nat
          then (patterns ++ [rest], None)
          else (patterns, None)
      | [] => (patterns, None)
      end
  end.

(** The loop of [newPatterns] (lines 59-63). *)
Fixpoint newPatternsLoop (ps : list string) (patterns : list pattern)
    (errs : list (option error)) : list pattern * list (option error) :=
  match ps with
  | [] => (patterns, errs)
  | i :: rest =>
      let '(patterns, err) := newPattern i patterns in
      match err with
      | Some e => newPatternsLoop rest patterns (errs ++ [Some e])
      | None => newPatternsLoop rest patterns errs
      end
  end.

(** [newPatterns] (lines 56-65). *)
Definition newPatterns (ps : list string) : list pattern * option error :=
  let '(patterns, errs) := newPatternsLoop ps [] [] in
  (patterns, errors_Join errs).

(** [pattern.matchDir] (lines 70-87): [None] when [p[0]] is out of range,
    otherwise the returned flag and the new value of [*patterns]. *)
Definition matchDir (p : pattern) (name : string) (patterns : list pattern)
    : option (bool * list pattern) :=
  match p with
  | [] => None
  | step :: rest =>
      let finish (patterns : list pattern) :=
        if (len rest =? 0)%nat then Some (true, patterns)
        else Some (false, patterns ++ [rest]) in
      if step =? "**" then finish (patterns ++ [p])
      else if negb (match_ step name) then Some (false, patterns)
      else finish patterns
  end.

(** [pattern.matchFile] (lines 90-92). *)
Definition matchFile (p : pattern) (name : string) : bool :=
  match p with
  | [p0] => (p0 =? "**") || match_ p0 name
  | _ => false
  end.

(** [always] (lines 94-101). *)
Definition always (patterns : list pattern) : bool :=
  existsb (fun p => match p with [p0] => p0 =? "**" | _ => false end) patterns.

(** [hasMeta] (lines 104-106). *)
Definition hasMeta (p : string) : bool :=
  containsByte "*" p || containsByte "?" p || containsByte "[" p
  || containsByte "\" p.

(** [literal] (lines 108-123): [None] when [p[0]] is out of range. *)
Definition literal (patterns : list pattern)
    : option (string * list pattern * bool) :=
  match patterns with
  | [p] =>
      match p with
      | [] => None
      | p0 :: rest =>
          if hasMeta p0 then Some ("", [], false)
          else Some (p0, (if (1 <? len p)%nat then [rest] else []), true)
      end
  | _ => Some ("", [], false)
  end.

(** ** Loops over a pattern set *)

(** [for _, p := range ps { if p.matchDir(name, &next) { return ... } }]:
    the loop stops at the first pattern that reports a match. *)
Fixpoint matchDirFirst (ps : list pattern) (name : string) (next : list pattern)
    : option (bool * list pattern) :=
  match ps with
  | [] => Some (false, next)
  | p :: rest =>
      match matchDir p name next with
      | None => None
      | Some (true, next) => Some (true, next)
      | Some (false, next) => matchDirFirst rest name next
      end
  end.

(** [for _, p := range ps { if p.matchDir(name, &next) { hit = true } }]:
    every pattern is advanced. *)
Fixpoint matchDirAll (ps : list pattern) (name : string) (next : list pattern)
    (hit : bool) : option (bool * list pattern) :=
  match ps with
  | [] => Some (hit, next)
  | p :: rest =>
      match matchDir p name next with
      | None => None
      | Some (b, next) => matchDirAll rest name next (hit || b)
      end
  end.

(** [for _, p := range ps { if p.matchFile(name) { ... } }]. *)
Definition matchFileAny (ps : list pattern) (name : string) : bool :=
  existsb (fun p => matchFile p name) ps.

(** ** The Glob strategies and [New] (lines 125-361) *)

Record matchGlob : Type := { include : list pattern; exclude : list pattern }.

Inductive Glob : Type :=
| allGlob
| noneGlob
| matchGlobOf (g : matchGlob).

(** [New] (lines 347-361). *)
Definition New (includes excludes : list string) : option Glob * option error :=
  if (len excludes =? 0)%nat && slices_Contains includes "**" then (Some allGlob, None)
  else if (len includes =? 0)%nat || slices_Contains excludes "**" then (Some noneGlob, None)
  else
    let '(includePatterns, inclErr) := newPatterns includes in
    let '(excludePatterns, exclErr) := newPatterns excludes in
    match errors_Join [inclErr; exclErr] with
    | Some err => (None, Some err)
    | None =>
        (Some (matchGlobOf {| include := includePatterns; exclude := excludePatterns |}),
         None)
    end.

(** The loop over [names[:len(names)-1]] of [MatchPath] (lines 144-158),
    followed by the treatment of the last name (lines 160-172). *)
Fixpoint matchNames (names : list string) (include exclude : list pattern)
    : option bool :=
  match names with
  | [] => Some false
  | [last] =>
      match matchDirFirst exclude last [] with
      | None => None
      | Some (true, _) => Some false
      | Some (false, _) =>
          match matchDirFirst include last [] with
          | None => None
          | Some (hit, _) => Some hit
          end
      end
  | dir :: rest =>
      match matchDirFirst exclude dir [] with
      | None => None
      | Some (true, _) => Some false
      | Some (false, nextExclude) =>
          match matchDirAll include dir [] false with
          | None => None
          | Some (_, nextInclude) =>
              if (len nextInclude =? 0)%nat then Some false
              else matchNames rest nextInclude nextExclude
          end
      end
  end.

(** [matchGlob.MatchPath] (lines 137-173). *)
Definition MatchPath (g : matchGlob) (p : string) : option bool :=
  let names := segments p in
  if (len names =? 0)%nat then Some false
  else matchNames names (include g) (exclude g).

(** [Glob.MatchPath] for the three strategies (lines 272, 303, 137). *)
Definition Glob_MatchPath (g : Glob) (p : string) : option bool :=
  match g with
  | allGlob => Some true
  | noneGlob => Some false
  | matchGlobOf g => MatchPath g p
  end.

(** ** The file system and the consumer *)

Inductive result (A : Type) : Type :=
| Ok (a : A)
| Err (err : error).
Arguments Ok {A} a.
Arguments Err {A} err.

(** What the walker uses of an [fs.DirEntry] and of an [fs.FileInfo]. *)
Record DirEntry : Type := { Name : string; IsDir : bool }.

(** The [fs.FS] collaborator, through [fs.ReadDir] and [fs.Stat]; the
    result of [Stat] is [info.IsDir()]. *)
Record FS : Type := {
  ReadDir : string -> result (list DirEntry);
  Stat : string -> result bool
}.

(** A match result item: a path and an error that may be nil. *)
Definition item : Type := (string * option error)%type.

(** The [yield] function of the consumer: given the items it has received
    so far and the next one, whether the iteration goes on. *)
Definition yieldFn : Type := list item -> item -> bool.

Inductive fsop : Type :=
| OpReadDir (name : string)
| OpStat (name : string).

Record state : Type := { emitted : list item; trace : list fsop }.

(** How a computation ends: normally, by a run-time panic, or by running
    out of the fuel that bounds the recursion depth of the model.  Every
    ending carries the state reached. *)
Inductive outcome (A : Type) : Type :=
| Done (a : A) (st : state)
| Panic (st : state)
| OutOfFuel (st : state).
Arguments Done {A} a st.
Arguments Panic {A} st.
Arguments OutOfFuel {A} st.

Definition stateOf {A} (o : outcome A) : state :=
  match o with
  | Done _ st => st
  | Panic st => st
  | OutOfFuel st => st
  end.

Definition M (A : Type) : Type := state -> outcome A.

Definition ret {A} (a : A) : M A := fun st => Done a st.

Definition bind {A B} (m : M A) (f : A -> M B) : M B :=
  fun st =>
    match m st with
    | Done a st' => f a st'
    | Panic st' => Panic st'
    | OutOfFuel st' => OutOfFuel st'
    end.

Notation "x <- m ;; k" := (bind m (fun x => k))
  (at level 61, m at next level, right associativity).

Definition outOfFuel {A} : M A := fun st => OutOfFuel st.

(** A pure step that may panic. *)
Definition orPanic {A} (o : option A) : M A :=
  fun st => match o with Some a => Done a st | None => Panic st end.

(** [yield(p, err)]. *)
Definition yieldItem (yield : yieldFn) (p : string) (err : option error) : M bool :=
  fun st =>
    Done (yield (emitted st) (p, err))
         {| emitted := emitted st ++ [(p, err)]; trace := trace st |}.

(** [fs.ReadDir(fsys, dir)]. *)
Definition fsReadDir (fsys : FS) (dir : string) : M (result (list DirEntry)) :=
  fun st =>
    Done (ReadDir fsys dir)
         {| emitted := emitted st; trace := trace st ++ [OpReadDir dir] |}.

(** [fs.Stat(fsys, name)]. *)
Definition fsStat (fsys : FS) (name : string) : M (result bool) :=
  fun st =>
    Done (Stat fsys name)
         {| emitted := emitted st; trace := trace st ++ [OpStat name] |}.

(** [for _, x := range l { if !body(x) { return false } }; return true]. *)
Fixpoint forEach {A} (body : A -> M bool) (l : list A) : M bool :=
  match l with
  | [] => ret true
  | x :: rest =>
      ok <- body x ;;
      if ok then forEach body rest else ret false
  end.

(** ** The walker (lines 175-295) *)

(** [if yieldDir && includeDirs && !yield(dir, nil) { return false }]
    (lines 216 and 281): the flag says whether the walk goes on. *)
Definition yieldSelf (yield : yieldFn) (dir : string) (yieldDir includeDirs : bool)
    : M bool :=
  if yieldDir && includeDirs then yieldItem yield dir None else ret true.

(** [allStep] (lines 276-295). *)
Fixpoint allStep (fuel : nat) (fsys : FS) (yield : yieldFn) (dir : string)
    (yieldDir includeDirs : bool) : M bool :=
  match fuel with
  | 0 => outOfFuel
  | S fuel =>
      infos <- fsReadDir fsys dir ;;
      match infos with
      | Err err => yieldItem yield dir (Some err)
      | Ok infos =>
          ok <- yieldSelf yield dir yieldDir includeDirs ;;
          if negb ok then ret false
          else
            forEach
              (fun i =>
                 if IsDir i
                 then allStep fuel fsys yield (GoPath.Join dir (Name i)) true includeDirs
                 else yieldItem yield (GoPath.Join dir (Name i)) None)
              infos
      end
  end.

(** The type of [matchStep] once [fsys] and [yield] are fixed:
    [dir], [yieldDir], [includeDirs], [include], [exclude]. *)
Definition stepFn : Type :=
  string -> bool -> bool -> list pattern -> list pattern -> M bool.

(** The body of the loop over the directory's entries (lines 221-260);
    [rec] is the recursive call of line 251. *)
Definition entryStep (rec : stepFn) (yield : yieldFn) (dir : string)
    (includeDirs : bool) (include exclude : list pattern) (i : DirEntry) : M bool :=
  let name := Name i in
  let finish (included : bool) : M bool :=
    if included then yieldItem yield (GoPath.Join dir name) None else ret true in
  if negb (IsDir i) then
    if matchFileAny exclude name then ret true
    else finish (matchFileAny include name)
  else
    x <- orPanic (matchDirFirst exclude name []) ;;
    let '(excluded, nextExclude) := x in
    if excluded then ret true
    else
      y <- orPanic (matchDirAll include name [] false) ;;
      let '(hit, nextInclude) := y in
      let included := if hit then includeDirs else false in
      if negb (len nextInclude =? 0)%nat && negb (always nextExclude) then
        ok <- rec (GoPath.Join dir name) included includeDirs nextInclude nextExclude ;;
        if negb ok then ret false else finish false
      else finish included.

(** The general path (lines 212-261): list the directory and walk its
    entries. *)
Definition listStep (rec : stepFn) (fsys : FS) (yield : yieldFn) (dir : string)
    (yieldDir includeDirs : bool) (include exclude : list pattern) : M bool :=
  infos <- fsReadDir fsys dir ;;
  match infos with
  | Err err => yieldItem yield dir (Some err)
  | Ok infos =>
      ok <- yieldSelf yield dir yieldDir includeDirs ;;
      if negb ok then ret false
      else forEach (entryStep rec yield dir includeDirs include exclude) infos
  end.

(** The literal fast path (lines 185-209), entered with the [name] and
    [nextInclude] that [literal] returned. *)
Definition literalStep (rec : stepFn) (fsys : FS) (yield : yieldFn) (dir : string)
    (includeDirs : bool) (exclude : list pattern) (name : string)
    (nextInclude : list pattern) : M bool :=
  if matchFileAny exclude name then ret true
  else
    info <- fsStat fsys (GoPath.Join dir name) ;;
    match info with
    | Err err =>
        if errors_Is_ErrNotExist err then ret true
        else yieldItem yield dir (Some err)
    | Ok isDir =>
        if isDir then
          x <- orPanic (matchDirAll exclude name [] false) ;;
          let nextExclude := snd x in
          if negb (len nextInclude =? 0)%nat && negb (always nextExclude) then
            rec (GoPath.Join dir name) includeDirs includeDirs nextInclude nextExclude
          else if negb includeDirs then ret true
          else yieldItem yield (GoPath.Join dir name) None
        else yieldItem yield (GoPath.Join dir name) None
    end.

(** [matchStep] (lines 176-262). *)
Fixpoint matchStep (fuel : nat) (fsys : FS) (yield : yieldFn) (dir : string)
    (yieldDir includeDirs : bool) (include exclude : list pattern) : M bool :=
  match fuel with
  | 0 => outOfFuel
  | S fuel =>
      let rec : stepFn := matchStep fuel fsys yield in
      if always include then
        if (len exclude =? 0)%nat
        then allStep fuel fsys yield dir yieldDir includeDirs
        else listStep rec fsys yield dir yieldDir includeDirs [["**"]] exclude
      else
        l <- orPanic (literal include) ;;
        let '(name, nextInclude, ok) := l in
        if ok
        then literalStep rec fsys yield dir includeDirs exclude name nextInclude
        else listStep rec fsys yield dir yieldDir includeDirs include exclude
  end.

Definition start : state := {| emitted := []; trace := [] |}.

(** [Glob.Match] (lines 131, 266, 299), run against a consumer from the
    empty state. *)
Definition Glob_Match (fuel : nat) (g : Glob) (fsys : FS) (yield : yieldFn)
    (dir : string) (includeDirs : bool) : outcome bool :=
  match g with
  | allGlob => allStep fuel fsys yield dir false includeDirs start
  | noneGlob => Done true start
  | matchGlobOf g =>
      matchStep fuel fsys yield dir false includeDirs (include g) (exclude g) start
  end.

(** ** A file system made from a tree

    A well-behaved [fs.FS] in the manner of [testing/fstest.MapFS]: names
    are looked up element by element from the root, which is named [.]. *)
#[warnings="-register-all"]
Inductive node : Type :=
| file
| directory (entries : list (string * node)).

Fixpoint lookup (name : string) (entries : list (string * node)) : option node :=
  match entries with
  | [] => None
  | (n, x) :: rest => if n =? name then Some x else lookup name rest
  end.

Fixpoint resolve (root : node) (elems : list string) : option node :=
  match elems with
  | [] => Some root
  | e :: rest =>
      match root with
      | file => None
      | directory entries =>
          match lookup e entries with
          | None => None
          | Some child => resolve child rest
          end
      end
  end.

(** [fs.ValidPath]: [.] alone, or non-empty elements none of which is [.]
    or [..]. *)
Definition validPath (name : string) : bool :=
  (name =? ".")
  || forallb (fun e => negb ((e =? "") || (e =? ".") || (e =? ".."))) (splitSlash name).

Definition open (root : node) (op name : string) : result node :=
  if negb (validPath name) then Err (PathError op name ErrInvalid)
  else
    match resolve root (if name =? "." then [] else splitSlash name) with
    | None => Err (PathError op name ErrNotExist)
    | Some x => Ok x
    end.

Definition isDirectory (x : node) : bool :=
  match x with
  | file => false
  | directory _ => true
  end.

Definition treeFS (root : node) : FS := {|
  ReadDir name :=
    match open root "readdir" name with
    | Err e => Err e
    | Ok file => Err (PathError "readdir" name (errorString "not implemented"))
    | Ok (directory entries) =>
        Ok (map (fun e => {| Name := fst e; IsDir := isDirectory (snd e) |}) entries)
    end;
  Stat name :=
    match open root "stat" name with
    | Err e => Err e
    | Ok x => Ok (isDirectory x)
    end
|}.

(** A consumer that never stops. *)
Definition collect : yieldFn := fun _ _ => true.

(** ** What the specification says about matching

    Section 8 of the specification describes [MatchPath] through patterns
    that fully match a sequence of path segments, a [**] term standing for
    any number of segments, none included.  These definitions follow those
    words; the theorems compare them with the code above. *)

(** The terms [terms] fully match the names [names]. *)
Fixpoint specMatch (terms : pattern) (names : list string) : bool :=
  match terms with
  | [] => match names with [] => true | _ => false end
  | t :: rest =>
      if t =? "**" then
        (fix skip (names : list string) : bool :=
           specMatch rest names
           || match names with
              | [] => false
              | _ :: names' => skip names'
              end) names
      else
        match names with
        | [] => false
        | n :: names' => match_ t n && specMatch rest names'
        end
  end.

(** The non-empty prefixes of a list. *)
Fixpoint prefixes {A} (l : list A) : list (list A) :=
  match l with
  | [] => []
  | x :: rest => [x] :: map (cons x) (prefixes rest)
  end.

(** The pattern of a pattern string (section 4.1): its non-empty segments,
    or the single empty term when it has none. *)
Definition terms (p : string) : pattern :=
  match segments p with
  | [] => [""]
  | steps => steps
  end.

(** Some include string fully matches the segments of [p] and no exclude
    string fully matches a prefix of them. *)
Definition specMatchPath (includes excludes : list string) (p : string) : bool :=
  existsb (fun i => specMatch (terms i) (segments p)) includes
  && negb (existsb (fun e => existsb (specMatch (terms e)) (prefixes (segments p)))
                   excludes).

(** ** Notions used in the statements *)

(** A pattern in which [**] occurs as the first term or not at all. *)
Definition levelsLead (p : pattern) : bool :=
  forallb (fun step => negb (step =? "**")) (tl p).

(** A pattern without a [**] term. *)
Definition noLevels (p : pattern) : bool :=
  forallb (fun step => negb (step =? "**")) p.

(** The patterns that compiling a well-formed string adds. *)
Definition compiled (p : string) : list pattern :=
  match terms p with
  | step0 :: (_ :: _) as rest => if step0 =? "**" then [terms p; rest] else [terms p]
  | steps => [steps]
  end.

(** What [matchDir] appends for the pattern [p] and the name [name]. *)
Definition advance1 (name : string) (p : pattern) : list pattern :=
  match p with
  | [] => []
  | step :: rest =>
      let tail := match rest with [] => [] | _ => [rest] end in
      if step =? "**" then p :: tail
      else if match_ step name then tail
      else []
  end.

Definition advance (name : string) (ps : list pattern) : list pattern :=
  flat_map (advance1 name) ps.

(** The pattern set [ps], advanced over all the names but the last, holds a
    pattern that matches the last name immediately. *)
Fixpoint accepts (names : list string) (ps : list pattern) : bool :=
  match names with
  | [] => false
  | n :: rest =>
      match rest with
      | [] => matchFileAny ps n
      | _ => accepts rest (advance n ps)
      end
  end.

(** The pattern set [ps], advanced along the names, matches one of them
    immediately. *)
Fixpoint excluded (names : list string) (ps : list pattern) : bool :=
  match names with
  | [] => false
  | n :: rest => matchFileAny ps n || excluded rest (advance n ps)
  end.

(** A pattern string that [path.Match] rejects. *)
Definition malformed (p : string) : bool :=
  match GoPath.Match p "" with
  | None => true
  | Some _ => false
  end.

(** A pattern string that is malformed in the words of the specification
    (sections 4.1 and 6): the string is split into its terms, and one of
    the terms, taken alone, fails the zero-length match that validates
    it. *)
Definition specMalformed (p : string) : bool := existsb malformed (terms p).

(** The two guards at the head of [New] (lines 348 and 351). *)
Definition shortCircuit (includes excludes : list string) : bool :=
  ((len excludes =? 0)%nat && slices_Contains includes "**")
  || ((len includes =? 0)%nat || slices_Contains excludes "**").

(** A string made of slashes only; the empty string is one. *)
Fixpoint onlySlashes (p : string) : bool :=
  match p with
  | EmptyString => true
  | String c rest => (c =? "/")%char && onlySlashes rest
  end.

(** The include set the walker works with at a level: line 183 replaces a
    set that holds the pattern [**] by that pattern alone, and [allStep]
    stands for the same set. *)
Definition activeInclude (include : list pattern) : list pattern :=
  if always include then [["**"]] else include.

(** The sets with which the walk enters the entry [name] of a level whose
    sets are [include] and [exclude]; [None] when it does not enter it: an
    exclude pattern matches the name immediately, or the include set
    advances to nothing over it. *)
Definition descend (include exclude : list pattern) (name : string)
    : option (list pattern * list pattern) :=
  match matchDirFirst exclude name [] with
  | Some (false, nextExclude) =>
      match matchDirAll (activeInclude include) name [] false with
      | Some (_, []) => None
      | Some (_, nextInclude) => Some (nextInclude, nextExclude)
      | None => None
      end
  | _ => None
  end.

(** [licensed P dir include exclude d]: starting at [dir] with the active
    sets [include] and [exclude], the directory [d] is [dir] itself or is
    reached through names that satisfy [P], each of which the walk may enter
    at its level. *)
Inductive licensed (P : string -> Prop)
    : string -> list pattern -> list pattern -> string -> Prop :=
| licensed_here dir include exclude :
    licensed P dir include exclude dir
| licensed_enter dir include exclude name nextInclude nextExclude d :
    P name ->
    descend include exclude name = Some (nextInclude, nextExclude) ->
    licensed P (GoPath.Join dir name) nextInclude nextExclude d ->
    licensed P dir include exclude d.

(** The sets reached from [include] and [exclude] by entering the names
    [names] one after the other; [None] when the walk may not enter one of
    them. *)
Fixpoint follow (include exclude : list pattern) (names : list string)
    : option (list pattern * list pattern) :=
  match names with
  | [] => Some (include, exclude)
  | n :: rest =>
      match descend include exclude n with
      | Some (nextInclude, nextExclude) => follow nextInclude nextExclude rest
      | None => None
      end
  end.

(** Every term of every pattern of the set satisfies [P]. *)
Definition termsIn (P : string -> Prop) (ps : list pattern) : Prop :=
  Forall (Forall P) ps.

(** A plain name: not empty, not [.] nor [..], and without a slash. *)
Definition plainName (s : string) : bool :=
  negb (s =? "") && negb (s =? ".") && negb (s =? "..") && negb (containsByte "/" s).

Definition plain (s : string) : Prop := plainName s = true.

Definition plainNames (l : list string) : Prop := Forall plain l.

(** The clean relative path made of the elements [elems]; [.] when there
    are none. *)
Definition render (elems : list string) : string :=
  match elems with
  | [] => "."
  | _ => String.concat "/" elems
  end.

(** A file system whose listings return plain names. *)
Definition plainFS (fsys : FS) : Prop :=
  forall dir infos i, ReadDir fsys dir = Ok infos -> In i infos -> plain (Name i).

(** A tree all of whose entries have plain names. *)
Fixpoint plainTree (x : node) : bool :=
  match x with
  | file => true
  | directory entries =>
      forallb (fun e => match e with (n, y) => plainName n && plainTree y end) entries
  end.

(** A directory entry the pruning rules turn away at its level: the include
    set advances to nothing over its name, or an exclude pattern matches the
    name immediately. *)
Definition turnedAway (include exclude : list pattern) (name : string) : Prop :=
  (exists hit, matchDirAll include name [] false = Some (hit, []))
  \/ (exists next, matchDirFirst exclude name [] = Some (true, next)).

(** [d] is the directory [top] or lies below it. *)
Definition within (top d : string) : Prop :=
  d = top \/ exists rest, d = (top ++ "/" ++ rest)%string.

(** No run-time panic. *)
Definition noPanic {A} (o : outcome A) : Prop :=
  match o with
  | Panic _ => False
  | _ => True
  end.

Definition nonEmpty (p : pattern) : Prop := p <> [].

(** A step function that never panics on sets of non-empty patterns. *)
Definition safeStep (rec : stepFn) : Prop :=
  forall dir yieldDir includeDirs include exclude st,
    Forall nonEmpty include -> Forall nonEmpty exclude ->
    noPanic (rec dir yieldDir includeDirs include exclude st).

(** Every directory listed by [m] was listed before or belongs to [L]. *)
Definition readsWithin {A} (L : string -> Prop) (m : M A) : Prop :=
  forall st d,
    In (OpReadDir d) (trace (stateOf (m st))) ->
    In (OpReadDir d) (trace st) \/ L d.

(** A step function that lists licensed directories only, on include sets
    whose terms satisfy [P]. *)
Definition licensedStep (P : string -> Prop) (rec : stepFn) : Prop :=
  forall dir yieldDir includeDirs include exclude,
    termsIn P include ->
    readsWithin (licensed P dir include exclude)
                (rec dir yieldDir includeDirs include exclude).

(** How many strings of a batch are malformed. *)
Definition countBad (ps : list string) : nat := len (filter malformed ps).

(** A file system on which every operation is refused. *)
Definition deniedFS : FS := {|
  ReadDir _ := Err ErrPermission;
  Stat _ := Err ErrPermission
|}.

(** ** Notions used in the further properties *)

(** The strategy that [New] chooses (lines 348-360), by the guards that its
    arguments pass. *)
Inductive strategy (includes excludes : list string) : Glob -> Prop :=
| useAll : excludes = [] -> In "**" includes -> strategy includes excludes allGlob
| useNone :
    (excludes <> [] \/ ~ In "**" includes) ->
    (includes = [] \/ In "**" excludes) ->
    strategy includes excludes noneGlob
| useMatch :
    (excludes <> [] \/ ~ In "**" includes) ->
    includes <> [] -> ~ In "**" excludes ->
    countBad (includes ++ excludes) = 0 ->
    strategy includes excludes
             (matchGlobOf {| include := fst (newPatterns includes);
                             exclude := fst (newPatterns excludes) |}).

(** The consumer accepted every item of the list when it was handed over. *)
Definition accepted (yield : yieldFn) (items : list item) : Prop :=
  forall pre it post, items = pre ++ it :: post -> yield pre it = true.

(** The consumer refused the last item of the list and accepted the ones
    before it. *)
Definition refused (yield : yieldFn) (items : list item) : Prop :=
  exists pre it, items = pre ++ [it] /\ accepted yield pre /\ yield pre it = false.

(** No item was handed over after one that the consumer refused. *)
Definition obedient (yield : yieldFn) (items : list item) : Prop :=
  forall pre it post,
    items = pre ++ it :: post -> post <> [] -> yield pre it = true.

(** A computation that goes on while the consumer accepts, and that returns
    [false], at once, when the consumer refuses an item. *)
Definition polite (yield : yieldFn) (m : M bool) : Prop :=
  forall st,
    accepted yield (emitted st) ->
    match m st with
    | Done true st' => accepted yield (emitted st')
    | Done false st' => refused yield (emitted st')
    | Panic st' => accepted yield (emitted st')
    | OutOfFuel st' => accepted yield (emitted st')
    end.

(** A computation that hands nothing over. *)
Definition silent {A} (m : M A) : Prop :=
  forall st, emitted (stateOf (m st)) = emitted st.

(** A step function that is polite whatever its arguments. *)
Definition politeStep (yield : yieldFn) (rec : stepFn) : Prop :=
  forall dir yieldDir includeDirs include exclude,
    polite yield (rec dir yieldDir includeDirs include exclude).

(** Every item handed over by [m] was handed over before or satisfies [Q]. *)
Definition emitsOnly {A} (Q : item -> Prop) (m : M A) : Prop :=
  forall st it,
    In it (emitted (stateOf (m st))) -> In it (emitted st) \/ Q it.

(** An item whose error, when it has one, is the failure of listing the
    item's path, or the failure, other than not-exist, of the probe of an
    entry of that path. *)
Definition fault (fsys : FS) (it : item) : Prop :=
  match snd it with
  | None => True
  | Some err =>
      ReadDir fsys (fst it) = Err err
      \/ exists name,
           Stat fsys (GoPath.Join (fst it) name) = Err err
           /\ errors_Is_ErrNotExist err = false
  end.

(** A step function whose items with an error are faults. *)
Definition faultStep (fsys : FS) (rec : stepFn) : Prop :=
  forall dir yieldDir includeDirs include exclude,
    emitsOnly (fault fsys) (rec dir yieldDir includeDirs include exclude).

(** A term with a metacharacter of [path.Match]. *)
Definition meta (t : string) : Prop := hasMeta t = true.

(** An item without error whose path is the directory [elems] itself, when
    [yieldDir] allows it, or lies below it along plain names that the
    include set accepts and the exclude set does not exclude. *)
Definition reach (elems : list string) (include exclude : list pattern)
    (yieldDir : bool) (it : item) : Prop :=
  snd it = None ->
  (yieldDir = true /\ fst it = render elems)
  \/ exists names,
       names <> [] /\ plainNames names /\ fst it = render (elems ++ names)
       /\ accepts names include = true /\ excluded names exclude = false.

(** A step function that hands over, without error, only what its sets
    accept, on include sets whose terms all have a metacharacter. *)
Definition soundStep (rec : stepFn) : Prop :=
  forall elems yieldDir includeDirs include exclude,
    plainNames elems -> Forall nonEmpty include -> Forall nonEmpty exclude ->
    termsIn meta include ->
    emitsOnly (reach elems include exclude yieldDir)
              (rec (render elems) yieldDir includeDirs include exclude).

(** The number of levels of a tree below its root. *)
Fixpoint height (x : node) : nat :=
  match x with
  | file => 0
  | directory entries =>
      S (list_max (map (fun e => match e with (_, y) => height y end) entries))
  end.

(** The listing of a directory of [treeFS]. *)
Definition entryOf (e : string * node) : DirEntry :=
  {| Name := fst e; IsDir := isDirectory (snd e) |}.

(** [m] returns [true], keeps what was handed over before, and hands over
    every item of [T]. *)
Definition yields (m : M bool) (T : item -> Prop) : Prop :=
  forall st, exists st',
    m st = Done true st'
    /\ (forall it, In it (emitted st) -> In it (emitted st'))
    /\ (forall it, T it -> In it (emitted st')).

(** What a walk of the directory [elems] of the tree [root] owes: the
    directory itself, when [yieldDir] and [includeDirs] ask for it, and
    every file below it, and with [includeDirs] every directory below it,
    whose names the include set accepts and the exclude set does not
    exclude. *)
Definition target (root : node) (includeDirs : bool) (elems : list string)
    (include exclude : list pattern) (yieldDir : bool) (it : item) : Prop :=
  (yieldDir = true /\ includeDirs = true
   /\ (exists entries, resolve root elems = Some (directory entries))
   /\ it = (render elems, None))
  \/ exists names y,
       names <> [] /\ resolve root (elems ++ names) = Some y
       /\ (isDirectory y = true -> includeDirs = true)
       /\ accepts names include = true /\ excluded names exclude = false
       /\ it = (render (elems ++ names), None).

(** A step function that pays what it owes on every directory of [root]
    whose height leaves it one level of [bound] to spare, on include sets
    whose terms all have a metacharacter. *)
Definition completeStep (root : node) (includeDirs : bool) (bound : nat)
    (rec : stepFn) : Prop :=
  forall elems x yieldDir include exclude,
    plainNames elems -> resolve root elems = Some x -> S (height x) < bound ->
    Forall nonEmpty include -> Forall nonEmpty exclude -> termsIn meta include ->
    yields (rec (render elems) yieldDir includeDirs include exclude)
           (target root includeDirs elems include exclude yieldDir).

(** The glob made of the single include string [s] accepts the path [p]. *)
Definition matchesAlone (s p : string) : bool :=
  match New [s] [] with
  | (Some g, None) =>
      match Glob_MatchPath g p with
      | Some true => true
      | _ => false
      end
  | _ => false
  end.

(** The file system reported the path [p] as something else than a
    directory: as such an entry of a listing, or to a probe. *)
Definition reportedFile (fsys : FS) (p : string) : Prop :=
  (exists dir infos i,
      ReadDir fsys dir = Ok infos /\ In i infos /\ IsDir i = false
      /\ p = GoPath.Join dir (Name i))
  \/ Stat fsys p = Ok false.

(** An item that has an error, or whose path the file system reported as
    something else than a directory. *)
Definition filesOnly (fsys : FS) (it : item) : Prop :=
  snd it = None -> reportedFile fsys (fst it).

(** A step function that, without [includeDirs], hands over such items
    only. *)
Definition filesOnlyStep (fsys : FS) (rec : stepFn) : Prop :=
  forall dir yieldDir include exclude,
    emitsOnly (filesOnly fsys) (rec dir yieldDir false include exclude).

(** A computation that ends normally, from every state. *)
Definition returns {A} (m : M A) : Prop :=
  forall st, exists a st', m st = Done a st'.

(** A step function that ends normally on every directory of [root] whose
    height leaves it one level of [bound] to spare, on include sets whose
    terms are plain. *)
Definition returnsStep (root : node) (bound : nat) (rec : stepFn) : Prop :=
  forall elems x yieldDir includeDirs include exclude,
    plainNames elems -> resolve root elems = Some x -> S (height x) < bound ->
    Forall nonEmpty include -> Forall nonEmpty exclude -> termsIn plain include ->
    returns (rec (render elems) yieldDir includeDirs include exclude).

(** The directories listed by a trace, in order. *)
Fixpoint listed (t : list fsop) : list string :=
  match t with
  | [] => []
  | OpReadDir d :: rest => d :: listed rest
  | OpStat _ :: rest => listed rest
  end.

(** [m] lists directories of [L] only, and lists none twice, when it starts
    where no directory was listed twice and none of [L] was listed. *)
Definition listsOnce {A} (L : string -> Prop) (m : M A) : Prop :=
  forall st,
    NoDup (listed (trace st)) ->
    (forall d, In d (listed (trace st)) -> ~ L d) ->
    NoDup (listed (trace (stateOf (m st))))
    /\ forall d, In d (listed (trace (stateOf (m st)))) ->
                 In d (listed (trace st)) \/ L d.

(** A computation that lists nothing. *)
Definition listless {A} (m : M A) : Prop :=
  forall st, listed (trace (stateOf (m st))) = listed (trace st).

(** The directory [elems] and the directories below it along plain names. *)
Definition under (elems : list string) (d : string) : Prop :=
  exists chain, plainNames chain /\ d = render (elems ++ chain).

(** A file system whose listings name no entry twice. *)
Definition distinctFS (fsys : FS) : Prop :=
  forall dir infos, ReadDir fsys dir = Ok infos -> NoDup (map Name infos).

(** A list of names that holds none twice. *)
Fixpoint distinctNames (l : list string) : bool :=
  match l with
  | [] => true
  | n :: rest => negb (existsb (String.eqb n) rest) && distinctNames rest
  end.

(** A tree none of whose directories holds two entries of the same name. *)
Fixpoint distinctTree (x : node) : bool :=
  match x with
  | file => true
  | directory entries =>
      distinctNames (map fst entries)
      && forallb (fun e => match e with (_, y) => distinctTree y end) entries
  end.

(** A step function that lists no directory twice and none outside the
    directory it is started in, on include sets whose terms are plain. *)
Definition onceStep (rec : stepFn) : Prop :=
  forall elems yieldDir includeDirs include exclude,
    plainNames elems -> termsIn plain include ->
    listsOnce (under elems) (rec (render elems) yieldDir includeDirs include exclude).

(** The path [p] lies below the directory [d], along plain names. *)
Definition below (d p : string) : Prop :=
  exists elems n chain,
    plainNames (elems ++ n :: chain)
    /\ d = render elems /\ p = render (elems ++ n :: chain).

(** No item of the list comes after an item whose path lies below its
    own. *)
Definition ancestorFirst (l : list item) : Prop :=
  forall l1 p e l2 d e',
    l = l1 ++ (p, e) :: l2 -> In (d, e') l2 -> ~ below d p.

(** [m] hands over, after what was handed over before, items whose paths
    are in [L], none after an item below it. *)
Definition emitsInOrder {A} (L : string -> Prop) (m : M A) : Prop :=
  forall st, exists new,
    emitted (stateOf (m st)) = emitted st ++ new
    /\ (forall it, In it new -> L (fst it))
    /\ ancestorFirst new.

(** A step function that hands over paths of the directory it is started
    in, none after a path below it, on include sets whose terms are
    plain. *)
Definition orderedStep (rec : stepFn) : Prop :=
  forall elems yieldDir includeDirs include exclude,
    plainNames elems -> termsIn plain include ->
    emitsInOrder (under elems) (rec (render elems) yieldDir includeDirs include exclude).

(** A step function that lists nothing outside the directory it is started
    in, on include sets whose terms are plain. *)
Definition withinStep (rec : stepFn) : Prop :=
  forall elems yieldDir includeDirs include exclude,
    plainNames elems -> termsIn plain include ->
    readsWithin (under elems) (rec (render elems) yieldDir includeDirs include exclude).

(** ** Small trees *)

(** A root that holds the plain file [a]. *)
Definition fileA : node := directory [("a", file)].

(** A root that holds the empty directory [a]. *)
Definition dirA : node := directory [("a", directory [])].

(** A root that holds the directory [a] with the plain file [b] in it. *)
Definition fileAB : node := directory [("a", directory [("b", file)])].

(** A root that holds the directory [a], with the plain file [x] in it,
    and the empty directory [b]. *)
Definition twoDirs : node :=
  directory [("a", directory [("x", file)]); ("b", directory [])].

(** ** Facts about the pattern compiler and the advancer *)

Lemma segments_onlySlashes (p : string) :
  onlySlashes p = true -> segments p = [].
Proof.
  unfold segments.
  induction p as [|c rest IH]; simpl; intros H.
  - reflexivity.
  - apply andb_prop in H as [Hc Hrest].
    rewrite Hc. simpl. now apply IH.
Qed.

Lemma newPattern_valid (p : string) (patterns : list pattern) :
  malformed p = false ->
  newPattern p patterns =
  let steps := if (len (segments p) =? 0)%nat then [""] else segments p in
  (match steps with
   | step0 :: rest =>
       if (step0 =? "**") && negb (len steps =? 1)%nat
       then (patterns ++ [steps]) ++ [rest]
       else patterns ++ [steps]
   | [] => patterns ++ [steps]
   end, None).
Proof.
  unfold malformed, newPattern. intros H.
  destruct (GoPath.Match p "") as [b|]; [|discriminate].
  cbv zeta.
  destruct (if (len (segments p) =? 0)%nat then [""] else segments p) as [|step0 rest];
    [reflexivity|].
  destruct ((step0 =? "**") && negb (len (step0 :: rest) =? 1)%nat); reflexivity.
Qed.

Lemma newPattern_malformed (p : string) (patterns : list pattern) :
  malformed p = true ->
  newPattern p patterns = (patterns, Some ErrBadPattern).
Proof.
  unfold malformed, newPattern. intros H.
  destruct (GoPath.Match p ""); [discriminate|reflexivity].
Qed.

Lemma newPattern_nonEmpty (p : string) (patterns : list pattern) :
  Forall nonEmpty patterns -> Forall nonEmpty (fst (newPattern p patterns)).
Proof.
  intros H. destruct (malformed p) eqn:Hm.
  - rewrite newPattern_malformed by assumption. exact H.
  - rewrite newPattern_valid by assumption. cbv zeta.
    destruct (segments p) as [|s0 [|s1 ss]] eqn:Hs; simpl.
    + apply Forall_app; split; [exact H|]. repeat constructor. discriminate.
    + rewrite andb_false_r.
      apply Forall_app; split; [exact H|]. repeat constructor. discriminate.
    + rewrite andb_true_r.
      destruct (s0 =? "**"); simpl; repeat (apply Forall_app; split);
        try exact H; repeat constructor; discriminate.
Qed.

Lemma newPatternsLoop_nonEmpty (ps : list string) :
  forall patterns errs,
    Forall nonEmpty patterns ->
    Forall nonEmpty (fst (newPatternsLoop ps patterns errs)).
Proof.
  induction ps as [|i rest IH]; simpl; intros patterns errs H.
  - exact H.
  - pose proof (newPattern_nonEmpty i patterns H) as Hn.
    destruct (newPattern i patterns) as [patterns' [e|]]; simpl in Hn;
      apply IH; exact Hn.
Qed.

Lemma newPatterns_nonEmpty (ps : list string) :
  Forall nonEmpty (fst (newPatterns ps)).
Proof.
  unfold newPatterns.
  pose proof (newPatternsLoop_nonEmpty ps [] [] (Forall_nil _)) as H.
  destruct (newPatternsLoop ps [] []) as [patterns errs]. exact H.
Qed.

Lemma matchDir_nonEmpty (p : pattern) (name : string) (acc : list pattern) :
  nonEmpty p -> Forall nonEmpty acc ->
  exists b acc', matchDir p name acc = Some (b, acc') /\ Forall nonEmpty acc'.
Proof.
  intros Hp Hacc. destruct p as [|step rest]; [now elim Hp|].
  unfold matchDir.
  assert (Hrest : (len rest =? 0)%nat = false -> nonEmpty rest).
  { destruct rest; [discriminate|]. intros _. discriminate. }
  destruct (step =? "**").
  - destruct (len rest =? 0)%nat eqn:Hl; eexists _, _; split; try reflexivity.
    + apply Forall_app; split; [exact Hacc|]. repeat constructor. discriminate.
    + repeat (apply Forall_app; split); try exact Hacc; repeat constructor;
        [discriminate|now apply Hrest].
  - destruct (negb (match_ step name)).
    + eexists _, _; split; [reflexivity|exact Hacc].
    + destruct (len rest =? 0)%nat eqn:Hl; eexists _, _; split; try reflexivity.
      * exact Hacc.
      * apply Forall_app; split; [exact Hacc|]. repeat constructor. now apply Hrest.
Qed.

Lemma matchDirAll_nonEmpty (ps : list pattern) (name : string) :
  forall acc hit,
    Forall nonEmpty ps -> Forall nonEmpty acc ->
    exists b acc', matchDirAll ps name acc hit = Some (b, acc') /\ Forall nonEmpty acc'.
Proof.
  induction ps as [|p rest IH]; simpl; intros acc hit Hps Hacc.
  - eexists _, _; split; [reflexivity|exact Hacc].
  - inversion Hps as [|? ? Hp Hrest]; subst.
    destruct (matchDir_nonEmpty p name acc Hp Hacc) as (b & acc' & -> & Hacc').
    now apply IH.
Qed.

Lemma matchDirFirst_nonEmpty (ps : list pattern) (name : string) :
  forall acc,
    Forall nonEmpty ps -> Forall nonEmpty acc ->
    exists b acc', matchDirFirst ps name acc = Some (b, acc') /\ Forall nonEmpty acc'.
Proof.
  induction ps as [|p rest IH]; simpl; intros acc Hps Hacc.
  - eexists _, _; split; [reflexivity|exact Hacc].
  - inversion Hps as [|? ? Hp Hrest]; subst.
    destruct (matchDir_nonEmpty p name acc Hp Hacc) as (b & acc' & -> & Hacc').
    destruct b.
    + eexists _, _; split; [reflexivity|exact Hacc'].
    + now apply IH.
Qed.

Lemma literal_nonEmpty (ps : list pattern) :
  Forall nonEmpty ps ->
  exists name next ok, literal ps = Some (name, next, ok) /\ Forall nonEmpty next.
Proof.
  intros H. unfold literal.
  destruct ps as [|p [|q ps]]; try (eexists _, _, _; split; [reflexivity|constructor]).
  inversion H as [|? ? Hp _]; subst.
  destruct p as [|p0 rest]; [now elim Hp|].
  destruct (hasMeta p0); [eexists _, _, _; split; [reflexivity|constructor]|].
  eexists _, _, _; split; [reflexivity|].
  destruct rest; simpl; repeat constructor. discriminate.
Qed.

Lemma matchNames_total (names : list string) :
  forall include exclude,
    Forall nonEmpty include -> Forall nonEmpty exclude ->
    exists b, matchNames names include exclude = Some b.
Proof.
  induction names as [|n rest IH]; intros include exclude Hi He.
  - now exists false.
  - destruct (matchDirFirst_nonEmpty exclude n [] He (Forall_nil _))
      as (be & ne & Hex & Hne).
    destruct rest as [|n' rest'].
    + simpl. rewrite Hex. destruct be; [now eexists|].
      destruct (matchDirFirst_nonEmpty include n [] Hi (Forall_nil _))
        as (bi & ni & -> & _). now eexists.
    + change (matchNames (n :: n' :: rest') include exclude) with
        (match matchDirFirst exclude n [] with
         | None => None
         | Some (true, _) => Some false
         | Some (false, nextExclude) =>
             match matchDirAll include n [] false with
             | None => None
             | Some (_, nextInclude) =>
                 if (len nextInclude =? 0)%nat then Some false
                 else matchNames (n' :: rest') nextInclude nextExclude
             end
         end).
      rewrite Hex. destruct be; [now eexists|].
      destruct (matchDirAll_nonEmpty include n [] false Hi (Forall_nil _))
        as (bi & ni & -> & Hni).
      destruct (len ni =? 0)%nat; [now eexists|].
      now apply IH.
Qed.

(** The sets of a compiled glob hold non-empty patterns only. *)
Lemma New_nonEmpty (includes excludes : list string) (g : matchGlob) :
  New includes excludes = (Some (matchGlobOf g), None) ->
  Forall nonEmpty (include g) /\ Forall nonEmpty (exclude g).
Proof.
  unfold New. intros H.
  destruct ((len excludes =? 0)%nat && slices_Contains includes "**"); [discriminate|].
  destruct ((len includes =? 0)%nat || slices_Contains excludes "**"); [discriminate|].
  pose proof (newPatterns_nonEmpty includes) as Hi.
  pose proof (newPatterns_nonEmpty excludes) as He.
  destruct (newPatterns includes) as [ip ie], (newPatterns excludes) as [ep ee].
  destruct (errors_Join [ie; ee]); [discriminate|].
  injection H as <-. now split.
Qed.

(** ** The fuel of [path.Match] is never used up *)

Lemma from1_length (s : string) : String.length (from1 s) <= String.length s.
Proof. destruct s; simpl; lia. Qed.

(** A rune of a non-empty string is at least one byte wide. *)
Lemma DecodeRuneInString_width (c : ascii) (t : string) :
  1 <= snd (utf8.DecodeRuneInString (String c t)).
Proof.
  unfold utf8.DecodeRuneInString. cbv zeta.
  repeat match goal with
         | |- context [if ?b then _ else _] => destruct b
         | |- context [match ?s with EmptyString => _ | String _ _ => _ end] =>
             destruct s
         end; cbn [snd]; lia.
Qed.

Lemma skipBytes_length (n : nat) :
  forall s, String.length (skipBytes n s) = String.length s - n.
Proof.
  induction n as [|n IH]; intros s; [simpl; destruct s; simpl; lia|].
  destruct s as [|c t]; [reflexivity|]. cbn [skipBytes String.length].
  rewrite IH. lia.
Qed.

Lemma getEsc_shorter (chunk : string) (r : N) (rest : string) :
  GoPath.getEsc chunk = Some (r, rest) -> String.length rest < String.length chunk.
Proof.
  assert (Hdecode : forall c t r rest,
             (let '(r, n) := utf8.DecodeRuneInString (String c t) in
              let nchunk := skipBytes n (String c t) in
              if ((r =? utf8.RuneError)%N && (n =? 1)%nat)
                 || (String.length nchunk =? 0)%nat
              then None
              else Some (r, nchunk)) = Some (r, rest) ->
             String.length rest < String.length (String c t)).
  { intros c t r0 rest0. pose proof (DecodeRuneInString_width c t) as Hw.
    destruct (utf8.DecodeRuneInString (String c t)) as [r1 n]. cbn [snd] in Hw.
    cbv zeta. destruct (_ || _); [discriminate|].
    intros [= _ <-]. rewrite skipBytes_length. cbn [String.length]. lia. }
  unfold GoPath.getEsc. destruct chunk as [|c t]; [discriminate|].
  destruct ((c =? "-")%char || (c =? "]")%char); [discriminate|].
  destruct (c =? "\")%char.
  - destruct t as [|c' t']; [discriminate|].
    intros H. apply Hdecode in H. simpl in *. lia.
  - apply Hdecode.
Qed.

(** A round of the range loop calls the next round on a shorter chunk
    only. *)
Lemma rangeRound_shorter (again again' : string -> bool -> nat -> option (bool * string))
    (chunk : string) (r : N) (matched : bool) (nrange : nat) :
  (forall chunk' m n, String.length chunk' < String.length chunk ->
                      again chunk' m n = again' chunk' m n) ->
  GoPath.rangeRound again chunk r matched nrange
  = GoPath.rangeRound again' chunk r matched nrange.
Proof.
  intros Hagain. unfold GoPath.rangeRound. cbv zeta.
  destruct (match chunk, nrange with
            | String c _, S _ => (c =? "]")%char
            | _, _ => false
            end); [reflexivity|].
  destruct (GoPath.getEsc chunk) as [[lo chunk1]|] eqn:H1; [|reflexivity].
  apply getEsc_shorter in H1.
  destruct (byte0 chunk1 =? "-")%char.
  - destruct (GoPath.getEsc (from1 chunk1)) as [[hi chunk2]|] eqn:H2; [|reflexivity].
    apply getEsc_shorter in H2. pose proof (from1_length chunk1) as H3.
    apply Hagain. lia.
  - now apply Hagain.
Qed.

Lemma ranges_fuel (fuel : nat) :
  forall chunk r matched nrange,
    String.length chunk <= fuel ->
    GoPath.ranges (S fuel) chunk r matched nrange
    = GoPath.ranges fuel chunk r matched nrange.
Proof.
  induction fuel as [|fuel IH]; intros chunk r matched nrange Hlen;
    cbn [GoPath.ranges]; apply rangeRound_shorter; intros chunk' m n Hshort.
  - lia.
  - apply IH. lia.
Qed.

Lemma ranges_shorter (fuel : nat) :
  forall chunk r matched nrange b rest,
    GoPath.ranges fuel chunk r matched nrange = Some (b, rest) ->
    String.length rest <= String.length chunk.
Proof.
  assert (Hround : forall again chunk r matched nrange b rest,
             (forall chunk' m n b' rest',
                 again chunk' m n = Some (b', rest') ->
                 String.length rest' <= String.length chunk') ->
             GoPath.rangeRound again chunk r matched nrange = Some (b, rest) ->
             String.length rest <= String.length chunk).
  { intros again chunk r matched nrange b rest Hagain.
    unfold GoPath.rangeRound. cbv zeta.
    destruct (match chunk, nrange with
              | String c _, S _ => (c =? "]")%char
              | _, _ => false
              end); [intros [= _ <-]; apply from1_length|].
    destruct (GoPath.getEsc chunk) as [[lo chunk1]|] eqn:H1; [|discriminate].
    apply getEsc_shorter in H1.
    destruct (byte0 chunk1 =? "-")%char.
    - destruct (GoPath.getEsc (from1 chunk1)) as [[hi chunk2]|] eqn:H2; [|discriminate].
      apply getEsc_shorter in H2. pose proof (from1_length chunk1) as H3.
      intros H4. apply Hagain in H4. lia.
    - intros H4. apply Hagain in H4. lia. }
  induction fuel as [|fuel IH]; intros chunk r matched nrange b rest;
    cbn [GoPath.ranges]; apply Hround.
  - discriminate.
  - intros chunk' m n b' rest'. apply IH.
Qed.

(** A round of the chunk loop calls the next round, and the class reader,
    on a shorter chunk only. *)
Lemma chunkRound_shorter
    (again again' : string -> string -> bool -> option (string * bool))
    (class class' : string -> N -> option (bool * string))
    (c : ascii) (chunk1 s : string) (failed : bool) :
  (forall chunk s f, String.length chunk <= String.length chunk1 ->
                     again chunk s f = again' chunk s f) ->
  (forall chunk r, String.length chunk <= String.length chunk1 ->
                   class chunk r = class' chunk r) ->
  (forall chunk r b rest, class' chunk r = Some (b, rest) ->
                          String.length rest <= String.length chunk) ->
  GoPath.chunkRound again class c chunk1 s failed
  = GoPath.chunkRound again' class' c chunk1 s failed.
Proof.
  intros Hagain Hclass Hshort. unfold GoPath.chunkRound. cbv zeta.
  assert (Hchunk2 : String.length (if (byte0 chunk1 =? "^")%char
                                   then from1 chunk1 else chunk1)
                    <= String.length chunk1).
  { destruct (byte0 chunk1 =? "^")%char; [apply from1_length|lia]. }
  destruct (c =? "[")%char.
  - rewrite Hclass by exact Hchunk2.
    destruct (class' _ _) as [[matched chunk3]|] eqn:Hr; [|reflexivity].
    apply Hshort in Hr. apply Hagain. lia.
  - destruct (c =? "?")%char.
    + destruct (failed || (String.length s =? 0)%nat); now apply Hagain.
    + destruct (c =? "\")%char.
      * destruct chunk1 as [|c' chunk2]; [reflexivity|].
        destruct (failed || (String.length s =? 0)%nat); apply Hagain; simpl; lia.
      * destruct (failed || (String.length s =? 0)%nat); now apply Hagain.
Qed.

Lemma chunkLoop_fuel (fuel : nat) :
  forall chunk s failed,
    String.length chunk <= fuel ->
    GoPath.chunkLoop (S fuel) chunk s failed = GoPath.chunkLoop fuel chunk s failed.
Proof.
  induction fuel as [|fuel IH]; intros chunk s failed Hlen.
  - destruct chunk; [reflexivity|simpl in Hlen; lia].
  - destruct chunk as [|c chunk1]; [reflexivity|].
    simpl in Hlen. cbn [GoPath.chunkLoop].
    apply chunkRound_shorter.
    + intros chunk s' f Hc. apply IH. lia.
    + intros chunk r Hc. apply ranges_fuel. lia.
    + intros chunk r b rest. apply ranges_shorter.
Qed.

Lemma dropStars_length (p : string) :
  String.length (snd (GoPath.dropStars p)) <= String.length p.
Proof.
  induction p as [|c t IH]; cbn [GoPath.dropStars]; [simpl; lia|].
  destruct (c =? "*")%char; simpl in *; lia.
Qed.

Lemma scan_length (p : string) :
  forall inrange,
    String.length (snd (GoPath.scan p inrange)) <= String.length p.
Proof.
  assert (Hind : forall n p, String.length p <= n ->
                             forall inrange,
                               String.length (snd (GoPath.scan p inrange))
                               <= String.length p).
  { induction n as [|n IH]; intros q Hq inrange.
    - destruct q; [simpl; lia|simpl in Hq; lia].
    - destruct q as [|c t]; [simpl; lia|]. simpl in Hq.
      cbn [GoPath.scan].
      destruct (c =? "\")%char.
      + destruct t as [|c' t']; [simpl; lia|]. simpl in Hq.
        cbn [snd String.length]. specialize (IH t' ltac:(lia) inrange). lia.
      + destruct (c =? "[")%char; [cbn [snd String.length];
                                   specialize (IH t ltac:(lia) true); lia|].
        destruct (c =? "]")%char; [cbn [snd String.length];
                                   specialize (IH t ltac:(lia) false); lia|].
        destruct (c =? "*")%char.
        * destruct inrange; cbn [snd String.length];
            [specialize (IH t ltac:(lia) true); lia|lia].
        * cbn [snd String.length]. specialize (IH t ltac:(lia) inrange). lia. }
  intros inrange. now apply (Hind (String.length p)).
Qed.

(** On a non-empty pattern, [scanChunk] leaves a shorter pattern. *)
Lemma scanChunk_shorter (c : ascii) (t : string) :
  String.length (snd (GoPath.scanChunk (String c t))) <= String.length t.
Proof.
  unfold GoPath.scanChunk. cbn [GoPath.dropStars].
  destruct (c =? "*")%char eqn:Hstar.
  - pose proof (dropStars_length t) as H1.
    destruct (GoPath.dropStars t) as [star p] eqn:Hd. cbn [snd] in *.
    pose proof (scan_length p false) as H2.
    destruct (GoPath.scan p false) as [chunk rest]. cbn [snd] in *. lia.
  - cbn [GoPath.scan].
    destruct (c =? "\")%char.
    + destruct t as [|c' t']; [simpl; lia|].
      pose proof (scan_length t' false) as H.
      destruct (GoPath.scan t' false). cbn [fst snd String.length] in *. lia.
    + destruct (c =? "[")%char;
        [pose proof (scan_length t true) as H;
         destruct (GoPath.scan t true); cbn [fst snd] in *; lia|].
      destruct (c =? "]")%char;
        [pose proof (scan_length t false) as H;
         destruct (GoPath.scan t false); cbn [fst snd] in *; lia|].
      rewrite Hstar.
      pose proof (scan_length t false) as H.
      destruct (GoPath.scan t false); cbn [fst snd] in *; lia.
Qed.

Lemma checkRest_fuel (fuel : nat) :
  forall p, String.length p <= fuel ->
            GoPath.checkRest (S fuel) p = GoPath.checkRest fuel p.
Proof.
  induction fuel as [|fuel IH]; intros p Hlen.
  - destruct p; [reflexivity|simpl in Hlen; lia].
  - destruct p as [|c t]; [reflexivity|]. simpl in Hlen.
    cbn [GoPath.checkRest].
    pose proof (scanChunk_shorter c t) as Hs.
    destruct (GoPath.scanChunk (String c t)) as [[star chunk] rest]. cbn [snd] in Hs.
    destruct (GoPath.matchChunk chunk ""); [|reflexivity].
    apply IH. lia.
Qed.

Lemma matchLoop_fuel (fuel : nat) :
  forall p name, String.length p <= fuel ->
                 GoPath.matchLoop (S fuel) p name = GoPath.matchLoop fuel p name.
Proof.
  induction fuel as [|fuel IH]; intros p name Hlen.
  - destruct p; [reflexivity|simpl in Hlen; lia].
  - destruct p as [|c t]; [reflexivity|]. simpl in Hlen.
    cbn [GoPath.matchLoop]. unfold GoPath.matchRound.
    pose proof (scanChunk_shorter c t) as Hs.
    destruct (GoPath.scanChunk (String c t)) as [[star chunk] rest]. cbn [snd] in Hs.
    assert (Hrest : String.length rest <= fuel) by lia.
    destruct (star && (chunk =? "")); [reflexivity|].
    rewrite (checkRest_fuel fuel rest Hrest).
    destruct (if star then GoPath.skipLoop chunk name (String.length rest =? 0)%nat
              else GoPath.NoMatch) as [t'| |];
      destruct (GoPath.matchChunk chunk name) as [[t'' [|]]|];
      try destruct ((String.length t'' =? 0)%nat || negb (String.length rest =? 0)%nat);
      try reflexivity; now apply IH.
Qed.

Lemma matchChunk_fuel (chunk s : string) (fuel : nat) :
  String.length chunk <= fuel ->
  GoPath.chunkLoop fuel chunk s false = GoPath.matchChunk chunk s.
Proof.
  unfold GoPath.matchChunk. induction 1 as [|fuel Hle IH]; [reflexivity|].
  now rewrite chunkLoop_fuel.
Qed.

(** With any fuel that is at least the pattern length the loop of [Match]
    gives the result of [Match]: a [None] is a bad pattern, never a lack of
    fuel. *)
Lemma Match_fuel (pattern name : string) (fuel : nat) :
  String.length pattern <= fuel ->
  GoPath.matchLoop fuel pattern name = GoPath.Match pattern name.
Proof.
  unfold GoPath.Match. induction 1 as [|fuel Hle IH]; [reflexivity|].
  now rewrite matchLoop_fuel.
Qed.

(** [?] and a character class take a rune of the name, not a byte, and a
    class bound that is not valid UTF-8 is a bad pattern (the first three
    rows are rows of the table of Go's [path/match_test.go]). *)
Lemma Match_decodes_runes :
  GoPath.Match "a?b" "a☺b" = Some true
  /\ GoPath.Match "a???b" "a☺b" = Some false
  /\ GoPath.Match "[a-ζ]*" "α" = Some true
  /\ GoPath.Match "??" "é" = Some false
  /\ GoPath.Match (String "[" (String (ascii_of_nat 255) "]")) "" = None
  /\ snd (newPattern (String "[" (String (ascii_of_nat 255) "]")) [])
     = Some ErrBadPattern.
Proof. repeat split; reflexivity. Qed.

(** ** A term without metacharacters matches exactly itself *)

Lemma hasMeta_cons (c : ascii) (t : string) :
  hasMeta (String c t) = false ->
  (c =? "*")%char = false /\ (c =? "?")%char = false /\ (c =? "[")%char = false
  /\ (c =? "\")%char = false /\ hasMeta t = false.
Proof.
  unfold hasMeta. simpl. intros H.
  repeat (apply orb_false_elim in H; destruct H as [H ?]).
  repeat match goal with
         | H : (_ || _) = false |- _ =>
             apply orb_false_elim in H; destruct H
         end.
  rewrite (Ascii.eqb_sym c "*"), (Ascii.eqb_sym c "?"),
    (Ascii.eqb_sym c "["), (Ascii.eqb_sym c "\").
  repeat split; try assumption.
  repeat (apply orb_false_intro); assumption.
Qed.

Lemma scan_noMeta (s : string) :
  hasMeta s = false -> forall inrange, GoPath.scan s inrange = (s, "").
Proof.
  induction s as [|c t IH]; intros H inrange; [reflexivity|].
  apply hasMeta_cons in H as (Hs & _ & Hb & He & Ht).
  simpl. rewrite He, Hb, Hs.
  destruct (c =? "]")%char; rewrite (IH Ht); reflexivity.
Qed.

Lemma chunkLoop_noMeta (s : string) :
  hasMeta s = false ->
  forall fuel, String.length s <= fuel ->
               GoPath.chunkLoop fuel s s false = Some ("", true).
Proof.
  induction s as [|c t IH]; intros H fuel Hfuel.
  - destruct fuel; reflexivity.
  - apply hasMeta_cons in H as (_ & Hq & Hb & He & Ht).
    destruct fuel as [|fuel]; [simpl in Hfuel; lia|].
    cbn [GoPath.chunkLoop]. unfold GoPath.chunkRound.
    rewrite Hb, Hq, He. cbn [String.length Nat.eqb orb byte0 from1].
    rewrite Ascii.eqb_refl. cbn [negb].
    apply IH; [exact Ht|simpl in Hfuel; lia].
Qed.

Lemma match_noMeta (s : string) : hasMeta s = false -> match_ s s = true.
Proof.
  intros H. unfold match_, GoPath.Match.
  destruct s as [|c t]; [reflexivity|].
  pose proof (scan_noMeta _ H false) as Hscan.
  pose proof (chunkLoop_noMeta _ H _ (le_n _)) as Hchunk.
  pose proof (hasMeta_cons _ _ H) as (Hs & _).
  cbn [String.length GoPath.matchLoop].
  unfold GoPath.matchRound, GoPath.scanChunk. cbn [GoPath.dropStars].
  rewrite Hs, Hscan.
  unfold GoPath.matchChunk. rewrite Hchunk. simpl.
  destruct (String.length t); reflexivity.
Qed.

Lemma noMeta_not_levels (s : string) : hasMeta s = false -> (s =? "**") = false.
Proof.
  intros H. destruct (String.eqb_spec s "**") as [->|]; [discriminate|reflexivity].
Qed.

(** ** The flag of [matchDir] and [matchFile] *)

Lemma matchDir_flag (p : pattern) (name : string) (acc : list pattern) b acc' :
  matchDir p name acc = Some (b, acc') -> b = matchFile p name.
Proof.
  destruct p as [|step rest]; [discriminate|].
  unfold matchDir, matchFile.
  destruct rest as [|r rest]; simpl;
    destruct (step =? "**"); simpl; try destruct (match_ step name); simpl;
    intros [= <- _]; reflexivity.
Qed.

Lemma matchDirAll_unexcluded (ps : list pattern) (name : string) :
  forall acc hit h next,
    matchFileAny ps name = false ->
    matchDirAll ps name acc hit = Some (h, next) ->
    matchDirFirst ps name acc = Some (false, next).
Proof.
  induction ps as [|p rest IH]; simpl; intros acc hit h next Hf H.
  - now injection H as _ <-.
  - apply orb_false_elim in Hf as [Hp Hrest].
    destruct (matchDir p name acc) as [[b acc']|] eqn:Hd; [|discriminate].
    apply matchDir_flag in Hd. rewrite Hp in Hd. subst b.
    now apply (IH _ _ _ _ Hrest H).
Qed.

Lemma literal_inv (ps : list pattern) (name : string) (next : list pattern) :
  literal ps = Some (name, next, true) ->
  exists rest,
    ps = [name :: rest] /\ hasMeta name = false
    /\ next = match rest with [] => [] | _ => [rest] end.
Proof.
  unfold literal.
  destruct ps as [|p [|q ps]]; try discriminate.
  destruct p as [|p0 rest]; [discriminate|].
  destruct (hasMeta p0) eqn:Hm; [discriminate|].
  intros [= <- <-]. exists rest. repeat split; [exact Hm|].
  destruct rest; reflexivity.
Qed.

Lemma nonEmpty_len {A} (l : list A) : negb (len l =? 0)%nat = true -> l <> [].
Proof. destruct l; [discriminate|intros _; discriminate]. Qed.

(** ** Facts about the walker monad *)

Lemma orPanic_Some {A B} (a : A) (f : A -> M B) (st : state) :
  bind (orPanic (Some a)) f st = f a st.
Proof. reflexivity. Qed.

Lemma noPanic_bind {A B} (m : M A) (f : A -> M B) (st : state) :
  noPanic (m st) ->
  (forall a st', m st = Done a st' -> noPanic (f a st')) ->
  noPanic (bind m f st).
Proof.
  unfold bind. intros Hm Hf.
  destruct (m st) as [a st'| |]; simpl in *; auto.
Qed.

Lemma noPanic_forEach {A} (body : A -> M bool) (l : list A) :
  (forall x st, noPanic (body x st)) ->
  forall st, noPanic (forEach body l st).
Proof.
  intros Hbody. induction l as [|x rest IH]; simpl; intros st.
  - exact I.
  - apply noPanic_bind; [apply Hbody|].
    intros [|] st' _; [apply IH|exact I].
Qed.

Lemma readsWithin_quiet {A} (L : string -> Prop) (m : M A) :
  (forall st, trace (stateOf (m st)) = trace st) -> readsWithin L m.
Proof. intros H st d Hin. rewrite H in Hin. now left. Qed.

Lemma readsWithin_ret {A} (L : string -> Prop) (a : A) : readsWithin L (ret a).
Proof. now apply readsWithin_quiet. Qed.

Lemma readsWithin_mono {A} (L L' : string -> Prop) (m : M A) :
  (forall d, L d -> L' d) -> readsWithin L m -> readsWithin L' m.
Proof. intros HL Hm st d Hin. destruct (Hm st d Hin); auto. Qed.

Lemma readsWithin_bind {A B} (L : string -> Prop) (m : M A) (f : A -> M B) :
  readsWithin L m -> (forall a, readsWithin L (f a)) -> readsWithin L (bind m f).
Proof.
  intros Hm Hf st d. unfold bind. specialize (Hm st d).
  destruct (m st) as [a st'| |]; simpl in *; auto.
  intros Hin. destruct (Hf a st' d Hin); auto.
Qed.

Lemma readsWithin_orPanic {A B} (L : string -> Prop) (o : option A) (f : A -> M B) :
  (forall a, o = Some a -> readsWithin L (f a)) ->
  readsWithin L (bind (orPanic o) f).
Proof.
  intros Hf st d. destruct o as [a|]; [apply (Hf a eq_refl)|now left].
Qed.

Lemma readsWithin_forEach {A} (L : string -> Prop) (body : A -> M bool) (l : list A) :
  (forall x, In x l -> readsWithin L (body x)) -> readsWithin L (forEach body l).
Proof.
  induction l as [|x rest IH]; simpl; intros Hbody.
  - apply readsWithin_ret.
  - apply readsWithin_bind; [apply Hbody; now left|].
    intros [|]; [apply IH; auto|apply readsWithin_ret].
Qed.

Lemma matchDir_termsIn (P : string -> Prop) (p : pattern) (name : string)
    (acc : list pattern) b acc' :
  Forall P p -> termsIn P acc ->
  matchDir p name acc = Some (b, acc') -> termsIn P acc'.
Proof.
  intros Hp Hacc. destruct p as [|step rest]; [discriminate|].
  assert (Hrest : Forall P rest) by now inversion Hp.
  unfold matchDir, termsIn.
  destruct (step =? "**"); [|destruct (negb (match_ step name))];
    destruct (len rest =? 0)%nat; intros [= _ <-];
    repeat (apply Forall_app; split); auto; now repeat constructor.
Qed.

Lemma matchDirAll_termsIn (P : string -> Prop) (ps : list pattern) (name : string) :
  forall acc hit h next,
    termsIn P ps -> termsIn P acc ->
    matchDirAll ps name acc hit = Some (h, next) -> termsIn P next.
Proof.
  induction ps as [|p rest IH]; simpl; intros acc hit h next Hps Hacc H.
  - now injection H as _ <-.
  - inversion Hps as [|? ? Hp Hrest]; subst.
    destruct (matchDir p name acc) as [[b acc']|] eqn:Hd; [|discriminate].
    apply (IH _ _ _ _ Hrest (matchDir_termsIn P _ _ _ _ _ Hp Hacc Hd) H).
Qed.

Lemma licensed_below (P : string -> Prop) dir include exclude name hit
    nextInclude nextExclude d :
  P name ->
  matchDirAll (activeInclude include) name [] false = Some (hit, nextInclude) ->
  nextInclude <> [] ->
  matchDirFirst exclude name [] = Some (false, nextExclude) ->
  licensed P (GoPath.Join dir name) nextInclude nextExclude d ->
  licensed P dir include exclude d.
Proof.
  intros Hname Hi Hne He Hd.
  apply (licensed_enter P dir include exclude name nextInclude nextExclude d);
    [exact Hname| |exact Hd].
  unfold descend. rewrite He, Hi.
  destruct nextInclude; [now elim Hne|reflexivity].
Qed.

Lemma licensed_levels (P : string -> Prop) (dir name d : string)
    (include : list pattern) :
  P name -> always include = true ->
  licensed P (GoPath.Join dir name) [["**"]] [] d ->
  licensed P dir include [] d.
Proof.
  intros Hname Ha H.
  apply (licensed_below P dir include [] name true [["**"]] [] d); auto.
  - unfold activeInclude. rewrite Ha. reflexivity.
  - discriminate.
Qed.

(** ** The walker over a fixed file system and consumer *)

Section Walker.

Variable fsys : FS.
Variable yield : yieldFn.

Lemma noPanic_yieldItem (p : string) (e : option error) (st : state) :
  noPanic (yieldItem yield p e st).
Proof. exact I. Qed.

Lemma noPanic_yieldSelf (dir : string) (a b : bool) (st : state) :
  noPanic (yieldSelf yield dir a b st).
Proof. unfold yieldSelf. destruct (a && b); exact I. Qed.

Lemma readsWithin_yieldItem (L : string -> Prop) (p : string) (e : option error) :
  readsWithin L (yieldItem yield p e).
Proof. now apply readsWithin_quiet. Qed.

Lemma readsWithin_yieldSelf (L : string -> Prop) (dir : string) (a b : bool) :
  readsWithin L (yieldSelf yield dir a b).
Proof. apply readsWithin_quiet. intros st. unfold yieldSelf. now destruct (a && b). Qed.

Lemma readsWithin_fsReadDir {B} (L : string -> Prop) (dir : string)
    (f : result (list DirEntry) -> M B) :
  L dir -> readsWithin L (f (ReadDir fsys dir)) ->
  readsWithin L (bind (fsReadDir fsys dir) f).
Proof.
  intros Hdir Hf st d. unfold bind, fsReadDir. intros Hin.
  destruct (Hf _ d Hin) as [H|H]; [|now right].
  simpl in H. apply in_app_iff in H as [H|[[= <-]|[]]]; auto.
Qed.

Lemma readsWithin_fsStat {B} (L : string -> Prop) (name : string)
    (f : result bool -> M B) :
  (forall r, readsWithin L (f r)) ->
  readsWithin L (bind (fsStat fsys name) f).
Proof.
  intros Hf. apply readsWithin_bind; [|exact Hf].
  intros st d. simpl. rewrite in_app_iff. intros [H|[[=]|[]]]; auto.
Qed.

Create HintDb walker.
#[local] Hint Resolve noPanic_yieldItem noPanic_yieldSelf readsWithin_ret
  readsWithin_yieldItem readsWithin_yieldSelf : walker.

(** *** The walker never indexes an empty pattern *)

Lemma allStep_noPanic (fuel : nat) :
  forall dir yieldDir includeDirs st,
    noPanic (allStep fuel fsys yield dir yieldDir includeDirs st).
Proof.
  induction fuel as [|fuel IH]; intros dir yieldDir includeDirs st; simpl.
  - exact I.
  - apply noPanic_bind; [exact I|].
    intros [infos|err] st' _; [|exact I].
    apply noPanic_bind; [auto with walker|].
    intros ok st'' _. destruct (negb ok); [exact I|].
    apply noPanic_forEach. intros i st0.
    destruct (IsDir i); [apply IH|exact I].
Qed.

Lemma entryStep_noPanic (rec : stepFn) (dir : string) (includeDirs : bool)
    (include exclude : list pattern) (i : DirEntry) :
  safeStep rec -> Forall nonEmpty include -> Forall nonEmpty exclude ->
  forall st, noPanic (entryStep rec yield dir includeDirs include exclude i st).
Proof.
  intros Hrec Hi He st. unfold entryStep.
  assert (Hfin : forall (b : bool) (st0 : state),
             noPanic ((if b then yieldItem yield (GoPath.Join dir (Name i)) None
                       else ret true) st0)).
  { intros [|] st0; exact I. }
  destruct (negb (IsDir i)).
  - destruct (matchFileAny exclude (Name i)); [exact I|apply Hfin].
  - destruct (matchDirFirst_nonEmpty exclude (Name i) [] He (Forall_nil _))
      as (excluded & nextExclude & -> & Hne).
    rewrite orPanic_Some. destruct excluded; [exact I|].
    destruct (matchDirAll_nonEmpty include (Name i) [] false Hi (Forall_nil _))
      as (hit & nextInclude & -> & Hni).
    rewrite orPanic_Some.
    destruct (negb (len nextInclude =? 0)%nat && negb (always nextExclude)).
    + apply noPanic_bind; [now apply Hrec|].
      intros ok st' _. destruct (negb ok); [exact I|apply (Hfin false)].
    + apply Hfin.
Qed.

Lemma listStep_noPanic (rec : stepFn) (dir : string) (yieldDir includeDirs : bool)
    (include exclude : list pattern) :
  safeStep rec -> Forall nonEmpty include -> Forall nonEmpty exclude ->
  forall st, noPanic (listStep rec fsys yield dir yieldDir includeDirs include exclude st).
Proof.
  intros Hrec Hi He st. unfold listStep.
  apply noPanic_bind; [exact I|].
  intros [infos|err] st' _; [|exact I].
  apply noPanic_bind; [auto with walker|].
  intros ok st'' _. destruct (negb ok); [exact I|].
  apply noPanic_forEach. intros i st0. now apply entryStep_noPanic.
Qed.

Lemma literalStep_noPanic (rec : stepFn) (dir : string) (includeDirs : bool)
    (exclude : list pattern) (name : string) (nextInclude : list pattern) :
  safeStep rec -> Forall nonEmpty nextInclude -> Forall nonEmpty exclude ->
  forall st, noPanic (literalStep rec fsys yield dir includeDirs exclude name nextInclude st).
Proof.
  intros Hrec Hi He st. unfold literalStep.
  destruct (matchFileAny exclude name); [exact I|].
  apply noPanic_bind; [exact I|].
  intros [isDir|err] st' _.
  - destruct isDir; [|exact I].
    destruct (matchDirAll_nonEmpty exclude name [] false He (Forall_nil _))
      as (hit & nextExclude & -> & Hne).
    rewrite orPanic_Some. cbn [snd].
    destruct (negb (len nextInclude =? 0)%nat && negb (always nextExclude)).
    + now apply Hrec.
    + destruct (negb includeDirs); exact I.
  - destruct (errors_Is_ErrNotExist err); exact I.
Qed.

Lemma matchStep_noPanic (fuel : nat) : safeStep (matchStep fuel fsys yield).
Proof.
  induction fuel as [|fuel IH];
    intros dir yieldDir includeDirs include exclude st Hi He; simpl.
  - exact I.
  - destruct (always include).
    + destruct (len exclude =? 0)%nat.
      * apply allStep_noPanic.
      * apply listStep_noPanic; auto. repeat constructor. discriminate.
    + destruct (literal_nonEmpty include Hi) as (name & next & ok & -> & Hnext).
      rewrite orPanic_Some. destruct ok.
      * now apply literalStep_noPanic.
      * now apply listStep_noPanic.
Qed.

(** *** The walker lists licensed directories only

    [P] holds of [**], of the names that the file system lists, and (by
    assumption on the include sets) of the pattern terms. *)

Section Licensed.

Variable P : string -> Prop.
Hypothesis P_levels : P "**".
Hypothesis P_listed :
  forall dir infos i, ReadDir fsys dir = Ok infos -> In i infos -> P (Name i).

Lemma termsIn_levels : termsIn P [["**"]].
Proof. repeat constructor. exact P_levels. Qed.

Lemma allStep_reads (fuel : nat) :
  forall dir yieldDir includeDirs include,
    always include = true ->
    readsWithin (licensed P dir include [])
                (allStep fuel fsys yield dir yieldDir includeDirs).
Proof.
  induction fuel as [|fuel IH]; intros dir yieldDir includeDirs include Ha; simpl.
  - now apply readsWithin_quiet.
  - apply readsWithin_fsReadDir; [constructor|].
    destruct (ReadDir fsys dir) as [infos|err] eqn:Hread; [|auto with walker].
    apply readsWithin_bind; [auto with walker|].
    intros ok. destruct (negb ok); [auto with walker|].
    apply readsWithin_forEach. intros i Hi.
    destruct (IsDir i); [|auto with walker].
    apply readsWithin_mono with (L := licensed P (GoPath.Join dir (Name i)) [["**"]] []).
    + intros d. apply licensed_levels; [|exact Ha]. exact (P_listed _ _ _ Hread Hi).
    + now apply IH.
Qed.

Lemma entryStep_reads (rec : stepFn) (dir : string) (includeDirs : bool)
    (include0 include exclude : list pattern) (i : DirEntry) :
  licensedStep P rec -> activeInclude include0 = include -> termsIn P include ->
  P (Name i) ->
  readsWithin (licensed P dir include0 exclude)
              (entryStep rec yield dir includeDirs include exclude i).
Proof.
  intros Hrec Hact Hterms Hname. unfold entryStep.
  assert (Hfin : forall b : bool,
             readsWithin (licensed P dir include0 exclude)
               (if b then yieldItem yield (GoPath.Join dir (Name i)) None
                else ret true)).
  { intros [|]; auto with walker. }
  destruct (negb (IsDir i)).
  - destruct (matchFileAny exclude (Name i)); auto with walker.
  - apply readsWithin_orPanic. intros [excluded nextExclude] Hex.
    destruct excluded; [auto with walker|].
    apply readsWithin_orPanic. intros [hit nextInclude] Hin.
    destruct (negb (len nextInclude =? 0)%nat && negb (always nextExclude)) eqn:Hgo.
    + apply andb_prop in Hgo as [Hlen _].
      apply readsWithin_bind.
      * eapply readsWithin_mono;
          [|apply Hrec;
            exact (matchDirAll_termsIn P _ _ _ _ _ _ Hterms (Forall_nil _) Hin)].
        intros d Hd.
        apply (licensed_below P dir include0 exclude (Name i) hit nextInclude
                 nextExclude d); auto.
        -- now rewrite Hact.
        -- now apply nonEmpty_len.
      * intros ok. destruct (negb ok); [auto with walker|apply (Hfin false)].
    + apply Hfin.
Qed.

Lemma listStep_reads (rec : stepFn) (dir : string) (yieldDir includeDirs : bool)
    (include0 include exclude : list pattern) :
  licensedStep P rec -> activeInclude include0 = include -> termsIn P include ->
  readsWithin (licensed P dir include0 exclude)
              (listStep rec fsys yield dir yieldDir includeDirs include exclude).
Proof.
  intros Hrec Hact Hterms. unfold listStep.
  apply readsWithin_fsReadDir; [constructor|].
  destruct (ReadDir fsys dir) as [infos|err] eqn:Hread; [|auto with walker].
  apply readsWithin_bind; [auto with walker|].
  intros ok. destruct (negb ok); [auto with walker|].
  apply readsWithin_forEach. intros i Hi.
  apply entryStep_reads; auto. exact (P_listed _ _ _ Hread Hi).
Qed.

Lemma literalStep_reads (rec : stepFn) (dir : string) (includeDirs : bool)
    (include exclude : list pattern) (name : string) (nextInclude : list pattern) :
  licensedStep P rec -> always include = false -> termsIn P include ->
  literal include = Some (name, nextInclude, true) ->
  readsWithin (licensed P dir include exclude)
              (literalStep rec fsys yield dir includeDirs exclude name nextInclude).
Proof.
  intros Hrec Ha Hterms Hlit. unfold literalStep.
  destruct (matchFileAny exclude name) eqn:Hfile; [auto with walker|].
  apply readsWithin_fsStat. intros [isDir|err].
  - destruct isDir; [|auto with walker].
    apply readsWithin_orPanic. intros [hit nextExclude] Hex. cbn [snd].
    destruct (negb (len nextInclude =? 0)%nat && negb (always nextExclude)) eqn:Hgo.
    + apply andb_prop in Hgo as [Hlen _].
      apply literal_inv in Hlit as (rest & -> & Hmeta & ->).
      assert (Hrest : rest <> []) by (destruct rest; [discriminate Hlen|discriminate]).
      inversion Hterms as [|? ? Hp _]; subst.
      inversion Hp as [|? ? Hname Htail]; subst.
      destruct rest as [|r rest]; [now elim Hrest|].
      eapply readsWithin_mono; [|apply Hrec; constructor; [exact Htail|constructor]].
      intros d Hd.
      apply (licensed_below P dir [name :: r :: rest] exclude name false
               [r :: rest] nextExclude d); auto.
      * unfold activeInclude. rewrite Ha. simpl.
        now rewrite (noMeta_not_levels _ Hmeta), (match_noMeta _ Hmeta).
      * discriminate.
      * now apply (matchDirAll_unexcluded exclude name [] false hit).
    + destruct (negb includeDirs); auto with walker.
  - destruct (errors_Is_ErrNotExist err); auto with walker.
Qed.

Lemma matchStep_reads (fuel : nat) : licensedStep P (matchStep fuel fsys yield).
Proof.
  induction fuel as [|fuel IH];
    intros dir yieldDir includeDirs include exclude Hterms; simpl.
  - now apply readsWithin_quiet.
  - destruct (always include) eqn:Ha.
    + destruct exclude as [|e exclude]; simpl.
      * now apply allStep_reads.
      * apply listStep_reads; [exact IH| |exact termsIn_levels].
        unfold activeInclude. now rewrite Ha.
    + apply readsWithin_orPanic. intros [[name nextInclude] ok] Hlit.
      destruct ok.
      * now apply literalStep_reads.
      * apply listStep_reads; [exact IH| |exact Hterms].
        unfold activeInclude. now rewrite Ha.
Qed.

End Licensed.

End Walker.

(** ** The pattern compiler *)

(** C7. A well-formed pattern string whose first non-empty segment is [**]
    and which has a further segment makes [newPattern] append exactly two
    patterns, the full term list and the list without its leading [**];
    every other well-formed pattern string makes it append exactly one, the
    term list, or the single empty term when there is no segment. *)
Theorem C7_newPattern_appends (p : string) (patterns : list pattern) :
  malformed p = false ->
  (forall t ts, segments p = "**" :: t :: ts ->
     newPattern p patterns = (patterns ++ [segments p; t :: ts], None))
  /\ ((forall t ts, segments p <> "**" :: t :: ts) ->
      newPattern p patterns =
      (patterns ++ [match segments p with [] => [""] | steps => steps end], None)).
Proof.
  intros Hvalid. rewrite (newPattern_valid p patterns Hvalid). cbv zeta. split.
  - intros t ts ->. simpl. now rewrite <- app_assoc.
  - intros Hother.
    destruct (segments p) as [|s0 [|s1 ss]] eqn:Hs; simpl.
    + reflexivity.
    + now rewrite andb_false_r.
    + rewrite andb_true_r.
      destruct (String.eqb_spec s0 "**") as [->|_]; [|reflexivity].
      now elim (Hother s1 ss).
Qed.

Lemma C7_newPattern_appends_witness :
  newPattern "**/x" [["y"]] = ([["y"]; ["**"; "x"]; ["x"]], None)
  /\ newPattern "a//b/" [["y"]] = ([["y"]; ["a"; "b"]], None).
Proof.
  split.
  - apply (proj1 (C7_newPattern_appends "**/x" [["y"]] eq_refl) "x" []).
    reflexivity.
  - apply (proj2 (C7_newPattern_appends "a//b/" [["y"]] eq_refl)).
    intros t ts. vm_compute. discriminate.
Defined.

(** ** The empty path *)

(** C9. On a path that is empty or made of slashes only, [MatchPath] of a
    glob built with the general strategy answers false, and [MatchPath] of
    the match-all glob, which [New] returns for includes that contain [**]
    and no excludes, answers true. *)
Theorem C9_empty_path_strategies_disagree (p : string) :
  onlySlashes p = true ->
  (forall includes excludes g,
     New includes excludes = (Some (matchGlobOf g), None) ->
     Glob_MatchPath (matchGlobOf g) p = Some false)
  /\ (forall includes,
        In "**" includes ->
        New includes [] = (Some allGlob, None)
        /\ Glob_MatchPath allGlob p = Some true).
Proof.
  intros Hp. split.
  - intros includes excludes g _. simpl. unfold MatchPath.
    now rewrite (segments_onlySlashes p Hp).
  - intros includes Hin. split; [|reflexivity].
    unfold New. simpl.
    replace (slices_Contains includes "**") with true; [reflexivity|].
    symmetry. apply existsb_exists. exists "**". now split.
Qed.

Lemma C9_empty_path_strategies_disagree_witness :
  Glob_MatchPath (matchGlobOf {| include := [["a"]]; exclude := [["b"]] |}) "//"
  = Some false
  /\ Glob_MatchPath allGlob "//" = Some true.
Proof.
  destruct (C9_empty_path_strategies_disagree "//" eq_refl) as [Hgen Hall].
  split.
  - apply (Hgen ["a"] ["b"]). reflexivity.
  - apply (Hall ["**"]). simpl. now left.
Defined.

(** ** Head-term accesses stay in bounds *)

(** C10. Every pattern that compilation produces is non-empty, so the sets
    of a compiled glob hold non-empty patterns only; advancing a non-empty
    pattern over a name always succeeds and adds only non-empty patterns to
    the next level's set; hence neither [MatchPath] nor a walk by [Match]
    ever indexes an empty pattern, whatever the path, the file system, the
    consumer and the depth reached. *)
Theorem C10_head_term_in_bounds (includes excludes : list string) (g : matchGlob) :
  New includes excludes = (Some (matchGlobOf g), None) ->
  (forall ps, Forall nonEmpty (fst (newPatterns ps)))
  /\ (Forall nonEmpty (include g) /\ Forall nonEmpty (exclude g))
  /\ (forall p name next,
        nonEmpty p -> Forall nonEmpty next ->
        exists b next', matchDir p name next = Some (b, next')
                        /\ Forall nonEmpty next')
  /\ (forall p, exists b, Glob_MatchPath (matchGlobOf g) p = Some b)
  /\ (forall fuel fsys yield dir includeDirs,
        noPanic (Glob_Match fuel (matchGlobOf g) fsys yield dir includeDirs)).
Proof.
  intros Hnew. destruct (New_nonEmpty _ _ _ Hnew) as [Hi He].
  split; [exact newPatterns_nonEmpty|].
  split; [now split|]. split; [|split].
  - intros p name next. apply matchDir_nonEmpty.
  - intros p. simpl. unfold MatchPath.
    destruct (len (segments p) =? 0)%nat; [now eexists|].
    now apply matchNames_total.
  - intros fuel fsys yield dir includeDirs. simpl.
    now apply matchStep_noPanic.
Qed.

Lemma C10_head_term_in_bounds_witness :
  (exists b, Glob_MatchPath
               (matchGlobOf {| include := [["**"; "x"]; ["x"]]; exclude := [["b"]] |})
               "a/x" = Some b)
  /\ noPanic (Glob_Match 3
                (matchGlobOf {| include := [["**"; "x"]; ["x"]]; exclude := [["b"]] |})
                (treeFS (directory [("a", directory [("x", file)])])) collect "." true).
Proof.
  destruct (C10_head_term_in_bounds ["**/x"] ["b"] _ eq_refl)
    as (_ & _ & _ & Hpath & Hwalk).
  split; [apply Hpath|apply Hwalk].
Defined.

(** ** The probe of the literal fast path *)

(** C8. In the literal fast path, reached when the include set is a single
    pattern whose first term has no metacharacter and no exclude pattern
    matches that term as a file name, a failure of the [Stat] probe that is
    a does-not-exist error ends the step with nothing handed to the consumer
    and with the walk going on; any other failure is handed to the consumer
    as the item made of the directory and the error, which is the item a
    failure of [ReadDir] on that directory produces in the listing path. *)
Theorem C8_literal_probe_failure (fuel : nat) (fsys : FS) (yield : yieldFn)
    (dir : string) (yieldDir includeDirs : bool) (include exclude : list pattern)
    (name : string) (nextInclude : list pattern) (err : error) (st : state) :
  always include = false ->
  literal include = Some (name, nextInclude, true) ->
  matchFileAny exclude name = false ->
  Stat fsys (GoPath.Join dir name) = Err err ->
  let probed := matchStep (S fuel) fsys yield dir yieldDir includeDirs include exclude st in
  if errors_Is_ErrNotExist err
  then probed = Done true {| emitted := emitted st;
                             trace := trace st ++ [OpStat (GoPath.Join dir name)] |}
  else probed = Done (yield (emitted st) (dir, Some err))
                     {| emitted := emitted st ++ [(dir, Some err)];
                        trace := trace st ++ [OpStat (GoPath.Join dir name)] |}
       /\ (forall rec fsys' include',
             ReadDir fsys' dir = Err err ->
             listStep rec fsys' yield dir yieldDir includeDirs include' exclude st
             = Done (yield (emitted st) (dir, Some err))
                    {| emitted := emitted st ++ [(dir, Some err)];
                       trace := trace st ++ [OpReadDir dir] |}).
Proof.
  intros Halways Hlit Hfile Hstat. cbv zeta.
  assert (Hprobed :
            matchStep (S fuel) fsys yield dir yieldDir includeDirs include exclude st =
            if errors_Is_ErrNotExist err
            then Done true {| emitted := emitted st;
                              trace := trace st ++ [OpStat (GoPath.Join dir name)] |}
            else Done (yield (emitted st) (dir, Some err))
                      {| emitted := emitted st ++ [(dir, Some err)];
                         trace := trace st ++ [OpStat (GoPath.Join dir name)] |}).
  { simpl. rewrite Halways, Hlit, orPanic_Some.
    unfold literalStep. rewrite Hfile.
    unfold bind, fsStat. rewrite Hstat.
    destruct (errors_Is_ErrNotExist err); reflexivity. }
  rewrite Hprobed.
  destruct (errors_Is_ErrNotExist err); [reflexivity|].
  split; [reflexivity|].
  intros rec fsys' include' Hread.
  unfold listStep, bind, fsReadDir. now rewrite Hread.
Qed.

Lemma C8_literal_probe_failure_witness :
  matchStep 1 (treeFS (directory [])) collect "." false true [["lib"; "*.go"]] [] start
  = Done true {| emitted := []; trace := [OpStat "lib"] |}
  /\ matchStep 1 deniedFS collect "." false true [["lib"; "*.go"]] [] start
     = Done true {| emitted := [(".", Some ErrPermission)]; trace := [OpStat "lib"] |}.
Proof.
  split.
  - exact (C8_literal_probe_failure 0 (treeFS (directory [])) collect "." false true
             [["lib"; "*.go"]] [] "lib" [["*.go"]]
             (PathError "stat" "lib" ErrNotExist) start
             eq_refl eq_refl eq_refl eq_refl).
  - exact (proj1 (C8_literal_probe_failure 0 deniedFS collect "." false true
                    [["lib"; "*.go"]] [] "lib" [["*.go"]] ErrPermission start
                    eq_refl eq_refl eq_refl eq_refl)).
Defined.

(** ** Syntax errors *)

Lemma newPatternsLoop_errs (ps : list string) :
  forall patterns errs,
    snd (newPatternsLoop ps patterns errs)
    = errs ++ repeat (Some ErrBadPattern) (countBad ps).
Proof.
  unfold countBad.
  induction ps as [|i rest IH]; simpl; intros patterns errs.
  - now rewrite app_nil_r.
  - destruct (malformed i) eqn:Hm.
    + rewrite newPattern_malformed by assumption.
      rewrite IH. simpl. now rewrite <- app_assoc.
    + rewrite newPattern_valid by assumption. cbv zeta. apply IH.
Qed.

Lemma nonNil_repeat (e : error) (n : nat) :
  nonNil (repeat (Some e) n) = repeat e n.
Proof. induction n; simpl; congruence. Qed.

Lemma newPatterns_err (ps : list string) :
  snd (newPatterns ps)
  = match countBad ps with
    | 0 => None
    | n => Some (joinError (repeat ErrBadPattern n))
    end.
Proof.
  unfold newPatterns.
  pose proof (newPatternsLoop_errs ps [] []) as H.
  destruct (newPatternsLoop ps [] []) as [patterns errs]. simpl in *. subst errs.
  unfold errors_Join. rewrite nonNil_repeat.
  destruct (countBad ps); reflexivity.
Qed.

Lemma leaves_repeat (n : nat) :
  flat_map leaves (repeat ErrBadPattern n) = repeat ErrBadPattern n.
Proof. induction n; simpl; congruence. Qed.

Lemma countBad_app (l1 l2 : list string) :
  countBad (l1 ++ l2) = countBad l1 + countBad l2.
Proof. unfold countBad, len. now rewrite filter_app, length_app. Qed.

Lemma countBad_positive (ps : list string) :
  countBad ps <> 0 <-> exists p, In p ps /\ malformed p = true.
Proof.
  unfold countBad, len. split.
  - destruct (filter malformed ps) as [|p l] eqn:Hf; [now intros []|].
    intros _. exists p. apply filter_In. rewrite Hf. now left.
  - intros (p & Hp). apply filter_In in Hp.
    destruct (filter malformed ps); [now elim Hp|discriminate].
Qed.

(** The error of [New] outside its two guards. *)
Lemma New_err (includes excludes : list string) :
  shortCircuit includes excludes = false ->
  New includes excludes
  = match countBad (includes ++ excludes) with
    | 0 => (Some (matchGlobOf {| include := fst (newPatterns includes);
                                 exclude := fst (newPatterns excludes) |}), None)
    | _ => (None, Some (joinError
                          (match countBad includes with
                           | 0 => []
                           | n => [joinError (repeat ErrBadPattern n)]
                           end
                           ++
                           match countBad excludes with
                           | 0 => []
                           | n => [joinError (repeat ErrBadPattern n)]
                           end)))
    end.
Proof.
  unfold shortCircuit, New. intros H.
  apply orb_false_elim in H as [-> ->].
  pose proof (newPatterns_err includes) as Hi.
  pose proof (newPatterns_err excludes) as He.
  rewrite countBad_app.
  destruct (newPatterns includes) as [ip ie], (newPatterns excludes) as [ep ee].
  simpl in *. subst ie ee.
  destruct (countBad includes), (countBad excludes); reflexivity.
Qed.

(** What [New] does about errors.  It returns an error exactly when neither
    of its two guards applies (excludes empty and [**] among the includes;
    includes empty or [**] among the excludes) and [path.Match] rejects some
    string of the two lists, taken as a whole (line 36); the error then
    comes with no glob and joins one [ErrBadPattern] for every such string
    of both lists. *)
Lemma New_error_outside_guards (includes excludes : list string) :
  (snd (New includes excludes) <> None <->
   shortCircuit includes excludes = false
   /\ exists p, In p (includes ++ excludes) /\ malformed p = true)
  /\ match snd (New includes excludes) with
     | Some err =>
         fst (New includes excludes) = None
         /\ leaves err = repeat ErrBadPattern (countBad (includes ++ excludes))
     | None => fst (New includes excludes) <> None
     end.
Proof.
  destruct (shortCircuit includes excludes) eqn:Hshort.
  - assert (Hnew : New includes excludes = (Some allGlob, None)
                   \/ New includes excludes = (Some noneGlob, None)).
    { unfold shortCircuit in Hshort. unfold New.
      destruct ((len excludes =? 0)%nat && slices_Contains includes "**");
        [now left|].
      simpl in Hshort. rewrite Hshort. now right. }
    destruct Hnew as [-> | ->]; simpl; (split; [|discriminate]);
      (split; [intros H; now elim H|intros [H _]; discriminate]).
  - rewrite (New_err _ _ Hshort).
    pose proof (countBad_positive (includes ++ excludes)) as Hpos.
    pose proof (countBad_app includes excludes) as Happ.
    destruct (countBad (includes ++ excludes)) as [|n] eqn:Hn; cbn [fst snd].
    + split; [|discriminate].
      split; [intros H; now elim H|].
      intros [_ Hex]. apply Hpos in Hex. now elim Hex.
    + split.
      * split; [intros _|discriminate].
        split; [reflexivity|]. now apply Hpos.
      * split; [reflexivity|].
        cbn [leaves]. rewrite flat_map_app, Happ, repeat_app.
        destruct (countBad includes), (countBad excludes); cbn [flat_map leaves];
          now rewrite ?app_nil_r, ?leaves_repeat.
Qed.

(** With [**] among the includes and no excludes, [New] returns the
    match-all glob and no error although [path.Match] rejects the string
    [[]: the guards (lines 348-353) come before any validation. *)
Lemma guard_skips_validation :
  ~ (forall includes excludes,
       snd (New includes excludes) <> None <->
       exists p, In p (includes ++ excludes) /\ malformed p = true).
Proof.
  intros H. destruct (H ["**"; "["] []) as [_ Herr].
  apply Herr; [|reflexivity].
  exists "[". split; [simpl; auto|reflexivity].
Qed.

(** ** Clean paths *)

Lemma plainName_inv (s : string) :
  plain s ->
  (s =? "") = false /\ (s =? ".") = false /\ (s =? "..") = false
  /\ containsByte "/" s = false.
Proof.
  unfold plainName. intros H.
  repeat (apply andb_prop in H as [H ?]).
  repeat match goal with H : negb _ = true |- _ => apply negb_true_iff in H end.
  auto.
Qed.

Lemma splitSlash_cons (s : string) : exists x xs, splitSlash s = x :: xs.
Proof.
  induction s as [|c t (x & xs & IH)]; cbn [splitSlash]; [now eexists _, _|].
  destruct (c =? "/")%char; [now eexists _, _|].
  rewrite IH. now eexists _, _.
Qed.

Lemma splitSlash_noSlash (s : string) :
  containsByte "/" s = false -> splitSlash s = [s].
Proof.
  induction s as [|c t IH]; cbn [splitSlash containsByte]; intros H; [reflexivity|].
  apply orb_false_elim in H as [Hc Ht].
  rewrite Ascii.eqb_sym, Hc, (IH Ht). reflexivity.
Qed.

Lemma splitSlash_slash (a b : string) :
  splitSlash (a ++ String "/" b) = splitSlash a ++ splitSlash b.
Proof.
  induction a as [|c t IH]; [reflexivity|].
  cbn [append splitSlash].
  destruct (c =? "/")%char; [now rewrite IH|].
  rewrite IH. destruct (splitSlash_cons t) as (x & xs & ->). reflexivity.
Qed.

Lemma splitSlash_app (a b : string) :
  splitSlash (a ++ "/" ++ b) = splitSlash a ++ splitSlash b.
Proof. exact (splitSlash_slash a b). Qed.

Lemma splitSlash_concat (l : list string) :
  plainNames l -> l <> [] -> splitSlash (String.concat "/" l) = l.
Proof.
  induction l as [|x l IH]; intros Hl Hne; [now elim Hne|].
  inversion Hl as [|? ? Hx Hrest]; subst.
  apply plainName_inv in Hx as (_ & _ & _ & Hx).
  destruct l as [|y l].
  - simpl. now apply splitSlash_noSlash.
  - change (String.concat "/" (x :: y :: l))
      with (x ++ "/" ++ String.concat "/" (y :: l))%string.
    rewrite splitSlash_app, (splitSlash_noSlash x Hx), IH; [reflexivity|exact Hrest|discriminate].
Qed.

Lemma cleanElems_plain (rooted : bool) (l : list string) :
  plainNames l -> forall acc, GoPath.cleanElems rooted l acc = rev acc ++ l.
Proof.
  induction 1 as [|e l He _ IH]; intros acc; simpl.
  - now rewrite app_nil_r.
  - apply plainName_inv in He as (H0 & H1 & H2 & _).
    rewrite H0, H1, H2. simpl. rewrite IH. simpl. now rewrite <- app_assoc.
Qed.

Lemma Clean_plain (l : list string) :
  plainNames l -> l <> [] -> GoPath.Clean (String.concat "/" l) = String.concat "/" l.
Proof.
  intros Hl Hne. unfold GoPath.Clean.
  pose proof (splitSlash_concat l Hl Hne) as Hsplit.
  destruct (String.concat "/" l) as [|c t] eqn:Hc.
  - simpl in Hsplit. subst l. inversion Hl as [|? ? H _]; subst. discriminate.
  - rewrite Hsplit.
    assert (Hroot : (c =? "/")%char = false).
    { destruct l as [|x l]; [now elim Hne|].
      inversion Hl as [|? ? Hx _]; subst.
      apply plainName_inv in Hx as (H0 & _ & _ & Hs).
      destruct x as [|c' x']; [discriminate|].
      assert (c = c').
      { destruct l; simpl in Hc; now injection Hc. }
      subst c'. simpl in Hs. apply orb_false_elim in Hs as [Hs _].
      now rewrite Ascii.eqb_sym. }
    rewrite Hroot, (cleanElems_plain false l Hl []). simpl.
    destruct l; [now elim Hne|]. now rewrite <- Hc.
Qed.

Lemma append_assoc (a b c : string) : ((a ++ b) ++ c = a ++ (b ++ c))%string.
Proof. induction a as [|x a IH]; simpl; congruence. Qed.

Lemma concat_snoc (l : list string) (n : string) :
  l <> [] ->
  String.concat "/" (l ++ [n]) = (String.concat "/" l ++ "/" ++ n)%string.
Proof.
  induction l as [|x l IH]; intros Hne; [now elim Hne|].
  destruct l as [|y l]; [reflexivity|].
  change (String.concat "/" ((x :: y :: l) ++ [n]))
    with (x ++ "/" ++ String.concat "/" ((y :: l) ++ [n]))%string.
  rewrite IH by discriminate.
  change (String.concat "/" (x :: y :: l))
    with (x ++ "/" ++ String.concat "/" (y :: l))%string.
  now rewrite !append_assoc.
Qed.

Lemma plainNames_snoc (l : list string) (n : string) :
  plainNames l -> plain n -> plainNames (l ++ [n]).
Proof. intros Hl Hn. apply Forall_app. split; [exact Hl|now constructor]. Qed.

Lemma Clean_relative (c : ascii) (t : string) :
  (c =? "/")%char = false ->
  GoPath.Clean (String c t)
  = match GoPath.cleanElems false (splitSlash (String c t)) [] with
    | [] => "."
    | elems => String.concat "/" elems
    end.
Proof. intros H. unfold GoPath.Clean. rewrite H. reflexivity. Qed.

(** [path.Join] of a clean relative path and a plain name appends the
    name. *)
Lemma Join_render (elems : list string) (n : string) :
  plainNames elems -> plain n ->
  GoPath.Join (render elems) n = render (elems ++ [n]).
Proof.
  intros Hl Hn.
  pose proof (plainNames_snoc _ _ Hl Hn) as Hall.
  pose proof (plainName_inv _ Hn) as (Hn0 & _ & _ & Hs).
  destruct elems as [|e elems].
  - assert (Hjoin : GoPath.Join (render []) n = GoPath.Clean (String "." (String "/" n))).
    { destruct n; [discriminate|reflexivity]. }
    rewrite Hjoin, Clean_relative by reflexivity.
    replace (splitSlash (String "." (String "/" n))) with ["."; n]
      by (symmetry; change (splitSlash ("." ++ String "/" n) = ["."; n]);
          now rewrite splitSlash_slash, (splitSlash_noSlash n Hs)).
    change (GoPath.cleanElems false ["."; n] []) with (GoPath.cleanElems false [n] []).
    rewrite (cleanElems_plain false [n]) by (now constructor).
    reflexivity.
  - assert (Hne : render (e :: elems) <> "").
    { intros Hr. pose proof (splitSlash_concat (e :: elems) Hl ltac:(discriminate)) as Hsp.
      unfold render in Hr. rewrite Hr in Hsp. simpl in Hsp.
      injection Hsp as <- _. inversion Hl as [|? ? He _]. discriminate. }
    assert (Hjoin : GoPath.Join (render (e :: elems)) n
                    = GoPath.Clean (render (e :: elems) ++ "/" ++ n)).
    { unfold GoPath.Join. destruct (render (e :: elems)); [now elim Hne|].
      destruct n; [discriminate|reflexivity]. }
    rewrite Hjoin. unfold render at 1.
    rewrite <- concat_snoc by discriminate.
    rewrite Clean_plain; [|exact Hall|now destruct elems].
    unfold render. now destruct elems.
Qed.

Lemma splitSlash_render (l : list string) :
  plainNames l -> splitSlash (render l) = match l with [] => ["."] | _ => l end.
Proof.
  intros Hl. destruct l as [|x l]; [reflexivity|].
  apply (splitSlash_concat (x :: l) Hl). discriminate.
Qed.

Lemma render_walk (chain : list string) :
  forall elems,
    plainNames elems -> plainNames chain ->
    fold_left GoPath.Join chain (render elems) = render (elems ++ chain).
Proof.
  induction chain as [|n chain IH]; intros elems He Hc; simpl.
  - now rewrite app_nil_r.
  - inversion Hc as [|? ? Hn Hrest]; subst.
    rewrite (Join_render elems n He Hn), IH; [|now apply plainNames_snoc|exact Hrest].
    now rewrite <- app_assoc.
Qed.

(** A clean path at or below the one that continues [elems] with [target]
    continues [elems] with [target] too. *)
Lemma within_render (elems chain target : list string) :
  plainNames elems -> plainNames target -> plainNames chain -> target <> [] ->
  within (render (elems ++ target)) (render (elems ++ chain)) ->
  exists more, chain = target ++ more.
Proof.
  intros He Ht Hc Hne Hwithin.
  assert (Htop : plainNames (elems ++ target)) by (apply Forall_app; now split).
  assert (Hall : plainNames (elems ++ chain)) by (apply Forall_app; now split).
  pose proof (splitSlash_render _ Htop) as Hstop.
  pose proof (splitSlash_render _ Hall) as Hsd.
  assert (Htopne : match elems ++ target with [] => ["."] | _ => elems ++ target end
                   = elems ++ target).
  { destruct elems; [|reflexivity]. destruct target; [now elim Hne|reflexivity]. }
  rewrite Htopne in Hstop.
  assert (Hsplit : exists more, splitSlash (render (elems ++ chain))
                               = (elems ++ target) ++ more).
  { destruct Hwithin as [->|[rest ->]].
    - exists []. now rewrite Hstop, app_nil_r.
    - exists (splitSlash rest). now rewrite splitSlash_app, Hstop. }
  destruct Hsplit as (more & Hsplit). rewrite Hsd in Hsplit.
  destruct (elems ++ chain) as [|x l] eqn:Hec.
  - destruct elems; [|discriminate]. destruct target as [|t target]; [now elim Hne|].
    simpl in Hsplit. injection Hsplit as <- _.
    inversion Ht as [|? ? H _]; subst.
    now apply plainName_inv in H as (_ & H & _).
  - rewrite <- Hec, <- app_assoc in Hsplit.
    apply app_inv_head in Hsplit. now exists more.
Qed.

(** ** Pruning *)

Lemma matchDirAll_extends (ps : list pattern) (name : string) :
  forall acc hit h next,
    matchDirAll ps name acc hit = Some (h, next) ->
    exists more, next = acc ++ more /\ (always ps = true -> more <> []).
Proof.
  induction ps as [|p rest IH]; simpl; intros acc hit h next H.
  - injection H as _ <-. exists []. split; [now rewrite app_nil_r|discriminate].
  - destruct (matchDir p name acc) as [[b acc']|] eqn:Hd; [|discriminate].
    destruct (IH _ _ _ _ H) as (more & -> & Hmore).
    assert (Hstep : exists m, acc' = acc ++ m
                              /\ (match p with [p0] => p0 =? "**" | _ => false end = true
                                  -> m <> [])).
    { destruct p as [|step tail]; [discriminate|]. unfold matchDir in Hd.
      destruct tail as [|t tail]; simpl in Hd.
      - destruct (step =? "**").
        + injection Hd as _ <-. exists [[step]]. split; [reflexivity|discriminate].
        + exists []. split; [|discriminate].
          destruct (negb (match_ step name)); injection Hd as _ <-;
            now rewrite app_nil_r.
      - destruct (step =? "**").
        + injection Hd as _ <-. eexists. split; [now rewrite <- app_assoc|discriminate].
        + destruct (negb (match_ step name)); injection Hd as _ <-.
          * exists []. split; [now rewrite app_nil_r|discriminate].
          * eexists. split; [reflexivity|discriminate]. }
    destruct Hstep as (m & -> & Hm).
    exists (m ++ more). split; [now rewrite app_assoc|].
    intros Ha. apply orb_prop in Ha as [Ha|Ha].
    + specialize (Hm Ha). destruct m; [now elim Hm|discriminate].
    + specialize (Hmore Ha). destruct more; [now elim Hmore|].
      now destruct m.
Qed.

(** The walk does not enter an entry that is turned away. *)
Lemma turnedAway_descend (include exclude : list pattern) (name : string) :
  turnedAway include exclude name -> descend include exclude name = None.
Proof.
  unfold descend. intros [[hit Hinc]|[next Hexc]].
  - destruct (matchDirFirst exclude name []) as [[[|] nextExclude]|]; try reflexivity.
    unfold activeInclude. destruct (always include) eqn:Ha.
    + destruct (matchDirAll_extends _ _ _ _ _ _ Hinc) as (more & Heq & Hmore).
      simpl in Heq. subst more. now elim (Hmore Ha).
    + now rewrite Hinc.
  - now rewrite Hexc.
Qed.

Lemma follow_app (route chain : list string) :
  forall include exclude,
    follow include exclude (route ++ chain)
    = match follow include exclude route with
      | Some (include', exclude') => follow include' exclude' chain
      | None => None
      end.
Proof.
  induction route as [|n route IH]; intros include exclude; simpl; [reflexivity|].
  destruct (descend include exclude n) as [[i e]|]; [apply IH|reflexivity].
Qed.

Lemma licensed_follow (P : string -> Prop) dir include exclude d :
  licensed P dir include exclude d ->
  exists chain,
    Forall P chain /\ follow include exclude chain <> None
    /\ d = fold_left GoPath.Join chain dir.
Proof.
  induction 1 as [dir include exclude
                 |dir include exclude name ni ne d Hname Hdesc _ (chain & Hc & Hf & ->)].
  - exists []. repeat split; [constructor|discriminate].
  - exists (name :: chain). simpl. rewrite Hdesc. repeat split; auto.
Qed.

Lemma lookup_plainTree (name : string) (entries : list (string * node)) (x : node) :
  plainTree (directory entries) = true -> lookup name entries = Some x ->
  plainTree x = true.
Proof.
  induction entries as [|[n y] rest IH]; simpl; [discriminate|].
  intros H. apply andb_prop in H as [Hy Hrest]. apply andb_prop in Hy as [_ Hy].
  destruct (n =? name); [now intros [= <-]|now apply IH].
Qed.

Lemma resolve_plainTree (elems : list string) :
  forall root x,
    plainTree root = true -> resolve root elems = Some x -> plainTree x = true.
Proof.
  induction elems as [|e rest IH]; simpl; intros root x Hroot.
  - now intros [= <-].
  - destruct root as [|entries]; [discriminate|].
    destruct (lookup e entries) as [child|] eqn:Hl; [|discriminate].
    apply IH. exact (lookup_plainTree _ _ _ Hroot Hl).
Qed.

(** The file system of a tree with plain names lists plain names. *)
Lemma treeFS_plain (root : node) : plainTree root = true -> plainFS (treeFS root).
Proof.
  intros Hroot dir infos i. simpl. unfold open.
  destruct (negb (validPath dir)); [discriminate|].
  destruct (resolve root (if dir =? "." then [] else splitSlash dir)) as [[|entries]|] eqn:Hr;
    try discriminate.
  apply resolve_plainTree in Hr; [|exact Hroot].
  intros [= <-] Hin. apply in_map_iff in Hin as ([n y] & <- & Hin).
  simpl in Hr. rewrite forallb_forall in Hr.
  specialize (Hr _ Hin). now apply andb_prop in Hr as [Hn _].
Qed.

(** X16.  Whatever the file system, the consumer and the depth reached,
    every directory that [Match] lists is the start directory or is reached
    from it through names that the walk may enter, each at its level: no
    exclude pattern matches the name immediately and the include set does
    not advance to nothing over it. *)
Lemma Match_lists_licensed (fuel : nat) (fsys : FS) (yield : yieldFn)
    (dir : string) (includeDirs : bool) (g : matchGlob) (d : string) :
  In (OpReadDir d)
     (trace (stateOf (Glob_Match fuel (matchGlobOf g) fsys yield dir includeDirs))) ->
  licensed (fun _ => True) dir (include g) (exclude g) d.
Proof.
  intros Hin.
  assert (Hterms : termsIn (fun _ => True) (include g)).
  { apply Forall_forall. intros p _. apply Forall_forall. auto. }
  destruct (matchStep_reads fsys yield (fun _ => True) I (fun _ _ _ _ _ => I) fuel
              dir false includeDirs (include g) (exclude g) Hterms start d Hin)
    as [[]|H].
  exact H.
Qed.

(** With the include [**] and the exclude [b], the walk over [twoDirs]
    lists the directory [a], which the walk may enter from the start
    directory. *)
Lemma Match_lists_licensed_witness :
  licensed (fun _ => True) "." [["**"]] [["b"]] "a".
Proof.
  apply (Match_lists_licensed 3 (treeFS twoDirs) collect "." false
           {| include := [["**"]]; exclude := [["b"]] |} "a").
  vm_compute. right. left. reflexivity.
Defined.

(** X15.  The pruning property.  Take a file system whose listings return plain
    names, a clean relative start directory, and include patterns whose
    terms are plain (none is empty, [.] or [..]).  If the walk can reach a
    level, through the names [route], with the active sets [include'] and
    [exclude'], and the include set advances to nothing over the name of an
    entry D of that level, or an exclude pattern matches that name
    immediately, then [Match] never lists D or a directory below D,
    whatever the consumer and the depth reached. *)
Theorem turned_away_subtree_is_never_listed (fuel : nat) (fsys : FS)
    (yield : yieldFn) (elems route : list string) (includeDirs : bool)
    (g : matchGlob) (include' exclude' : list pattern) (name d : string) :
  plainFS fsys ->
  plainNames elems ->
  termsIn plain (include g) ->
  plainNames route ->
  follow (include g) (exclude g) route = Some (include', exclude') ->
  plain name ->
  turnedAway include' exclude' name ->
  In (OpReadDir d)
     (trace (stateOf (Glob_Match fuel (matchGlobOf g) fsys yield (render elems)
                                 includeDirs))) ->
  ~ within (GoPath.Join (render (elems ++ route)) name) d.
Proof.
  intros Hfs Helems Hterms Hroute Hfollow Hname Haway Hin Hwithin.
  destruct (matchStep_reads fsys yield plain eq_refl Hfs fuel (render elems) false
              includeDirs (include g) (exclude g) Hterms start d Hin) as [[]|Hlic].
  apply licensed_follow in Hlic as (chain & Hchain & Hf & ->).
  rewrite (render_walk chain elems Helems Hchain) in Hwithin.
  assert (Hlevel : plainNames (elems ++ route)) by (apply Forall_app; now split).
  rewrite (Join_render _ _ Hlevel Hname), <- app_assoc in Hwithin.
  destruct (within_render elems chain (route ++ [name]) Helems
              (plainNames_snoc _ _ Hroute Hname) Hchain) as (more & ->);
    [now destruct route|exact Hwithin|].
  rewrite <- app_assoc, follow_app, Hfollow in Hf. simpl in Hf.
  now rewrite (turnedAway_descend _ _ _ Haway) in Hf.
Qed.

(** With the include [**] and the exclude [b], the walk over [twoDirs]
    lists the directory [a], and [a] is not the directory [b] nor below
    it. *)
Lemma turned_away_subtree_is_never_listed_witness :
  In (OpReadDir "a")
     (trace (stateOf (Glob_Match 3 (matchGlobOf {| include := [["**"]];
                                                    exclude := [["b"]] |})
                                 (treeFS twoDirs) collect (render []) false)))
  /\ ~ within (GoPath.Join (render ([] ++ [])) "b") "a".
Proof.
  assert (Hin : In (OpReadDir "a")
                   (trace (stateOf (Glob_Match 3
                                      (matchGlobOf {| include := [["**"]];
                                                      exclude := [["b"]] |})
                                      (treeFS twoDirs) collect (render []) false)))).
  { vm_compute. right. left. reflexivity. }
  split; [exact Hin|].
  apply (turned_away_subtree_is_never_listed 3 (treeFS twoDirs) collect [] []
           false {| include := [["**"]]; exclude := [["b"]] |} [["**"]] [["b"]] "b" "a").
  - apply treeFS_plain. reflexivity.
  - constructor.
  - repeat constructor.
  - constructor.
  - reflexivity.
  - reflexivity.
  - right. eexists. reflexivity.
  - exact Hin.
Defined.

(** ** [MatchPath] against the specification's matching *)

Lemma matchDir_advance1 (p : pattern) (name : string) (acc : list pattern) :
  nonEmpty p ->
  matchDir p name acc = Some (matchFile p name, acc ++ advance1 name p).
Proof.
  intros Hp. destruct p as [|step rest]; [now elim Hp|].
  unfold matchDir, matchFile, advance1.
  destruct rest as [|r rest]; simpl;
    destruct (step =? "**"); simpl; try destruct (match_ step name); simpl;
    rewrite <- ?app_assoc, ?app_nil_r; reflexivity.
Qed.

Lemma advance1_nonEmpty (name : string) (p : pattern) :
  nonEmpty p -> Forall nonEmpty (advance1 name p).
Proof.
  intros Hp. destruct p as [|step rest]; [constructor|].
  unfold advance1.
  assert (Htail : Forall nonEmpty match rest with [] => [] | _ => [rest] end).
  { destruct rest; repeat constructor. discriminate. }
  destruct (step =? "**"); [constructor; assumption|].
  destruct (match_ step name); [assumption|constructor].
Qed.

Lemma advance_nonEmpty (name : string) (ps : list pattern) :
  Forall nonEmpty ps -> Forall nonEmpty (advance name ps).
Proof.
  unfold advance. induction 1 as [|p ps Hp _ IH]; simpl; [constructor|].
  apply Forall_app. split; [now apply advance1_nonEmpty|exact IH].
Qed.

Lemma matchDirAll_advance (ps : list pattern) (name : string) :
  forall acc hit,
    Forall nonEmpty ps ->
    matchDirAll ps name acc hit
    = Some (hit || matchFileAny ps name, acc ++ advance name ps).
Proof.
  induction ps as [|p rest IH]; simpl; intros acc hit Hps.
  - now rewrite orb_false_r, app_nil_r.
  - inversion Hps as [|? ? Hp Hrest]; subst.
    rewrite (matchDir_advance1 p name acc Hp), (IH _ _ Hrest).
    unfold advance. simpl. now rewrite orb_assoc, app_assoc.
Qed.

Lemma matchDirFirst_advance (ps : list pattern) (name : string) :
  forall acc,
    Forall nonEmpty ps ->
    exists next,
      matchDirFirst ps name acc = Some (matchFileAny ps name, next)
      /\ (matchFileAny ps name = false -> next = acc ++ advance name ps).
Proof.
  induction ps as [|p rest IH]; simpl; intros acc Hps.
  - exists acc. split; [reflexivity|]. now rewrite app_nil_r.
  - inversion Hps as [|? ? Hp Hrest]; subst.
    rewrite (matchDir_advance1 p name acc Hp).
    destruct (matchFile p name); simpl.
    + eexists. split; [reflexivity|discriminate].
    + destruct (IH (acc ++ advance1 name p) Hrest) as (next & -> & Hnext).
      exists next. split; [reflexivity|].
      intros Hf. rewrite (Hnext Hf). unfold advance. simpl. now rewrite app_assoc.
Qed.

Lemma accepts_nil (names : list string) : accepts names [] = false.
Proof.
  induction names as [|n rest IH]; [reflexivity|].
  destruct rest; [reflexivity|exact IH].
Qed.

Lemma matchNames_accepts (names : list string) :
  forall include exclude,
    Forall nonEmpty include -> Forall nonEmpty exclude ->
    matchNames names include exclude
    = Some (accepts names include && negb (excluded names exclude)).
Proof.
  induction names as [|n rest IH]; intros include exclude Hi He; [reflexivity|].
  destruct (matchDirFirst_advance exclude n [] He) as (nextE & HE & HnextE).
  destruct rest as [|n' rest'].
  - simpl. rewrite HE.
    destruct (matchFileAny exclude n); [now rewrite andb_false_r|].
    destruct (matchDirFirst_advance include n [] Hi) as (nextI & -> & _).
    now rewrite andb_true_r.
  - change (matchNames (n :: n' :: rest') include exclude) with
      (match matchDirFirst exclude n [] with
       | None => None
       | Some (true, _) => Some false
       | Some (false, nextExclude) =>
           match matchDirAll include n [] false with
           | None => None
           | Some (_, nextInclude) =>
               if (len nextInclude =? 0)%nat then Some false
               else matchNames (n' :: rest') nextInclude nextExclude
           end
       end).
    change (accepts (n :: n' :: rest') include)
      with (accepts (n' :: rest') (advance n include)).
    change (excluded (n :: n' :: rest') exclude)
      with (matchFileAny exclude n || excluded (n' :: rest') (advance n exclude)).
    rewrite HE.
    destruct (matchFileAny exclude n); [now rewrite andb_false_r|].
    rewrite (HnextE eq_refl), (matchDirAll_advance include n [] false Hi).
    cbn [app orb].
    destruct (advance n include) as [|q qs] eqn:Hadv.
    + now rewrite accepts_nil.
    + rewrite <- Hadv.
      replace (len (advance n include) =? 0)%nat with false
        by (rewrite Hadv; reflexivity).
      apply IH; now apply advance_nonEmpty.
Qed.

Lemma advance_app (name : string) (ps qs : list pattern) :
  advance name (ps ++ qs) = advance name ps ++ advance name qs.
Proof. apply flat_map_app. Qed.

Lemma accepts_app (names : list string) :
  forall ps qs, accepts names (ps ++ qs) = accepts names ps || accepts names qs.
Proof.
  induction names as [|n rest IH]; intros ps qs; [reflexivity|].
  destruct rest as [|n' rest'].
  - apply existsb_app.
  - change (accepts (n :: n' :: rest') ?l) with (accepts (n' :: rest') (advance n l)).
    now rewrite advance_app, IH.
Qed.

Lemma accepts_flat_map {A} (names : list string) (f : A -> list pattern) (l : list A) :
  accepts names (flat_map f l) = existsb (fun x => accepts names (f x)) l.
Proof.
  induction l as [|x l IH]; simpl; [apply accepts_nil|].
  now rewrite accepts_app, IH.
Qed.

Lemma excluded_nil (names : list string) : excluded names [] = false.
Proof. induction names as [|n rest IH]; [reflexivity|exact IH]. Qed.

Lemma excluded_app (names : list string) :
  forall ps qs, excluded names (ps ++ qs) = excluded names ps || excluded names qs.
Proof.
  induction names as [|n rest IH]; intros ps qs; [reflexivity|].
  simpl. unfold matchFileAny. rewrite existsb_app, advance_app, IH.
  repeat rewrite <- orb_assoc. f_equal.
  repeat rewrite orb_assoc. f_equal. apply orb_comm.
Qed.

Lemma excluded_flat_map {A} (names : list string) (f : A -> list pattern) (l : list A) :
  excluded names (flat_map f l) = existsb (fun x => excluded names (f x)) l.
Proof.
  induction l as [|x l IH]; simpl; [apply excluded_nil|].
  now rewrite excluded_app, IH.
Qed.

Lemma prefixes_nonEmpty {A} (l pre : list A) : In pre (prefixes l) -> pre <> [].
Proof.
  destruct l as [|x rest]; simpl; [intros []|].
  intros [<-|H]; [discriminate|].
  apply in_map_iff in H as (q & <- & _). discriminate.
Qed.

Lemma existsb_agree {A} (f g : A -> bool) (l : list A) :
  (forall x, In x l -> f x = g x) -> existsb f l = existsb g l.
Proof.
  induction l as [|x l IH]; simpl; intros H; [reflexivity|].
  rewrite (H x (or_introl eq_refl)), IH; auto.
Qed.

Lemma existsb_mapped {A B} (f : B -> bool) (h : A -> B) (l : list A) :
  existsb f (map h l) = existsb (fun x => f (h x)) l.
Proof. induction l as [|x l IH]; simpl; congruence. Qed.

Lemma excluded_prefixes (names : list string) :
  forall ps, excluded names ps = existsb (fun pre => accepts pre ps) (prefixes names).
Proof.
  induction names as [|n rest IH]; intros ps; [reflexivity|].
  simpl. rewrite IH, existsb_mapped. f_equal.
  apply existsb_agree. intros pre Hpre.
  apply prefixes_nonEmpty in Hpre. destruct pre; [now elim Hpre|reflexivity].
Qed.

Lemma specMatch_plain_nil (q : pattern) :
  nonEmpty q -> noLevels q = true -> specMatch q [] = false.
Proof.
  destruct q as [|s tail]; [intros H; now elim H|].
  simpl. intros _ H. apply andb_prop in H as [Hs _].
  apply negb_true_iff in Hs. now rewrite Hs.
Qed.

Lemma accepts_plain (names : list string) :
  forall q,
    names <> [] -> nonEmpty q -> noLevels q = true ->
    accepts names [q] = specMatch q names.
Proof.
  induction names as [|n rest IH]; intros q Hnames Hq Hplain; [now elim Hnames|].
  destruct q as [|s tail]; [now elim Hq|].
  simpl in Hplain. apply andb_prop in Hplain as [Hs Htail].
  apply negb_true_iff in Hs.
  destruct rest as [|n' rest'].
  - simpl. rewrite Hs.
    destruct tail as [|t ts].
    + simpl. now rewrite orb_false_r, andb_true_r.
    + rewrite (specMatch_plain_nil (t :: ts)); [|discriminate|exact Htail].
      now rewrite andb_false_r.
  - change (accepts (n :: n' :: rest') [s :: tail])
      with (accepts (n' :: rest') (advance n [s :: tail])).
    unfold advance. simpl flat_map. rewrite Hs, app_nil_r.
    change (specMatch (s :: tail) (n :: n' :: rest'))
      with (if s =? "**" then
              (fix skip (names : list string) : bool :=
                 specMatch tail names
                 || match names with
                    | [] => false
                    | _ :: names' => skip names'
                    end) (n :: n' :: rest')
            else match_ s n && specMatch tail (n' :: rest')).
    rewrite Hs.
    destruct (match_ s n); [|apply accepts_nil].
    destruct tail as [|t ts]; [apply accepts_nil|].
    apply IH; [discriminate|discriminate|exact Htail].
Qed.

Lemma specMatch_skip (rest : pattern) (names : list string) :
  specMatch ("**" :: rest) names
  = specMatch rest names
    || match names with
       | [] => false
       | _ :: names' => specMatch ("**" :: rest) names'
       end.
Proof. destruct names; reflexivity. Qed.

Lemma specMatch_levels (names : list string) : specMatch ["**"] names = true.
Proof.
  induction names as [|n rest IH]; [reflexivity|].
  rewrite specMatch_skip. now rewrite IH, orb_true_r.
Qed.

Lemma accepts_levels (names : list string) :
  names <> [] -> accepts names [["**"]] = true.
Proof.
  induction names as [|n rest IH]; intros H; [now elim H|].
  destruct rest as [|n' rest']; [reflexivity|].
  change (accepts (n :: n' :: rest') [["**"]])
    with (accepts (n' :: rest') (advance n [["**"]])).
  apply IH. discriminate.
Qed.

Lemma accepts_leading (names : list string) (tail : pattern) :
  names <> [] -> nonEmpty tail -> noLevels tail = true ->
  accepts names [("**" :: tail)] || accepts names [tail]
  = specMatch ("**" :: tail) names.
Proof.
  intros Hnames Htail Hplain.
  induction names as [|n rest IH]; [now elim Hnames|].
  rewrite specMatch_skip, (accepts_plain (n :: rest) tail Hnames Htail Hplain).
  destruct rest as [|n' rest'].
  - rewrite specMatch_skip, (specMatch_plain_nil tail Htail Hplain).
    destruct tail; [now elim Htail|]. simpl. now rewrite !orb_false_r.
  - change (accepts (n :: n' :: rest') [("**" :: tail)])
      with (accepts (n' :: rest') (advance n [("**" :: tail)])).
    replace (advance n [("**" :: tail)]) with ([("**" :: tail)] ++ [tail])
      by (destruct tail; [now elim Htail|reflexivity]).
    rewrite accepts_app, IH by discriminate.
    apply orb_comm.
Qed.

Lemma terms_nonEmpty (p : string) : nonEmpty (terms p).
Proof. unfold terms. destruct (segments p); discriminate. Qed.

Lemma accepts_compiled (names : list string) (p : string) :
  names <> [] -> levelsLead (terms p) = true ->
  accepts names (compiled p) = specMatch (terms p) names.
Proof.
  intros Hnames Hlead. unfold compiled.
  pose proof (terms_nonEmpty p) as Hne.
  destruct (terms p) as [|s [|t ts]]; [now elim Hne| |].
  - destruct (String.eqb_spec s "**") as [->|Hs].
    + now rewrite accepts_levels, specMatch_levels.
    + apply accepts_plain; [exact Hnames|discriminate|].
      simpl. apply String.eqb_neq in Hs. now rewrite Hs.
  - unfold levelsLead in Hlead. cbn [tl] in Hlead.
    destruct (String.eqb_spec s "**") as [->|Hs].
    + change [("**" :: t :: ts); t :: ts] with ([("**" :: t :: ts)] ++ [t :: ts]).
      rewrite accepts_app. apply accepts_leading; [exact Hnames|discriminate|exact Hlead].
    + apply accepts_plain; [exact Hnames|discriminate|].
      apply String.eqb_neq in Hs. unfold noLevels. simpl in *.
      rewrite Hs. exact Hlead.
Qed.

Lemma newPattern_compiled (p : string) (patterns : list pattern) :
  malformed p = false -> newPattern p patterns = (patterns ++ compiled p, None).
Proof.
  intros H. rewrite (newPattern_valid p patterns H). cbv zeta.
  unfold compiled, terms.
  destruct (segments p) as [|s0 [|s1 ss]]; simpl.
  - reflexivity.
  - now rewrite andb_false_r.
  - rewrite andb_true_r. destruct (s0 =? "**"); [|reflexivity].
    now rewrite <- app_assoc.
Qed.

Lemma newPatternsLoop_compiled (ps : list string) :
  forall patterns errs,
    countBad ps = 0 ->
    fst (newPatternsLoop ps patterns errs) = patterns ++ flat_map compiled ps.
Proof.
  unfold countBad, len.
  induction ps as [|i rest IH]; simpl; intros patterns errs Hbad.
  - now rewrite app_nil_r.
  - destruct (malformed i) eqn:Hm; [discriminate|].
    rewrite (newPattern_compiled i patterns Hm), (IH _ _ Hbad).
    now rewrite app_assoc.
Qed.

Lemma newPatterns_compiled (ps : list string) :
  countBad ps = 0 -> fst (newPatterns ps) = flat_map compiled ps.
Proof.
  intros H. unfold newPatterns.
  pose proof (newPatternsLoop_compiled ps [] [] H) as Hc.
  now destruct (newPatternsLoop ps [] []).
Qed.

Lemma slices_Contains_In (l : list string) (s : string) :
  slices_Contains l s = true -> In s l.
Proof.
  unfold slices_Contains. intros H.
  apply existsb_exists in H as (x & Hx & Heq).
  apply String.eqb_eq in Heq. now subst.
Qed.

(** X1.  Where [**] occurs only as a leading term and the path has a
    segment, [MatchPath] computes what the specification describes, for
    each of the three strategies: some include string fully matches the
    segments of the path, a leading [**] standing for any number of them,
    and no exclude string fully matches a non-empty prefix of them. *)
Theorem MatchPath_agrees_with_spec (includes excludes : list string) (g : Glob)
    (p : string) :
  New includes excludes = (Some g, None) ->
  (forall s, In s (includes ++ excludes) -> levelsLead (terms s) = true) ->
  segments p <> [] ->
  Glob_MatchPath g p = Some (specMatchPath includes excludes p).
Proof.
  intros Hnew Hlead Hnames. unfold specMatchPath.
  assert (Hall : forall l, In "**" l ->
                           existsb (fun i => specMatch (terms i) (segments p)) l = true).
  { intros l Hin. apply existsb_exists. exists "**". split; [exact Hin|].
    apply specMatch_levels. }
  destruct (shortCircuit includes excludes) eqn:Hshort.
  - unfold shortCircuit in Hshort. unfold New in Hnew.
    destruct ((len excludes =? 0)%nat && slices_Contains includes "**") eqn:Hg1.
    + injection Hnew as <-. apply andb_prop in Hg1 as [He Hi].
      destruct excludes; [|discriminate].
      simpl. now rewrite (Hall _ (slices_Contains_In _ _ Hi)).
    + simpl in Hshort. rewrite Hshort in Hnew. injection Hnew as <-.
      simpl. f_equal. symmetry.
      apply orb_prop in Hshort as [Hi|He].
      * now destruct includes.
      * apply andb_false_iff. right. apply negb_false_iff.
        apply existsb_exists. exists "**".
        split; [now apply slices_Contains_In|].
        destruct (segments p) as [|n rest]; [now elim Hnames|].
        cbn [prefixes existsb]. change (terms "**") with ["**"].
        now rewrite specMatch_levels.
  - rewrite (New_err _ _ Hshort) in Hnew.
    pose proof (countBad_app includes excludes) as Happ.
    destruct (countBad (includes ++ excludes)); [|discriminate].
    injection Hnew as <-.
    assert (Hi : countBad includes = 0) by lia.
    assert (He : countBad excludes = 0) by lia.
    simpl. unfold MatchPath. cbn [include exclude].
    replace (len (segments p) =? 0)%nat with false
      by (destruct (segments p); [now elim Hnames|reflexivity]).
    rewrite matchNames_accepts by apply newPatterns_nonEmpty.
    rewrite (newPatterns_compiled _ Hi), (newPatterns_compiled _ He).
    rewrite accepts_flat_map, excluded_flat_map.
    f_equal. f_equal; [|f_equal].
    + apply existsb_agree. intros i Hin.
      apply accepts_compiled; [exact Hnames|].
      apply Hlead, in_or_app. now left.
    + apply existsb_agree. intros e Hin.
      rewrite excluded_prefixes. apply existsb_agree. intros pre Hpre.
      apply accepts_compiled; [now apply prefixes_nonEmpty in Hpre|].
      apply Hlead, in_or_app. now right.
Qed.

(** The includes [**/*.go] and [a/*], the exclude [vendor] and the path
    [x/y.go]. *)
Lemma MatchPath_agrees_with_spec_witness :
  Glob_MatchPath (matchGlobOf {| include := [["**"; "*.go"]; ["*.go"]; ["a"; "*"]];
                                 exclude := [["vendor"]] |}) "x/y.go"
  = Some (specMatchPath ["**/*.go"; "a/*"] ["vendor"] "x/y.go").
Proof.
  apply (MatchPath_agrees_with_spec ["**/*.go"; "a/*"] ["vendor"]).
  - reflexivity.
  - intros s [<-|[<-|[<-|[]]]]; reflexivity.
  - discriminate.
Defined.

(** ** Slashes in a path *)

Lemma segments_app (a b : string) :
  segments (a ++ "/" ++ b) = segments a ++ segments b.
Proof.
  unfold segments. rewrite splitSlash_app. apply filter_app.
Qed.

Lemma segments_empty : segments "" = [].
Proof. reflexivity. Qed.

(** X3.  [MatchPath] reads a path through its non-empty segments only: a
    leading slash, a trailing slash and a doubled slash change nothing, for
    each of the three strategies. *)
Theorem MatchPath_ignores_extra_slashes (g : Glob) (a b : string) :
  Glob_MatchPath g ("/" ++ a) = Glob_MatchPath g a
  /\ Glob_MatchPath g (a ++ "/") = Glob_MatchPath g a
  /\ Glob_MatchPath g (a ++ "//" ++ b) = Glob_MatchPath g (a ++ "/" ++ b).
Proof.
  assert (Hr : forall s, segments (s ++ "/") = segments s).
  { intros s. change (s ++ "/")%string with (s ++ "/" ++ "")%string.
    rewrite segments_app. simpl. apply app_nil_r. }
  assert (Hm : segments (a ++ "//" ++ b) = segments (a ++ "/" ++ b)).
  { change (a ++ "//" ++ b)%string with (a ++ "/" ++ ("/" ++ b))%string.
    rewrite (segments_app a ("/" ++ b)), (segments_app a b). f_equal. }
  destruct g as [| |g]; cbn [Glob_MatchPath]; auto.
  unfold MatchPath. rewrite Hr, Hm. repeat split; reflexivity.
Qed.

(** ** [MatchPath] through the advanced sets *)

Lemma excluded_extends (names more : list string) :
  forall ps, excluded names ps = true -> excluded (names ++ more) ps = true.
Proof.
  induction names as [|n names IH]; intros ps H; [discriminate|].
  simpl in *. apply orb_true_iff in H as [H|H].
  - now rewrite H.
  - rewrite (IH _ H). apply orb_true_r.
Qed.

Lemma MatchPath_accepts (g : matchGlob) (p : string) :
  Forall nonEmpty (include g) -> Forall nonEmpty (exclude g) ->
  MatchPath g p
  = Some (accepts (segments p) (include g) && negb (excluded (segments p) (exclude g))).
Proof.
  intros Hi He. unfold MatchPath.
  destruct (segments p) as [|n names] eqn:Hs; [reflexivity|].
  cbn [len List.length Nat.eqb]. now apply matchNames_accepts.
Qed.

Lemma always_In (ps : list pattern) : always ps = true <-> In ["**"] ps.
Proof.
  unfold always. rewrite existsb_exists. split.
  - intros ([|p0 [|]] & Hin & H); try discriminate.
    apply String.eqb_eq in H. now subst.
  - intros H. exists ["**"]. now split.
Qed.

Lemma accepts_In (names : list string) (p : pattern) (ps : list pattern) :
  In p ps -> accepts names [p] = true -> accepts names ps = true.
Proof.
  intros Hin H. apply in_split in Hin as (l1 & l2 & ->).
  change (l1 ++ p :: l2) with (l1 ++ [p] ++ l2).
  rewrite !accepts_app, H. now rewrite orb_true_r.
Qed.

Lemma accepts_always (names : list string) (ps : list pattern) :
  always ps = true -> names <> [] -> accepts names ps = true.
Proof.
  intros Ha Hn. apply always_In in Ha.
  apply (accepts_In _ _ _ Ha). now apply accepts_levels.
Qed.

Lemma accepts_active (names : list string) (ps : list pattern) :
  accepts names (activeInclude ps) = accepts names ps.
Proof.
  unfold activeInclude. destruct (always ps) eqn:Ha; [|reflexivity].
  destruct names as [|n names]; [reflexivity|].
  rewrite accepts_levels by discriminate.
  symmetry. apply accepts_always; [exact Ha|discriminate].
Qed.

(** ** The strategies of [New] *)

Lemma slices_Contains_spec (l : list string) (s : string) :
  slices_Contains l s = true <-> In s l.
Proof.
  split; [apply slices_Contains_In|].
  intros H. unfold slices_Contains. apply existsb_exists.
  exists s. split; [exact H|]. apply String.eqb_refl.
Qed.

Lemma len_zero {A} (l : list A) : (len l =? 0)%nat = true <-> l = [].
Proof. destruct l; simpl; split; intros; congruence. Qed.

Lemma New_strategy (includes excludes : list string) (g : Glob) :
  New includes excludes = (Some g, None) <-> strategy includes excludes g.
Proof.
  split.
  - intros H.
    destruct (shortCircuit includes excludes) eqn:Hsc.
    + unfold shortCircuit in Hsc. unfold New in H.
      destruct ((len excludes =? 0)%nat && slices_Contains includes "**") eqn:H1.
      * injection H as <-. apply andb_prop in H1 as [Ha Hb].
        apply useAll; [now apply len_zero|now apply slices_Contains_spec].
      * cbn [orb] in Hsc. rewrite Hsc in H. injection H as <-.
        apply useNone.
        -- apply andb_false_iff in H1 as [Ha|Hb].
           ++ left. intros ->. discriminate.
           ++ right. intros Hin. apply slices_Contains_spec in Hin. congruence.
        -- apply orb_prop in Hsc as [Ha|Hb].
           ++ left. now apply len_zero.
           ++ right. now apply slices_Contains_spec.
    + rewrite (New_err _ _ Hsc) in H.
      unfold shortCircuit in Hsc. apply orb_false_iff in Hsc as [H1 H2].
      apply orb_false_iff in H2 as [H2 H3].
      destruct (countBad (includes ++ excludes)) eqn:Hbad; [|discriminate].
      injection H as <-. apply useMatch; auto.
      * apply andb_false_iff in H1 as [Ha|Hb].
        -- left. intros ->. discriminate.
        -- right. intros Hin. apply slices_Contains_spec in Hin. congruence.
      * intros ->. discriminate.
      * intros Hin. apply slices_Contains_spec in Hin. congruence.
  - intros [He Hi|H1 H2|H1 Hi He Hbad].
    + unfold New. subst excludes. apply slices_Contains_spec in Hi. now rewrite Hi.
    + unfold New.
      assert (Hg1 : (len excludes =? 0)%nat && slices_Contains includes "**" = false).
      { apply andb_false_iff. destruct H1 as [H1|H1].
        - left. destruct excludes; [congruence|reflexivity].
        - right. destruct (slices_Contains includes "**") eqn:Hc; [|reflexivity].
          apply slices_Contains_spec in Hc. contradiction. }
      rewrite Hg1.
      assert (Hg2 : (len includes =? 0)%nat || slices_Contains excludes "**" = true).
      { apply orb_true_iff. destruct H2 as [->|H2]; [now left|right].
        now apply slices_Contains_spec. }
      now rewrite Hg2.
    + assert (Hsc : shortCircuit includes excludes = false).
      { unfold shortCircuit. apply orb_false_iff. split.
        - apply andb_false_iff. destruct H1 as [H1|H1].
          + left. destruct excludes; [congruence|reflexivity].
          + right. destruct (slices_Contains includes "**") eqn:Hc; [|reflexivity].
            apply slices_Contains_spec in Hc. contradiction.
        - apply orb_false_iff. split.
          + destruct includes; [congruence|reflexivity].
          + destruct (slices_Contains excludes "**") eqn:Hc; [|reflexivity].
            apply slices_Contains_spec in Hc. contradiction. }
      rewrite (New_err _ _ Hsc), Hbad. reflexivity.
Qed.

(** X6.  With no include string, or with the exclude string [**], [New]
    returns the strategy that matches nothing, without an error even when
    other strings are malformed: its [MatchPath] rejects every path, and its
    [Match] hands nothing over and performs no file-system operation. *)
Theorem empty_includes_or_excluded_levels_match_nothing
    (includes excludes : list string) :
  includes = [] \/ In "**" excludes ->
  New includes excludes = (Some noneGlob, None)
  /\ (forall p, Glob_MatchPath noneGlob p = Some false)
  /\ (forall fuel fsys yield dir includeDirs,
        Glob_Match fuel noneGlob fsys yield dir includeDirs = Done true start).
Proof.
  intros H. split; [|split; reflexivity].
  apply New_strategy. apply useNone; [|exact H].
  destruct H as [->|H]; [now right|left]. intros ->. contradiction.
Qed.

(** The include strings [[] and [*.go] with the exclude strings [**] and
    [x]. *)
Lemma empty_includes_or_excluded_levels_match_nothing_witness :
  New ["[" ; "*.go"] ["**"; "x"] = (Some noneGlob, None)
  /\ (forall p, Glob_MatchPath noneGlob p = Some false)
  /\ (forall fuel fsys yield dir includeDirs,
        Glob_Match fuel noneGlob fsys yield dir includeDirs = Done true start).
Proof.
  apply (empty_includes_or_excluded_levels_match_nothing ["["; "*.go"] ["**"; "x"]).
  right. left. reflexivity.
Defined.

Lemma compiled_levels : compiled "**" = [["**"]].
Proof. reflexivity. Qed.

Lemma countBad_zero (ps : list string) (p : string) :
  countBad ps = 0 -> In p ps -> malformed p = false.
Proof.
  intros H Hin. destruct (malformed p) eqn:Hm; [|reflexivity].
  exfalso. apply (proj2 (countBad_positive ps)); [|exact H]. now exists p.
Qed.

Lemma newPatterns_always (ps : list string) :
  countBad ps = 0 -> In "**" ps -> always (fst (newPatterns ps)) = true.
Proof.
  intros Hbad Hin. rewrite (newPatterns_compiled _ Hbad).
  apply always_In. apply in_flat_map. exists "**". split; [exact Hin|now left].
Qed.

Lemma matchStep_active (fuel : nat) (fsys : FS) (yield : yieldFn) (dir : string)
    (yieldDir includeDirs : bool) (include0 exclude0 : list pattern) :
  always include0 = true ->
  matchStep fuel fsys yield dir yieldDir includeDirs include0 exclude0
  = matchStep fuel fsys yield dir yieldDir includeDirs [["**"]] exclude0.
Proof.
  intros Ha. destruct fuel as [|fuel]; [reflexivity|].
  cbn [matchStep]. rewrite Ha. reflexivity.
Qed.

(** X5.  Once [**] is an include string, the other include strings have no
    effect: the glob that [New] builds behaves, in [MatchPath] and in
    [Match], as the glob built from the include [**] alone and the same
    excludes (line 183 for [Match]). *)
Theorem other_includes_are_idle_beside_levels
    (includes excludes : list string) (g : Glob) :
  New includes excludes = (Some g, None) ->
  In "**" includes ->
  exists g',
    New ["**"] excludes = (Some g', None)
    /\ (forall p, Glob_MatchPath g p = Glob_MatchPath g' p)
    /\ (forall fuel fsys yield dir includeDirs,
          Glob_Match fuel g fsys yield dir includeDirs
          = Glob_Match fuel g' fsys yield dir includeDirs).
Proof.
  intros HNew Hin. apply New_strategy in HNew.
  destruct HNew as [He _|H1 H2|H1 Hi He Hbad].
  - exists allGlob. subst excludes. repeat split; reflexivity.
  - exists noneGlob. split; [|split; reflexivity].
    apply New_strategy. destruct H2 as [->|H2]; [contradiction|].
    apply useNone; [|now right]. left. intros ->. contradiction.
  - rewrite countBad_app in Hbad.
    assert (Hbi : countBad includes = 0) by lia.
    assert (Hbe : countBad excludes = 0) by lia.
    destruct H1 as [H1|H1]; [|contradiction].
    exists (matchGlobOf {| include := fst (newPatterns ["**"]);
                           exclude := fst (newPatterns excludes) |}).
    split; [|split].
    + apply New_strategy. apply useMatch.
      * now left.
      * discriminate.
      * exact He.
      * rewrite countBad_app, Hbe. reflexivity.
    + intros p. cbn [Glob_MatchPath].
      pose proof (newPatterns_nonEmpty includes) as Hni.
      pose proof (newPatterns_nonEmpty excludes) as Hne.
      assert (Hall : Forall nonEmpty [["**"]]) by (repeat constructor; discriminate).
      rewrite !MatchPath_accepts; cbn [include exclude]; auto.
      destruct (segments p) as [|n names]; [reflexivity|].
      rewrite (accepts_always (n :: names) _ (newPatterns_always _ Hbi Hin))
        by discriminate.
      change (fst (newPatterns ["**"])) with [["**"]].
      now rewrite accepts_levels by discriminate.
    + intros fuel fsys yield dir includeDirs. cbn [Glob_Match include exclude].
      now rewrite (matchStep_active _ _ _ _ _ _ _ _ (newPatterns_always _ Hbi Hin)).
Qed.

(** The include strings [a] and [**] with the exclude string [vendor]. *)
Lemma other_includes_are_idle_beside_levels_witness :
  exists g',
    New ["**"] ["vendor"] = (Some g', None)
    /\ (forall p,
          Glob_MatchPath (matchGlobOf {| include := [["a"]; ["**"]];
                                         exclude := [["vendor"]] |}) p
          = Glob_MatchPath g' p)
    /\ (forall fuel fsys yield dir includeDirs,
          Glob_Match fuel (matchGlobOf {| include := [["a"]; ["**"]];
                                          exclude := [["vendor"]] |})
                     fsys yield dir includeDirs
          = Glob_Match fuel g' fsys yield dir includeDirs).
Proof.
  apply (other_includes_are_idle_beside_levels ["a"; "**"] ["vendor"]).
  - reflexivity.
  - right. left. reflexivity.
Defined.

(** X4.  Exclusion is inherited.  If the excludes reject a path even when
    every path is included (the include [**]), then whatever the includes
    are, [MatchPath] rejects that path and every path below it. *)
Theorem excluded_directory_excludes_its_subtree
    (includes excludes : list string) (g gx : Glob) (p : string) :
  New ["**"] excludes = (Some gx, None) ->
  New includes excludes = (Some g, None) ->
  segments p <> [] ->
  Glob_MatchPath gx p = Some false ->
  forall q, Glob_MatchPath g p = Some false
            /\ Glob_MatchPath g (p ++ "/" ++ q) = Some false.
Proof.
  intros Hx HNew Hp Hrej q.
  apply New_strategy in Hx. apply New_strategy in HNew.
  destruct Hx as [| |Hx1 _ Hx2 Hbx]; [discriminate| |].
  - destruct HNew as [He _|H1 H2|H1 Hi He Hbad]; try (split; reflexivity).
    + subst excludes. destruct H0 as [H0|H0]; [discriminate|]. now destruct H0.
    + destruct H0 as [H0|H0]; [discriminate|contradiction].
  - destruct HNew as [He _|H1 H2|H1 Hi He Hbad]; try (split; reflexivity).
    + subst excludes. destruct Hx1 as [Hx1|Hx1]; [congruence|]. exfalso. apply Hx1. now left.
    + cbn [Glob_MatchPath] in *.
      pose proof (newPatterns_nonEmpty includes) as Hni.
      pose proof (newPatterns_nonEmpty excludes) as Hne.
      assert (Hall : Forall nonEmpty [["**"]]) by (repeat constructor; discriminate).
      rewrite MatchPath_accepts in Hrej; cbn [include exclude]; auto.
      cbn [include exclude] in Hrej.
      change (fst (newPatterns ["**"])) with [["**"]] in Hrej.
      rewrite (accepts_levels _ Hp) in Hrej. injection Hrej as Hrej.
      apply negb_false_iff in Hrej.
      rewrite !MatchPath_accepts; cbn [include exclude]; auto.
      rewrite segments_app, (excluded_extends _ _ _ Hrej), Hrej.
      now rewrite !andb_false_r.
Qed.

(** The exclude [vendor] rejects [vendor], and with it [vendor/x/y.go],
    which the include [**/*.go] would accept. *)
Lemma excluded_directory_excludes_its_subtree_witness :
  Glob_MatchPath (matchGlobOf {| include := [["**"; "*.go"]; ["*.go"]];
                                 exclude := [["vendor"]] |}) "vendor" = Some false
  /\ Glob_MatchPath (matchGlobOf {| include := [["**"; "*.go"]; ["*.go"]];
                                    exclude := [["vendor"]] |})
                    ("vendor" ++ "/" ++ "x/y.go") = Some false.
Proof.
  apply (excluded_directory_excludes_its_subtree ["**/*.go"] ["vendor"]
           (matchGlobOf {| include := [["**"; "*.go"]; ["*.go"]];
                           exclude := [["vendor"]] |})
           (matchGlobOf {| include := [["**"]]; exclude := [["vendor"]] |})
           "vendor"); [reflexivity|reflexivity|discriminate|reflexivity].
Defined.

(** ** [pattern.String] *)

Lemma splitSlash_pieces (s t : string) :
  In t (splitSlash s) -> containsByte "/" t = false.
Proof.
  revert t. induction s as [|c s IH]; intros t Hin.
  - destruct Hin as [<-|[]]. reflexivity.
  - cbn [splitSlash] in Hin. destruct (c =? "/")%char eqn:Hc.
    + destruct Hin as [<-|Hin]; [reflexivity|now apply IH].
    + destruct (splitSlash s) as [|x xs].
      * destruct Hin as [<-|[]]. cbn [containsByte].
        rewrite Ascii.eqb_sym, Hc. reflexivity.
      * destruct Hin as [<-|Hin].
        -- cbn [containsByte]. rewrite Ascii.eqb_sym, Hc.
           apply IH. now left.
        -- apply IH. now right.
Qed.

Lemma segments_pieces (s t : string) :
  In t (segments s) -> t <> "" /\ containsByte "/" t = false.
Proof.
  unfold segments. intros Hin. apply filter_In in Hin as [Hin Hne]. split.
  - intros ->. discriminate.
  - now apply (splitSlash_pieces s).
Qed.

Lemma length_positive (s : string) : s <> "" -> (0 <? String.length s)%nat = true.
Proof. destruct s; [congruence|reflexivity]. Qed.

Lemma length_append (a b : string) :
  String.length (a ++ b) = String.length a + String.length b.
Proof. induction a; simpl; auto. Qed.

Lemma joinBuf_plain (l : list string) :
  plainNames l ->
  forall buf, buf <> "" ->
    GoPath.joinBuf buf l = String.concat "/" (buf :: l).
Proof.
  induction l as [|e l IH]; intros Hl buf Hbuf; [reflexivity|].
  inversion Hl as [|? ? He Hl']; subst.
  cbn [GoPath.joinBuf]. rewrite (length_positive _ Hbuf). cbn [orb].
  rewrite IH; [|exact Hl'|].
  - destruct l; cbn [String.concat]; now rewrite !append_assoc.
  - rewrite append_assoc. destruct buf; [congruence|discriminate].
Qed.

Lemma size_positive (l : list string) :
  forall n, (0 < n)%nat ->
    (0 < fold_left (fun size e => size + String.length e) l n)%nat.
Proof.
  induction l as [|e l IH]; intros n Hn; [exact Hn|].
  cbn [fold_left]. apply IH. lia.
Qed.

Lemma JoinAll_plain (l : list string) :
  plainNames l -> l <> [] -> GoPath.JoinAll l = String.concat "/" l.
Proof.
  intros Hl Hne. destruct l as [|e l]; [congruence|].
  inversion Hl as [|? ? He Hl']; subst.
  pose proof (plainName_inv _ He) as (He0 & _).
  assert (Hne' : e <> "") by (intros ->; discriminate).
  unfold GoPath.JoinAll. cbn [fold_left].
  assert (Hpos : (0 < String.length e)%nat) by (destruct e; [congruence|simpl; lia]).
  pose proof (size_positive l (0 + String.length e) ltac:(lia)) as Hsize.
  destruct (fold_left _ l (0 + String.length e)) as [|k] eqn:Hk; [lia|].
  cbn [Nat.eqb]. cbn [GoPath.joinBuf String.length Nat.ltb Nat.leb orb].
  rewrite He0. cbn [negb]. change ("" ++ e)%string with e.
  rewrite (joinBuf_plain l Hl' e Hne').
  now apply Clean_plain.
Qed.

Lemma segments_concat (l : list string) :
  plainNames l -> l <> [] -> segments (String.concat "/" l) = l.
Proof.
  intros Hl Hne. unfold segments. rewrite (splitSlash_concat _ Hl Hne).
  clear Hne. induction Hl as [|e l He Hl IH]; [reflexivity|].
  cbn [filter]. apply plainName_inv in He as (He & _). rewrite He. cbn [negb].
  now rewrite IH.
Qed.

Lemma compiled_terms (s : string) (q : pattern) :
  In q (compiled s) ->
  q = [""] \/ (q <> [] /\ forall t, In t q -> In t (segments s)).
Proof.
  unfold compiled, terms. intros Hin.
  destruct (segments s) as [|step0 [|step1 rest]] eqn:Hs.
  - left. now destruct Hin as [<-|[]].
  - right. destruct Hin as [<-|[]]. split; [discriminate|auto].
  - right. destruct (step0 =? "**").
    + destruct Hin as [<-|[<-|[]]]; (split; [discriminate|]); intros t Ht; auto.
      now right.
    + destruct Hin as [<-|[]]. split; [discriminate|auto].
Qed.

(** X7.  [pattern.String] and [newPattern] are inverse to each other on the
    patterns that [newPattern] builds, as long as no term is [.] or [..]
    (which [path.Join] would resolve): the string of such a pattern has the
    pattern for its terms, and compiling it, if [path.Match] accepts it,
    appends the pattern again, followed by its advancement when it starts
    with [**]. *)
Theorem String_round_trip (s : string) (patterns : list pattern) (q : pattern) :
  In q (fst (newPattern s [])) ->
  Forall (fun t => t <> "." /\ t <> "..") q ->
  terms (pattern_String q) = q
  /\ (malformed (pattern_String q) = false ->
      newPattern (pattern_String q) patterns
      = (patterns ++ q :: match q with
                          | step0 :: (_ :: _) as rest =>
                              if step0 =? "**" then [rest] else []
                          | _ => []
                          end, None)).
Proof.
  intros Hin Hdots.
  assert (Hterms : terms (pattern_String q) = q).
  { destruct (malformed s) eqn:Hm.
    - rewrite (newPattern_malformed _ _ Hm) in Hin. destruct Hin.
    - rewrite (newPattern_compiled _ _ Hm) in Hin. cbn [fst app] in Hin.
      apply compiled_terms in Hin as [->|[Hne Hsegs]]; [reflexivity|].
      assert (Hplain : plainNames q).
      { apply Forall_forall. intros t Ht.
        destruct (segments_pieces _ _ (Hsegs _ Ht)) as [H0 Hslash].
        rewrite Forall_forall in Hdots. destruct (Hdots _ Ht) as [H1 H2].
        unfold plain, plainName. rewrite Hslash.
        apply String.eqb_neq in H0, H1, H2. now rewrite H0, H1, H2. }
      unfold pattern_String, terms. rewrite (JoinAll_plain _ Hplain Hne).
      rewrite (segments_concat _ Hplain Hne). destruct q; [congruence|reflexivity]. }
  split; [exact Hterms|].
  intros Hm. rewrite (newPattern_compiled _ _ Hm). f_equal. f_equal.
  unfold compiled. rewrite Hterms.
  destruct q as [|step0 [|step1 rest]]; try reflexivity.
  now destruct (step0 =? "**").
Qed.

(** The pattern that [/**//a?/*.go/] compiles to. *)
Lemma String_round_trip_witness :
  terms (pattern_String ["**"; "a?"; "*.go"]) = ["**"; "a?"; "*.go"]
  /\ (malformed (pattern_String ["**"; "a?"; "*.go"]) = false ->
      newPattern (pattern_String ["**"; "a?"; "*.go"]) [["x"]]
      = ([["x"]; ["**"; "a?"; "*.go"]; ["a?"; "*.go"]], None)).
Proof.
  apply (String_round_trip "/**//a?/*.go/" [["x"]] ["**"; "a?"; "*.go"]).
  - left. reflexivity.
  - repeat constructor; discriminate.
Defined.

(** ** The literal fast path against the general path *)

Lemma append_empty (s : string) : (s ++ "")%string = s.
Proof. induction s as [|c s IH]; simpl; congruence. Qed.

Lemma chunkLoop_literal (s : string) :
  hasMeta s = false ->
  forall fuel n failed t,
    GoPath.chunkLoop fuel s n failed = Some (t, true) ->
    failed = false /\ n = (s ++ t)%string.
Proof.
  induction s as [|c s IH]; intros H fuel n failed t Hc.
  - destruct fuel; cbn [GoPath.chunkLoop] in Hc;
      destruct failed; inversion Hc; now split.
  - apply hasMeta_cons in H as (_ & Hq & Hb & He & Hs).
    destruct fuel as [|fuel]; [discriminate|].
    cbn [GoPath.chunkLoop] in Hc. unfold GoPath.chunkRound in Hc.
    rewrite Hb, Hq, He in Hc.
    destruct (failed || (String.length n =? 0)%nat) eqn:Hf.
    + apply (IH Hs) in Hc as [Hc _]. discriminate.
    + apply orb_false_iff in Hf as [-> Hn].
      apply (IH Hs) in Hc as [Hc Hrest]. split; [reflexivity|].
      apply negb_false_iff, Ascii.eqb_eq in Hc.
      destruct n as [|d n]; [discriminate|]. cbn [byte0 from1] in *. now subst.
Qed.

Lemma match_noMeta_only (s n : string) :
  hasMeta s = false -> match_ s n = true -> n = s.
Proof.
  intros H Hm. unfold match_ in Hm.
  destruct (GoPath.Match s n) as [[|]|] eqn:HM; try discriminate. clear Hm.
  unfold GoPath.Match in HM. destruct s as [|c t].
  - cbn in HM. injection HM as HM. destruct n; [reflexivity|discriminate].
  - pose proof (scan_noMeta _ H false) as Hscan.
    pose proof (hasMeta_cons _ _ H) as (Hs & _).
    cbn [String.length GoPath.matchLoop] in HM.
    unfold GoPath.matchRound, GoPath.scanChunk in HM. cbn [GoPath.dropStars] in HM.
    rewrite Hs, Hscan in HM. cbn [andb String.length Nat.eqb negb orb] in HM.
    unfold GoPath.matchChunk in HM.
    destruct (GoPath.chunkLoop _ (String c t) n false) as [[t' [|]]|] eqn:Hc.
    + apply (chunkLoop_literal _ H) in Hc as [_ ->].
      destruct t' as [|d t'].
      * apply append_empty.
      * cbn [String.length Nat.eqb orb] in HM.
        destruct (String.length t); discriminate.
    + destruct (String.length t); discriminate.
    + discriminate.
Qed.

Lemma match_literal (s n : string) :
  hasMeta s = false -> match_ s n = (s =? n).
Proof.
  intros H. destruct (String.eqb_spec s n) as [<-|Hne].
  - now apply match_noMeta.
  - destruct (match_ s n) eqn:Hm; [|reflexivity].
    apply (match_noMeta_only _ _ H) in Hm. congruence.
Qed.

(** X8.  What [literal] returns stands for what the general path computes.
    When [literal] finds the name [name] and the set [next], then for every
    entry name [n] the loops over [matchDir] and [matchFile] give no match
    and no pattern unless [n] is [name], and for [name] they give the set
    [next], with a match exactly when [next] is empty: probing the one
    entry [name] misses nothing that listing the directory would find. *)
Theorem literal_agrees_with_matchDir (ps : list pattern) (name : string)
    (next : list pattern) :
  literal ps = Some (name, next, true) ->
  forall n,
    matchDirAll ps n [] false
    = Some ((name =? n) && (len next =? 0)%nat, if name =? n then next else [])
    /\ matchFileAny ps n = (name =? n) && (len next =? 0)%nat.
Proof.
  intros Hl n. apply literal_inv in Hl as (rest & -> & Hmeta & ->).
  cbn [matchDirAll matchDir matchFileAny existsb matchFile].
  rewrite (noMeta_not_levels _ Hmeta), (match_literal _ n Hmeta).
  destruct (name =? n); destruct rest; split; reflexivity.
Qed.

(** The include [lib/*.go] and the entry [lib]. *)
Lemma literal_agrees_with_matchDir_witness :
  matchDirAll [["lib"; "*.go"]] "lib" [] false
  = Some (("lib" =? "lib") && (len [["*.go"]] =? 0)%nat,
          if "lib" =? "lib" then [["*.go"]] else [])
  /\ matchFileAny [["lib"; "*.go"]] "lib" = ("lib" =? "lib") && (len [["*.go"]] =? 0)%nat.
Proof.
  apply (literal_agrees_with_matchDir [["lib"; "*.go"]] "lib" [["*.go"]]).
  reflexivity.
Defined.

(** ** The walker stops when the consumer does *)

Lemma accepted_nil (yield : yieldFn) : accepted yield [].
Proof. intros [|] ? ? H; discriminate. Qed.

Lemma split_last (pre : list item) (it : item) (post l : list item) (x : item) :
  l ++ [x] = pre ++ it :: post ->
  (post = [] /\ pre = l /\ it = x) \/ (exists post', post = post' ++ [x] /\ l = pre ++ it :: post').
Proof.
  intros H. destruct (exists_last (l := it :: post)) as (post0 & y & Hy); [discriminate|].
  destruct post as [|z post].
  - left. apply app_inj_tail in H as [-> ->]. auto.
  - right. destruct (exists_last (l := z :: post)) as (post' & y' & Hy'); [discriminate|].
    rewrite Hy' in H. change (pre ++ it :: post' ++ [y']) with (pre ++ (it :: post') ++ [y']) in H.
    rewrite app_assoc in H. apply app_inj_tail in H as [-> ->].
    exists post'. now split.
Qed.

Lemma accepted_snoc (yield : yieldFn) (l : list item) (x : item) :
  accepted yield l -> yield l x = true -> accepted yield (l ++ [x]).
Proof.
  intros Hl Hx pre it post H.
  apply split_last in H as [(-> & -> & ->)|(post' & -> & ->)]; [exact Hx|].
  now apply (Hl pre it post').
Qed.

Lemma accepted_obedient (yield : yieldFn) (l : list item) :
  accepted yield l -> obedient yield l.
Proof. intros H pre it post Heq _. now apply (H pre it post). Qed.

Lemma refused_obedient (yield : yieldFn) (l : list item) :
  refused yield l -> obedient yield l.
Proof.
  intros (l0 & x & -> & Hl & _) pre it post H Hpost.
  apply split_last in H as [(-> & _)|(post' & -> & ->)]; [congruence|].
  now apply (Hl pre it post').
Qed.

Lemma polite_ret (yield : yieldFn) : polite yield (ret true).
Proof. intros st H. exact H. Qed.

Lemma polite_yieldItem (yield : yieldFn) (p : string) (e : option error) :
  polite yield (yieldItem yield p e).
Proof.
  intros st H. unfold yieldItem. destruct (yield (emitted st) (p, e)) eqn:Hy; cbn [emitted].
  - now apply accepted_snoc.
  - exists (emitted st), (p, e). auto.
Qed.

Lemma polite_yieldSelf (yield : yieldFn) (dir : string) (a b : bool) :
  polite yield (yieldSelf yield dir a b).
Proof.
  unfold yieldSelf. destruct (a && b); [apply polite_yieldItem|apply polite_ret].
Qed.

Lemma polite_silent {A} (yield : yieldFn) (m : M A) (f : A -> M bool) :
  silent m -> (forall a, polite yield (f a)) -> polite yield (bind m f).
Proof.
  intros Hm Hf st H. unfold bind. specialize (Hm st).
  destruct (m st) as [a st'|st'|st'] eqn:E; cbn [stateOf] in Hm.
  - apply Hf. now rewrite Hm.
  - now rewrite Hm.
  - now rewrite Hm.
Qed.

Lemma polite_then (yield : yieldFn) (m k : M bool) :
  polite yield m -> polite yield k ->
  polite yield (ok <- m ;; if negb ok then ret false else k).
Proof.
  intros Hm Hk st H. unfold bind. specialize (Hm st H).
  destruct (m st) as [[|] st'|st'|st']; cbn [negb]; auto.
  now apply Hk.
Qed.

Lemma polite_forEach {A} (yield : yieldFn) (body : A -> M bool) (l : list A) :
  (forall x, polite yield (body x)) -> polite yield (forEach body l).
Proof.
  intros Hbody. induction l as [|x l IH]; [apply polite_ret|].
  intros st H. cbn [forEach]. unfold bind. specialize (Hbody x st H).
  destruct (body x st) as [[|] st'|st'|st']; auto.
  now apply IH.
Qed.

Lemma silent_fsReadDir (fsys : FS) (dir : string) : silent (fsReadDir fsys dir).
Proof. intros st. reflexivity. Qed.

Lemma silent_fsStat (fsys : FS) (name : string) : silent (fsStat fsys name).
Proof. intros st. reflexivity. Qed.

Lemma silent_orPanic {A} (o : option A) : silent (orPanic o).
Proof. intros st. now destruct o. Qed.

Lemma allStep_polite (fsys : FS) (yield : yieldFn) (fuel : nat) :
  forall dir yieldDir includeDirs,
    polite yield (allStep fuel fsys yield dir yieldDir includeDirs).
Proof.
  induction fuel as [|fuel IH]; intros dir yieldDir includeDirs.
  - intros st H. exact H.
  - cbn [allStep]. apply polite_silent; [apply silent_fsReadDir|].
    intros [infos|err]; [|apply polite_yieldItem].
    apply polite_then; [apply polite_yieldSelf|].
    apply polite_forEach. intros i.
    destruct (IsDir i); [apply IH|apply polite_yieldItem].
Qed.

Lemma entryStep_polite (yield : yieldFn) (rec : stepFn) (dir : string)
    (includeDirs : bool) (include exclude : list pattern) (i : DirEntry) :
  politeStep yield rec ->
  polite yield (entryStep rec yield dir includeDirs include exclude i).
Proof.
  intros Hrec. unfold entryStep.
  assert (Hfinish : forall b : bool,
             polite yield (if b then yieldItem yield (GoPath.Join dir (Name i)) None
                           else ret true)).
  { intros [|]; [apply polite_yieldItem|apply polite_ret]. }
  destruct (negb (IsDir i)).
  - destruct (matchFileAny exclude (Name i)); [apply polite_ret|apply Hfinish].
  - apply polite_silent; [apply silent_orPanic|]. intros [excluded nextExclude].
    destruct excluded; [apply polite_ret|].
    apply polite_silent; [apply silent_orPanic|]. intros [hit nextInclude].
    destruct (negb (len nextInclude =? 0)%nat && negb (always nextExclude)).
    + apply polite_then; [apply Hrec|apply (Hfinish false)].
    + apply Hfinish.
Qed.

Lemma listStep_polite (fsys : FS) (yield : yieldFn) (rec : stepFn) (dir : string)
    (yieldDir includeDirs : bool) (include exclude : list pattern) :
  politeStep yield rec ->
  polite yield (listStep rec fsys yield dir yieldDir includeDirs include exclude).
Proof.
  intros Hrec. unfold listStep.
  apply polite_silent; [apply silent_fsReadDir|].
  intros [infos|err]; [|apply polite_yieldItem].
  apply polite_then; [apply polite_yieldSelf|].
  apply polite_forEach. intros i. now apply entryStep_polite.
Qed.

Lemma literalStep_polite (fsys : FS) (yield : yieldFn) (rec : stepFn) (dir : string)
    (includeDirs : bool) (exclude : list pattern) (name : string)
    (nextInclude : list pattern) :
  politeStep yield rec ->
  polite yield (literalStep rec fsys yield dir includeDirs exclude name nextInclude).
Proof.
  intros Hrec. unfold literalStep.
  destruct (matchFileAny exclude name); [apply polite_ret|].
  apply polite_silent; [apply silent_fsStat|].
  intros [isDir|err].
  - destruct isDir; [|apply polite_yieldItem].
    apply polite_silent; [apply silent_orPanic|]. intros x.
    destruct (negb (len nextInclude =? 0)%nat && negb (always (snd x))); [apply Hrec|].
    destruct (negb includeDirs); [apply polite_ret|apply polite_yieldItem].
  - destruct (errors_Is_ErrNotExist err); [apply polite_ret|apply polite_yieldItem].
Qed.

Lemma matchStep_polite (fsys : FS) (yield : yieldFn) (fuel : nat) :
  politeStep yield (matchStep fuel fsys yield).
Proof.
  induction fuel as [|fuel IH]; intros dir yieldDir includeDirs include exclude.
  - intros st H. exact H.
  - cbn [matchStep]. destruct (always include).
    + destruct (len exclude =? 0)%nat; [apply allStep_polite|now apply listStep_polite].
    + apply polite_silent; [apply silent_orPanic|]. intros [[name nextInclude] ok].
      destruct ok; [now apply literalStep_polite|now apply listStep_polite].
Qed.

(** X9.  [Match] never hands over an item after one that the consumer
    refused, whatever the strategy, the file system, the patterns and the
    depth reached.  The walk returns [false] exactly when its last item was
    refused, and every item before that one was accepted. *)
Theorem Match_stops_when_the_consumer_does (fuel : nat) (g : Glob) (fsys : FS)
    (yield : yieldFn) (dir : string) (includeDirs : bool) :
  obedient yield (emitted (stateOf (Glob_Match fuel g fsys yield dir includeDirs)))
  /\ match Glob_Match fuel g fsys yield dir includeDirs with
     | Done false st => refused yield (emitted st)
     | Done true st | Panic st | OutOfFuel st => accepted yield (emitted st)
     end.
Proof.
  assert (H : match Glob_Match fuel g fsys yield dir includeDirs with
              | Done false st => refused yield (emitted st)
              | Done true st | Panic st | OutOfFuel st => accepted yield (emitted st)
              end).
  { destruct g as [| |g]; cbn [Glob_Match].
    - pose proof (allStep_polite fsys yield fuel dir false includeDirs start
                    (accepted_nil yield)) as H.
      now destruct (allStep _ _ _ _ _ _ _) as [[|] ?|?|?].
    - apply accepted_nil.
    - pose proof (matchStep_polite fsys yield fuel dir false includeDirs
                    (include g) (exclude g) start (accepted_nil yield)) as H.
      now destruct (matchStep _ _ _ _ _ _ _ _ _) as [[|] ?|?|?]. }
  split; [|exact H].
  destruct (Glob_Match fuel g fsys yield dir includeDirs) as [[|] st|st|st];
    cbn [stateOf]; auto using accepted_obedient, refused_obedient.
Qed.

(** ** What the walker hands over *)

Lemma emitsOnly_silent {A} (Q : item -> Prop) (m : M A) :
  silent m -> emitsOnly Q m.
Proof. intros H st it Hin. left. now rewrite H in Hin. Qed.

Lemma emitsOnly_ret {A} (Q : item -> Prop) (a : A) : emitsOnly Q (ret a).
Proof. intros st it Hin. now left. Qed.

Lemma emitsOnly_mono {A} (Q Q' : item -> Prop) (m : M A) :
  (forall it, Q it -> Q' it) -> emitsOnly Q m -> emitsOnly Q' m.
Proof. intros HQ Hm st it Hin. destruct (Hm st it Hin); auto. Qed.

Lemma emitsOnly_bind {A B} (Q : item -> Prop) (m : M A) (f : A -> M B) :
  emitsOnly Q m -> (forall a, emitsOnly Q (f a)) -> emitsOnly Q (bind m f).
Proof.
  intros Hm Hf st it. unfold bind. specialize (Hm st it).
  destruct (m st) as [a st'|st'|st'] eqn:E; cbn [stateOf] in *; auto.
  intros Hin. destruct (Hf a st' it Hin); auto.
Qed.

Lemma emitsOnly_orPanic {A B} (Q : item -> Prop) (o : option A) (f : A -> M B) :
  (forall a, o = Some a -> emitsOnly Q (f a)) ->
  emitsOnly Q (bind (orPanic o) f).
Proof.
  intros Hf st it. destruct o as [a|]; [now apply Hf|]. now left.
Qed.

Lemma emitsOnly_forEach {A} (Q : item -> Prop) (body : A -> M bool) (l : list A) :
  (forall x, In x l -> emitsOnly Q (body x)) -> emitsOnly Q (forEach body l).
Proof.
  induction l as [|x l IH]; intros Hbody; [apply emitsOnly_ret|].
  cbn [forEach]. apply emitsOnly_bind; [apply Hbody; now left|].
  intros [|]; [|apply emitsOnly_ret]. apply IH. intros y Hy. apply Hbody. now right.
Qed.

Lemma emitsOnly_yieldItem (Q : item -> Prop) (yield : yieldFn) (p : string)
    (e : option error) :
  Q (p, e) -> emitsOnly Q (yieldItem yield p e).
Proof.
  intros HQ st it Hin. cbn in Hin. apply in_app_or in Hin as [Hin|[<-|[]]]; auto.
Qed.

Lemma emitsOnly_fsReadDir {B} (Q : item -> Prop) (fsys : FS) (dir : string)
    (f : result (list DirEntry) -> M B) :
  emitsOnly Q (f (ReadDir fsys dir)) -> emitsOnly Q (bind (fsReadDir fsys dir) f).
Proof. intros Hf st it Hin. apply Hf in Hin. exact Hin. Qed.

Lemma emitsOnly_fsStat {B} (Q : item -> Prop) (fsys : FS) (name : string)
    (f : result bool -> M B) :
  emitsOnly Q (f (Stat fsys name)) -> emitsOnly Q (bind (fsStat fsys name) f).
Proof. intros Hf st it Hin. apply Hf in Hin. exact Hin. Qed.

(** *** Errors *)

Lemma fault_nil (fsys : FS) (p : string) : fault fsys (p, None).
Proof. exact I. Qed.

Lemma allStep_faults (fsys : FS) (yield : yieldFn) (fuel : nat) :
  forall dir yieldDir includeDirs,
    emitsOnly (fault fsys) (allStep fuel fsys yield dir yieldDir includeDirs).
Proof.
  induction fuel as [|fuel IH]; intros dir yieldDir includeDirs.
  - intros st it Hin. now left.
  - cbn [allStep]. apply emitsOnly_fsReadDir.
    destruct (ReadDir fsys dir) as [infos|err] eqn:Hread.
    + apply emitsOnly_bind.
      * unfold yieldSelf. destruct (yieldDir && includeDirs);
          [apply emitsOnly_yieldItem, fault_nil|apply emitsOnly_ret].
      * intros ok. destruct (negb ok); [apply emitsOnly_ret|].
        apply emitsOnly_forEach. intros i _.
        destruct (IsDir i); [apply IH|apply emitsOnly_yieldItem, fault_nil].
    + apply emitsOnly_yieldItem. left. exact Hread.
Qed.

Lemma entryStep_faults (fsys : FS) (yield : yieldFn) (rec : stepFn) (dir : string)
    (includeDirs : bool) (include exclude : list pattern) (i : DirEntry) :
  faultStep fsys rec ->
  emitsOnly (fault fsys) (entryStep rec yield dir includeDirs include exclude i).
Proof.
  intros Hrec. unfold entryStep.
  assert (Hfinish : forall b : bool,
             emitsOnly (fault fsys)
               (if b then yieldItem yield (GoPath.Join dir (Name i)) None
                else ret true)).
  { intros [|]; [apply emitsOnly_yieldItem, fault_nil|apply emitsOnly_ret]. }
  destruct (negb (IsDir i)).
  - destruct (matchFileAny exclude (Name i)); [apply emitsOnly_ret|apply Hfinish].
  - apply emitsOnly_orPanic. intros [excluded nextExclude] _.
    destruct excluded; [apply emitsOnly_ret|].
    apply emitsOnly_orPanic. intros [hit nextInclude] _.
    destruct (negb (len nextInclude =? 0)%nat && negb (always nextExclude)).
    + apply emitsOnly_bind; [apply Hrec|].
      intros ok. destruct (negb ok); [apply emitsOnly_ret|apply (Hfinish false)].
    + apply Hfinish.
Qed.

Lemma listStep_faults (fsys : FS) (yield : yieldFn) (rec : stepFn) (dir : string)
    (yieldDir includeDirs : bool) (include exclude : list pattern) :
  faultStep fsys rec ->
  emitsOnly (fault fsys)
            (listStep rec fsys yield dir yieldDir includeDirs include exclude).
Proof.
  intros Hrec. unfold listStep. apply emitsOnly_fsReadDir.
  destruct (ReadDir fsys dir) as [infos|err] eqn:Hread.
  - apply emitsOnly_bind.
    + unfold yieldSelf. destruct (yieldDir && includeDirs);
        [apply emitsOnly_yieldItem, fault_nil|apply emitsOnly_ret].
    + intros ok. destruct (negb ok); [apply emitsOnly_ret|].
      apply emitsOnly_forEach. intros i _. now apply entryStep_faults.
  - apply emitsOnly_yieldItem. left. exact Hread.
Qed.

Lemma literalStep_faults (fsys : FS) (yield : yieldFn) (rec : stepFn) (dir : string)
    (includeDirs : bool) (exclude : list pattern) (name : string)
    (nextInclude : list pattern) :
  faultStep fsys rec ->
  emitsOnly (fault fsys)
            (literalStep rec fsys yield dir includeDirs exclude name nextInclude).
Proof.
  intros Hrec. unfold literalStep.
  destruct (matchFileAny exclude name); [apply emitsOnly_ret|].
  apply emitsOnly_fsStat.
  destruct (Stat fsys (GoPath.Join dir name)) as [isDir|err] eqn:Hstat.
  - destruct isDir; [|apply emitsOnly_yieldItem, fault_nil].
    apply emitsOnly_orPanic. intros x _.
    destruct (negb (len nextInclude =? 0)%nat && negb (always (snd x))); [apply Hrec|].
    destruct (negb includeDirs); [apply emitsOnly_ret|apply emitsOnly_yieldItem, fault_nil].
  - destruct (errors_Is_ErrNotExist err) eqn:Hne; [apply emitsOnly_ret|].
    apply emitsOnly_yieldItem. right. exists name. now split.
Qed.

Lemma matchStep_faults (fsys : FS) (yield : yieldFn) (fuel : nat) :
  faultStep fsys (matchStep fuel fsys yield).
Proof.
  induction fuel as [|fuel IH]; intros dir yieldDir includeDirs include exclude.
  - intros st it Hin. now left.
  - cbn [matchStep]. destruct (always include).
    + destruct (len exclude =? 0)%nat; [apply allStep_faults|now apply listStep_faults].
    + apply emitsOnly_orPanic. intros [[name nextInclude] ok] _.
      destruct ok; [now apply literalStep_faults|now apply listStep_faults].
Qed.

(** X10.  An item with an error names a directory that the walk could not
    list, together with the error of the listing, or a directory in which
    the probe of the literal fast path failed, together with the error of
    the probe; in the second case the error is never a not-exist error. *)
Theorem Match_reports_only_failed_operations (fuel : nat) (g : Glob) (fsys : FS)
    (yield : yieldFn) (dir : string) (includeDirs : bool) (p : string) (err : error) :
  In (p, Some err)
     (emitted (stateOf (Glob_Match fuel g fsys yield dir includeDirs))) ->
  ReadDir fsys p = Err err
  \/ exists name,
       Stat fsys (GoPath.Join p name) = Err err /\ errors_Is_ErrNotExist err = false.
Proof.
  intros Hin. destruct g as [| |g]; cbn [Glob_Match stateOf] in Hin.
  - now destruct (allStep_faults fsys yield fuel dir false includeDirs start _ Hin).
  - destruct Hin.
  - now destruct (matchStep_faults fsys yield fuel dir false includeDirs
                    (include g) (exclude g) start _ Hin).
Qed.

(** The include [lib/*.go] on a file system that refuses every
    operation. *)
Lemma Match_reports_only_failed_operations_witness :
  ReadDir deniedFS "." = Err ErrPermission
  \/ exists name,
       Stat deniedFS (GoPath.Join "." name) = Err ErrPermission
       /\ errors_Is_ErrNotExist ErrPermission = false.
Proof.
  apply (Match_reports_only_failed_operations 1
           (matchGlobOf {| include := [["lib"; "*.go"]]; exclude := [] |})
           deniedFS collect "." true "." ErrPermission).
  left. reflexivity.
Defined.

(** *** Items without error *)

Lemma accepts_one (n : string) (ps : list pattern) :
  accepts [n] ps = matchFileAny ps n.
Proof. reflexivity. Qed.

Lemma accepts_cons (n : string) (names : list string) (ps : list pattern) :
  names <> [] -> accepts (n :: names) ps = accepts names (advance n ps).
Proof. destruct names; [congruence|reflexivity]. Qed.

Lemma reach_entry (elems : list string) (include0 exclude0 : list pattern)
    (yieldDir : bool) (n : string) :
  plain n ->
  matchFileAny (activeInclude include0) n = true ->
  matchFileAny exclude0 n = false ->
  reach elems include0 exclude0 yieldDir (render (elems ++ [n]), None).
Proof.
  intros Hn Hi He _. right. exists [n].
  split; [discriminate|]. split; [now constructor|]. split; [reflexivity|].
  split.
  - rewrite <- accepts_active. exact Hi.
  - cbn [excluded]. now rewrite He.
Qed.

Lemma reach_below (elems : list string) (include0 exclude0 : list pattern)
    (yieldDir yieldDir' : bool) (n : string) (it : item) :
  plain n ->
  (yieldDir' = true -> matchFileAny (activeInclude include0) n = true) ->
  matchFileAny exclude0 n = false ->
  reach (elems ++ [n]) (advance n (activeInclude include0)) (advance n exclude0)
        yieldDir' it ->
  reach elems include0 exclude0 yieldDir it.
Proof.
  intros Hn Hhit He Hit Hnil. destruct it as [p e]. unfold reach in Hit.
  cbn [fst snd] in *.
  destruct (Hit Hnil) as [[Hy ->]|(names & Hne & Hplain & -> & Ha & Hx)].
  - now apply (reach_entry elems include0 exclude0 yieldDir n Hn (Hhit Hy) He).
  - right. exists (n :: names).
    split; [discriminate|]. split; [now constructor|].
    split; [now rewrite <- app_assoc|]. split.
    + rewrite <- accepts_active, (accepts_cons _ _ _ Hne). exact Ha.
    + cbn [excluded]. now rewrite He, Hx.
Qed.

Lemma reach_error (elems : list string) (include0 exclude0 : list pattern)
    (yieldDir : bool) (p : string) (err : error) :
  reach elems include0 exclude0 yieldDir (p, Some err).
Proof. intros H. discriminate. Qed.

Lemma termsIn_meta_levels : termsIn meta [["**"]].
Proof. repeat constructor. Qed.

Lemma termsIn_active (include0 : list pattern) :
  termsIn meta include0 -> termsIn meta (activeInclude include0).
Proof.
  unfold activeInclude. destruct (always include0); [intros _; apply termsIn_meta_levels|auto].
Qed.

Lemma nonEmpty_active (include0 : list pattern) :
  Forall nonEmpty include0 -> Forall nonEmpty (activeInclude include0).
Proof.
  unfold activeInclude. destruct (always include0); [|auto].
  intros _. repeat constructor. discriminate.
Qed.

Lemma advance_termsIn (P : string -> Prop) (n : string) (ps : list pattern) :
  Forall nonEmpty ps -> termsIn P ps -> termsIn P (advance n ps).
Proof.
  intros Hne Hps.
  pose proof (matchDirAll_advance ps n [] false Hne) as H.
  exact (matchDirAll_termsIn P ps n [] false _ _ Hps (Forall_nil _) H).
Qed.

Lemma literal_meta (ps : list pattern) (name : string) (next : list pattern) :
  termsIn meta ps -> literal ps <> Some (name, next, true).
Proof.
  intros Hps Hl. apply literal_inv in Hl as (rest & -> & Hmeta & _).
  inversion Hps as [|? ? Hp _]; subst. inversion Hp as [|? ? Hn _]; subst.
  unfold meta in Hn. congruence.
Qed.

Section Sound.

Variable fsys : FS.
Variable yield : yieldFn.
Hypothesis fsys_plain : plainFS fsys.

Lemma yieldSelf_reach (elems : list string) (include0 exclude0 : list pattern)
    (yieldDir includeDirs : bool) :
  emitsOnly (reach elems include0 exclude0 yieldDir)
            (yieldSelf yield (render elems) yieldDir includeDirs).
Proof.
  unfold yieldSelf. destruct yieldDir; cbn [andb]; [|apply emitsOnly_ret].
  destruct includeDirs; [|apply emitsOnly_ret].
  apply emitsOnly_yieldItem. intros _. now left.
Qed.

Lemma allStep_sound (fuel : nat) :
  forall elems yieldDir includeDirs include0,
    plainNames elems -> always include0 = true ->
    emitsOnly (reach elems include0 [] yieldDir)
              (allStep fuel fsys yield (render elems) yieldDir includeDirs).
Proof.
  induction fuel as [|fuel IH]; intros elems yieldDir includeDirs include0 Helems Ha.
  - intros st it Hin. now left.
  - cbn [allStep]. apply emitsOnly_fsReadDir.
    destruct (ReadDir fsys (render elems)) as [infos|err] eqn:Hread;
      [|apply emitsOnly_yieldItem, reach_error].
    apply emitsOnly_bind; [apply yieldSelf_reach|].
    intros ok. destruct (negb ok); [apply emitsOnly_ret|].
    apply emitsOnly_forEach. intros i Hi.
    pose proof (fsys_plain _ _ _ Hread Hi) as Hn.
    assert (Hhit : matchFileAny (activeInclude include0) (Name i) = true).
    { unfold activeInclude. rewrite Ha. reflexivity. }
    rewrite (Join_render _ _ Helems Hn).
    destruct (IsDir i).
    + eapply emitsOnly_mono;
        [|apply (IH (elems ++ [Name i]) true includeDirs [["**"]]);
          [now apply plainNames_snoc|reflexivity]].
      intros it Hit. apply (reach_below elems include0 [] yieldDir true (Name i) it Hn);
        [auto|reflexivity|].
      unfold activeInclude. rewrite Ha. exact Hit.
    + apply emitsOnly_yieldItem. now apply reach_entry.
Qed.

Lemma entryStep_sound (rec : stepFn) (elems : list string) (yieldDir includeDirs : bool)
    (include0 exclude0 : list pattern) (i : DirEntry) :
  soundStep rec -> plainNames elems -> plain (Name i) ->
  Forall nonEmpty include0 -> Forall nonEmpty exclude0 -> termsIn meta include0 ->
  emitsOnly (reach elems include0 exclude0 yieldDir)
            (entryStep rec yield (render elems) includeDirs
                       (activeInclude include0) exclude0 i).
Proof.
  intros Hrec Helems Hn Hi He Hterms. unfold entryStep.
  rewrite (Join_render _ _ Helems Hn).
  destruct (negb (IsDir i)).
  - destruct (matchFileAny exclude0 (Name i)) eqn:Hx; [apply emitsOnly_ret|].
    destruct (matchFileAny (activeInclude include0) (Name i)) eqn:Hhit;
      [|apply emitsOnly_ret].
    apply emitsOnly_yieldItem. now apply reach_entry.
  - destruct (matchDirFirst_advance exclude0 (Name i) [] He) as (next & Hfirst & Hnext).
    apply emitsOnly_orPanic. intros [ex nextExclude] Heq.
    rewrite Hfirst in Heq. injection Heq as <- <-.
    destruct (matchFileAny exclude0 (Name i)) eqn:Hx; [apply emitsOnly_ret|].
    rewrite (Hnext eq_refl). cbn [app].
    apply emitsOnly_orPanic. intros [hit nextInclude] Heq.
    rewrite (matchDirAll_advance _ (Name i) [] false (nonEmpty_active _ Hi)) in Heq.
    injection Heq as <- <-. cbn [orb app].
    destruct (matchFileAny (activeInclude include0) (Name i)) eqn:Hhit.
    + destruct (negb (len (advance (Name i) (activeInclude include0)) =? 0)%nat
                && negb (always (advance (Name i) exclude0))).
      * apply emitsOnly_bind.
        -- eapply emitsOnly_mono;
             [|apply (Hrec (elems ++ [Name i]) includeDirs includeDirs)].
           ++ intros it Hit.
              now apply (reach_below elems include0 exclude0 yieldDir includeDirs
                           (Name i) it Hn).
           ++ now apply plainNames_snoc.
           ++ apply advance_nonEmpty, nonEmpty_active, Hi.
           ++ now apply advance_nonEmpty.
           ++ apply advance_termsIn; [now apply nonEmpty_active|now apply termsIn_active].
        -- intros ok. destruct (negb ok); apply emitsOnly_ret.
      * destruct includeDirs; [|apply emitsOnly_ret].
        apply emitsOnly_yieldItem. now apply reach_entry.
    + destruct (negb (len (advance (Name i) (activeInclude include0)) =? 0)%nat
                && negb (always (advance (Name i) exclude0))); [|apply emitsOnly_ret].
      apply emitsOnly_bind.
      * eapply emitsOnly_mono;
          [|apply (Hrec (elems ++ [Name i]) false includeDirs)].
        -- intros it Hit.
           apply (reach_below elems include0 exclude0 yieldDir false (Name i) it Hn);
             [discriminate|exact Hx|exact Hit].
        -- now apply plainNames_snoc.
        -- apply advance_nonEmpty, nonEmpty_active, Hi.
        -- now apply advance_nonEmpty.
        -- apply advance_termsIn; [now apply nonEmpty_active|now apply termsIn_active].
      * intros ok. destruct (negb ok); apply emitsOnly_ret.
Qed.

Lemma listStep_sound (rec : stepFn) (elems : list string) (yieldDir includeDirs : bool)
    (include0 exclude0 : list pattern) :
  soundStep rec -> plainNames elems ->
  Forall nonEmpty include0 -> Forall nonEmpty exclude0 -> termsIn meta include0 ->
  emitsOnly (reach elems include0 exclude0 yieldDir)
            (listStep rec fsys yield (render elems) yieldDir includeDirs
                      (activeInclude include0) exclude0).
Proof.
  intros Hrec Helems Hi He Hterms. unfold listStep. apply emitsOnly_fsReadDir.
  destruct (ReadDir fsys (render elems)) as [infos|err] eqn:Hread;
    [|apply emitsOnly_yieldItem, reach_error].
  apply emitsOnly_bind; [apply yieldSelf_reach|].
  intros ok. destruct (negb ok); [apply emitsOnly_ret|].
  apply emitsOnly_forEach. intros i Hin.
  apply entryStep_sound; auto. exact (fsys_plain _ _ _ Hread Hin).
Qed.

Lemma matchStep_sound (fuel : nat) : soundStep (matchStep fuel fsys yield).
Proof.
  induction fuel as [|fuel IH];
    intros elems yieldDir includeDirs include0 exclude0 Helems Hi He Hterms.
  - intros st it Hin. now left.
  - cbn [matchStep]. destruct (always include0) eqn:Ha.
    + destruct (len exclude0 =? 0)%nat eqn:Hlen.
      * apply len_zero in Hlen. subst exclude0. now apply allStep_sound.
      * pose proof (listStep_sound _ elems yieldDir includeDirs include0 exclude0
                      IH Helems Hi He Hterms) as H.
        unfold activeInclude in H. now rewrite Ha in H.
    + apply emitsOnly_orPanic. intros [[name nextInclude] ok] Hl.
      destruct ok; [now apply literal_meta in Hl|].
      pose proof (listStep_sound _ elems yieldDir includeDirs include0 exclude0
                    IH Helems Hi He Hterms) as H.
      unfold activeInclude in H. now rewrite Ha in H.
Qed.

End Sound.

Lemma segments_render (names : list string) :
  plainNames names -> names <> [] -> segments (render names) = names.
Proof.
  intros Hp Hne. destruct names as [|n names]; [congruence|].
  now apply segments_concat.
Qed.

Lemma compiled_incl (s : string) (q : pattern) (t : string) :
  In q (compiled s) -> In t q -> In t (terms s).
Proof.
  unfold compiled. intros Hq Ht.
  destruct (terms s) as [|step0 [|step1 rest]] eqn:Hs.
  - now destruct Hq as [<-|[]].
  - now destruct Hq as [<-|[]].
  - destruct (step0 =? "**").
    + destruct Hq as [<-|[<-|[]]]; [exact Ht|now right].
    + now destruct Hq as [<-|[]].
Qed.

(** X11.  [Match] is sound for [MatchPath] when every term of every include
    string has a metacharacter, so that the literal fast path is never
    taken.  On a file system whose listings return plain names, started in
    a clean relative directory, every item without error that [Match] hands
    over is the start directory joined with a relative path that
    [MatchPath] accepts, whatever the consumer and the depth reached. *)
Theorem Match_emits_only_what_MatchPath_accepts (fuel : nat) (fsys : FS)
    (yield : yieldFn) (elems : list string) (includeDirs : bool)
    (includes excludes : list string) (g : Glob) (p : string) :
  New includes excludes = (Some g, None) ->
  (forall s t, In s includes -> In t (terms s) -> hasMeta t = true) ->
  plainFS fsys ->
  plainNames elems ->
  In (p, None)
     (emitted (stateOf (Glob_Match fuel g fsys yield (render elems) includeDirs))) ->
  exists names,
    names <> [] /\ p = render (elems ++ names)
    /\ Glob_MatchPath g (render names) = Some true.
Proof.
  intros HNew Hmeta Hfs Helems Hin. apply New_strategy in HNew.
  destruct HNew as [He Hi|H1 H2|H1 Hi He Hbad]; cbn [Glob_Match stateOf] in Hin.
  - destruct (allStep_sound fsys yield Hfs fuel elems false includeDirs [["**"]]
                Helems eq_refl start _ Hin) as [[]|Hr].
    destruct (Hr eq_refl) as [[Hy _]|(names & Hne & _ & Hp & _)]; [discriminate|].
    now exists names.
  - destruct Hin.
  - rewrite countBad_app in Hbad.
    assert (Hbi : countBad includes = 0) by lia.
    pose proof (newPatterns_nonEmpty includes) as Hni.
    pose proof (newPatterns_nonEmpty excludes) as Hne.
    cbn [include exclude] in Hin.
    assert (Hterms : termsIn meta (fst (newPatterns includes))).
    { rewrite (newPatterns_compiled _ Hbi).
      apply Forall_forall. intros q Hq. apply in_flat_map in Hq as (s & Hs & Hq).
      apply Forall_forall. intros t Ht.
      exact (Hmeta s t Hs (compiled_incl _ _ _ Hq Ht)). }
    destruct (matchStep_sound fsys yield Hfs fuel elems false includeDirs _ _
                Helems Hni Hne Hterms start _ Hin) as [[]|Hr].
    destruct (Hr eq_refl) as [[Hy _]|(names & Hnames & Hplain & Hp & Ha & Hx)];
      [discriminate|].
    exists names. split; [exact Hnames|]. split; [exact Hp|].
    cbn [Glob_MatchPath]. rewrite MatchPath_accepts; auto.
    cbn [include exclude fst snd] in *.
    now rewrite (segments_render _ Hplain Hnames), Ha, Hx.
Qed.

(** The include [**/?] and the exclude [b] over [twoDirs]: the item [a/x]. *)
Lemma Match_emits_only_what_MatchPath_accepts_witness :
  exists names,
    names <> [] /\ "a/x" = render ([] ++ names)
    /\ Glob_MatchPath (matchGlobOf {| include := [["**"; "?"]; ["?"]];
                                      exclude := [["b"]] |})
                      (render names) = Some true.
Proof.
  apply (Match_emits_only_what_MatchPath_accepts 3 (treeFS twoDirs) collect []
           false ["**/?"] ["b"]
           (matchGlobOf {| include := [["**"; "?"]; ["?"]]; exclude := [["b"]] |})
           "a/x").
  - reflexivity.
  - intros s t [<-|[]] [<-|[<-|[]]]; reflexivity.
  - apply treeFS_plain. reflexivity.
  - constructor.
  - vm_compute. left. reflexivity.
Defined.

(** ** Walks of a finite tree *)

Lemma lookup_In (n : string) (entries : list (string * node)) (y : node) :
  lookup n entries = Some y -> In (n, y) entries.
Proof.
  induction entries as [|[m z] entries IH]; [discriminate|].
  cbn [lookup]. destruct (String.eqb_spec m n) as [->|_].
  - intros [= ->]. now left.
  - intros H. right. now apply IH.
Qed.

Lemma lookup_listed (n : string) (entries : list (string * node)) (y : node) :
  In (n, y) entries -> exists y', lookup n entries = Some y'.
Proof.
  induction entries as [|[m z] entries IH]; [intros []|].
  cbn [lookup]. destruct (String.eqb_spec m n) as [->|Hne].
  - intros _. now exists z.
  - intros [[= -> _]|H]; [congruence|now apply IH].
Qed.

Lemma lookup_height (n : string) (entries : list (string * node)) (y : node) :
  lookup n entries = Some y -> height y < height (directory entries).
Proof.
  intros H. apply lookup_In in H. cbn [height].
  assert (Hle : height y <= list_max (map (fun e => match e with (_, z) => height z end)
                                          entries)).
  { pose proof (proj1 (list_max_le _ _) (le_n (list_max (map (fun e => match e with (_, z) => height z end) entries)))) as Hall.
    rewrite Forall_forall in Hall. apply Hall.
    apply in_map_iff. exists (n, y). now split. }
  lia.
Qed.

Lemma resolve_app (a b : list string) :
  forall root,
    resolve root (a ++ b)
    = match resolve root a with
      | Some x => resolve x b
      | None => None
      end.
Proof.
  induction a as [|e a IH]; intros root; [reflexivity|].
  cbn [app resolve]. destruct root as [|entries]; [reflexivity|].
  destruct (lookup e entries); [apply IH|reflexivity].
Qed.

Lemma resolve_file (names : list string) (y : node) :
  resolve file names = Some y -> names = [].
Proof. destruct names; [reflexivity|discriminate]. Qed.

Lemma resolve_plain (names : list string) :
  forall root y,
    plainTree root = true -> resolve root names = Some y -> plainNames names.
Proof.
  induction names as [|n names IH]; intros root y Hroot H; [constructor|].
  cbn [resolve] in H. destruct root as [|entries]; [discriminate|].
  destruct (lookup n entries) as [child|] eqn:Hl; [|discriminate].
  pose proof (lookup_plainTree _ _ _ Hroot Hl) as Hchild.
  apply lookup_In in Hl. cbn [plainTree] in Hroot. rewrite forallb_forall in Hroot.
  specialize (Hroot _ Hl). apply andb_prop in Hroot as [Hn _].
  constructor; [exact Hn|]. exact (IH _ _ Hchild H).
Qed.

Lemma render_dot (elems : list string) :
  plainNames elems -> elems <> [] -> (render elems =? ".") = false.
Proof.
  intros Hp Hne. destruct (String.eqb_spec (render elems) ".") as [Heq|]; [|reflexivity].
  pose proof (splitSlash_render _ Hp) as Hs. rewrite Heq in Hs.
  destruct elems as [|e [|e' elems]]; [congruence| |discriminate].
  injection Hs as <-. inversion Hp as [|? ? He _]. discriminate.
Qed.

Lemma validPath_render (elems : list string) :
  plainNames elems -> validPath (render elems) = true.
Proof.
  intros Hp. unfold validPath. destruct elems as [|e elems]; [reflexivity|].
  rewrite (splitSlash_render _ Hp). apply orb_true_iff. right.
  apply forallb_forall. intros t Ht. unfold plainNames in Hp.
  rewrite Forall_forall in Hp.
  apply Hp, plainName_inv in Ht as (H0 & H1 & H2 & _). now rewrite H0, H1, H2.
Qed.

Lemma open_render (root : node) (op : string) (elems : list string) :
  plainNames elems ->
  open root op (render elems)
  = match resolve root elems with
    | None => Err (PathError op (render elems) ErrNotExist)
    | Some x => Ok x
    end.
Proof.
  intros Hp. unfold open. rewrite (validPath_render _ Hp). cbn [negb].
  destruct elems as [|e elems]; [reflexivity|].
  rewrite (render_dot _ Hp) by discriminate.
  now rewrite (splitSlash_render _ Hp).
Qed.

Lemma ReadDir_treeFS (root : node) (elems : list string) :
  plainNames elems ->
  ReadDir (treeFS root) (render elems)
  = match resolve root elems with
    | None => Err (PathError "readdir" (render elems) ErrNotExist)
    | Some file =>
        Err (PathError "readdir" (render elems) (errorString "not implemented"))
    | Some (directory entries) => Ok (map entryOf entries)
    end.
Proof.
  intros Hp. cbn [ReadDir treeFS]. rewrite (open_render _ _ _ Hp).
  now destruct (resolve root elems) as [[|entries]|].
Qed.

(** *** Computations that return [true] *)

Lemma yields_ret : yields (ret true) (fun _ => False).
Proof. intros st. exists st. repeat split; auto. intros it []. Qed.

Lemma yields_weaken (m : M bool) (T T' : item -> Prop) :
  (forall it, T' it -> T it) -> yields m T -> yields m T'.
Proof.
  intros HT Hm st. destruct (Hm st) as (st' & E & Hkeep & Hpay).
  exists st'. repeat split; auto.
Qed.

Lemma yields_yieldItem (p : string) (e : option error) :
  yields (yieldItem collect p e) (fun it => it = (p, e)).
Proof.
  intros st. eexists. split; [reflexivity|]. cbn [emitted]. split.
  - intros it Hin. apply in_or_app. now left.
  - intros it ->. apply in_or_app. right. now left.
Qed.

Lemma yields_then (m k : M bool) (T1 T2 : item -> Prop) :
  yields m T1 -> yields k T2 ->
  yields (ok <- m ;; if negb ok then ret false else k) (fun it => T1 it \/ T2 it).
Proof.
  intros Hm Hk st. destruct (Hm st) as (st1 & E1 & Hkeep1 & Hpay1).
  destruct (Hk st1) as (st2 & E2 & Hkeep2 & Hpay2).
  exists st2. unfold bind. rewrite E1. cbn [negb]. split; [exact E2|].
  split; [auto|]. intros it [H|H]; auto.
Qed.

Lemma yields_forEach {A} (body : A -> M bool) (T : A -> item -> Prop) (l : list A) :
  (forall x, In x l -> yields (body x) (T x)) ->
  yields (forEach body l) (fun it => exists x, In x l /\ T x it).
Proof.
  induction l as [|x l IH]; intros Hbody.
  - eapply yields_weaken; [|apply yields_ret]. intros it (x & [] & _).
  - intros st. destruct (Hbody x (or_introl eq_refl) st) as (st1 & E1 & Hkeep1 & Hpay1).
    destruct (IH (fun y Hy => Hbody y (or_intror Hy)) st1) as (st2 & E2 & Hkeep2 & Hpay2).
    exists st2. cbn [forEach]. unfold bind. rewrite E1. split; [exact E2|].
    split; [auto|]. intros it (y & [<-|Hy] & HT); [auto|].
    apply Hpay2. now exists y.
Qed.

Lemma yields_after {A} (m : M A) (a : A) (f : A -> M bool) (T : item -> Prop) :
  (forall st, exists st', m st = Done a st' /\ emitted st' = emitted st) ->
  yields (f a) T -> yields (bind m f) T.
Proof.
  intros Hm Hf st. destruct (Hm st) as (st1 & E1 & Hsame).
  destruct (Hf st1) as (st2 & E2 & Hkeep & Hpay).
  exists st2. unfold bind. rewrite E1. split; [exact E2|]. split; [|exact Hpay].
  intros it Hin. apply Hkeep. now rewrite Hsame.
Qed.

Lemma yields_fsReadDir (fsys : FS) (dir : string)
    (f : result (list DirEntry) -> M bool) (T : item -> Prop) :
  yields (f (ReadDir fsys dir)) T -> yields (bind (fsReadDir fsys dir) f) T.
Proof. apply yields_after. intros st. eexists. split; reflexivity. Qed.

Lemma yields_orPanic {A} (o : option A) (a : A) (f : A -> M bool) (T : item -> Prop) :
  o = Some a -> yields (f a) T -> yields (bind (orPanic o) f) T.
Proof. intros ->. apply yields_after. intros st. eexists. split; reflexivity. Qed.

Lemma excluded_always (names : list string) (ps : list pattern) :
  always ps = true -> names <> [] -> excluded names ps = true.
Proof.
  intros Ha Hne. destruct names as [|n names]; [congruence|].
  cbn [excluded]. apply orb_true_iff. left.
  unfold matchFileAny. apply existsb_exists. exists ["**"]. split; [|reflexivity].
  now apply always_In.
Qed.

Section Complete.

Variable root : node.
Variable includeDirs : bool.
Hypothesis root_plain : plainTree root = true.

Lemma yieldSelf_target (elems : list string) (yieldDir : bool) :
  yields (yieldSelf collect (render elems) yieldDir includeDirs)
         (fun it => yieldDir = true /\ includeDirs = true /\ it = (render elems, None)).
Proof.
  unfold yieldSelf. destruct yieldDir, includeDirs; cbn [andb];
    try (eapply yields_weaken; [|apply yields_ret]; now intros it (? & ? & _)).
  eapply yields_weaken; [|apply yields_yieldItem]. now intros it (_ & _ & ->).
Qed.

(** The entries of a listed directory: plain names, each resolved by the
    tree to a node lower than the directory. *)
Lemma listed_entry (elems : list string) (entries : list (string * node))
    (e : string * node) :
  plainNames elems -> resolve root elems = Some (directory entries) -> In e entries ->
  plain (fst e)
  /\ exists y, lookup (fst e) entries = Some y
               /\ resolve root (elems ++ [fst e]) = Some y
               /\ height y < height (directory entries).
Proof.
  intros Hp Hr Hin. destruct e as [n z]. cbn [fst].
  pose proof (resolve_plainTree _ _ _ root_plain Hr) as Hx.
  split.
  - cbn [plainTree] in Hx. rewrite forallb_forall in Hx.
    specialize (Hx _ Hin). now apply andb_prop in Hx as [Hn _].
  - destruct (lookup_listed _ _ _ Hin) as (y & Hy). exists y.
    split; [exact Hy|]. split; [|now apply (lookup_height n)].
    rewrite resolve_app, Hr. cbn [resolve]. now rewrite Hy.
Qed.

(** A target below the directory [elems] lies in or is one of its entries. *)
Lemma target_entry (elems : list string) (entries : list (string * node))
    (n : string) (rest : list string) (y : node) :
  resolve root elems = Some (directory entries) ->
  resolve root (elems ++ n :: rest) = Some y ->
  exists child,
    lookup n entries = Some child /\ resolve child rest = Some y
    /\ In (entryOf (n, child)) (map entryOf entries).
Proof.
  intros Hr Hy. rewrite resolve_app, Hr in Hy. cbn [resolve] in Hy.
  destruct (lookup n entries) as [child|] eqn:Hl; [|discriminate].
  exists child. split; [reflexivity|]. split; [exact Hy|].
  apply in_map. now apply lookup_In.
Qed.

Lemma no_target_in_file (elems : list string) (include0 exclude0 : list pattern)
    (yieldDir : bool) (it : item) :
  resolve root elems = Some file ->
  target root includeDirs elems include0 exclude0 yieldDir it -> False.
Proof.
  intros Hr [(_ & _ & (es & Hes) & _)|(names & y & Hne & Hy & _)]; [congruence|].
  rewrite resolve_app, Hr in Hy. apply resolve_file in Hy. contradiction.
Qed.

Lemma allStep_complete (fuel : nat) :
  forall elems x yieldDir include0,
    plainNames elems -> resolve root elems = Some x -> height x < fuel ->
    always include0 = true ->
    yields (allStep fuel (treeFS root) collect (render elems) yieldDir includeDirs)
           (target root includeDirs elems include0 [] yieldDir).
Proof.
  induction fuel as [|fuel IH]; intros elems x yieldDir include0 Hp Hr Hh Ha; [lia|].
  cbn [allStep]. apply yields_fsReadDir. rewrite (ReadDir_treeFS _ _ Hp), Hr.
  destruct x as [|entries].
  { eapply yields_weaken; [|apply yields_yieldItem].
    intros it Hit. now destruct (no_target_in_file _ _ _ _ _ Hr Hit). }
  eapply yields_weaken;
    [|apply yields_then;
      [apply (yieldSelf_target elems yieldDir)
      |apply (yields_forEach _
                (fun i it =>
                   exists child rest y,
                     lookup (Name i) entries = Some child
                     /\ IsDir i = isDirectory child
                     /\ resolve child rest = Some y
                     /\ (isDirectory y = true -> includeDirs = true)
                     /\ it = (render (elems ++ Name i :: rest), None)))]].
  - intros it [(Hy & Hi & _ & ->)|(names & y & Hne & Hy & Hd & _ & _ & ->)];
      [now left|right].
    destruct names as [|n rest]; [congruence|].
    destruct (target_entry _ _ _ _ _ Hr Hy) as (child & Hl & Hc & Hin).
    exists (entryOf (n, child)). split; [exact Hin|].
    exists child, rest, y. cbn [Name IsDir entryOf fst snd]. repeat split; auto.
  - intros i Hi. apply in_map_iff in Hi as (e & <- & He).
    destruct (listed_entry _ _ _ Hp Hr He) as (Hn & y0 & Hl & Hy0 & Hlow).
    cbn [Name IsDir entryOf]. rewrite (Join_render _ _ Hp Hn).
    destruct (isDirectory (snd e)) eqn:Hdir.
    + eapply yields_weaken;
        [|apply (IH (elems ++ [fst e]) y0 true [["**"]]);
          [now apply plainNames_snoc|exact Hy0|cbn [height] in *; lia|reflexivity]].
      intros it (child & rest & y & Hc & Hsame & Hy & Hd & ->).
      rewrite Hl in Hc. injection Hc as <-.
      destruct rest as [|r rest].
      * cbn [resolve] in Hy. injection Hy as <-. left.
        repeat split; auto.
        destruct y0 as [|es]; [discriminate|]. now exists es.
      * right. exists (r :: rest), y.
        split; [discriminate|]. rewrite <- app_assoc. cbn [app].
        repeat split; auto.
        -- change (fst e :: r :: rest) with ([fst e] ++ r :: rest).
           rewrite app_assoc, resolve_app, Hy0. exact Hy.
        -- now apply accepts_levels.
        -- apply excluded_nil.
    + eapply yields_weaken; [|apply yields_yieldItem].
      intros it (child & rest & y & Hc & Hsame & Hy & Hd & ->).
      rewrite Hl in Hc. injection Hc as <-.
      destruct y0 as [|es]; [|discriminate].
      now rewrite (resolve_file _ _ Hy).
Qed.

Lemma entryStep_complete (rec : stepFn) (fuel : nat) (elems : list string)
    (entries : list (string * node)) (include0 exclude0 : list pattern)
    (e : string * node) :
  completeStep root includeDirs fuel rec ->
  plainNames elems -> resolve root elems = Some (directory entries) ->
  height (directory entries) < fuel ->
  Forall nonEmpty include0 -> Forall nonEmpty exclude0 -> termsIn meta include0 ->
  In e entries ->
  yields (entryStep rec collect (render elems) includeDirs (activeInclude include0)
                    exclude0 (entryOf e))
         (fun it =>
            exists child rest y,
              lookup (fst e) entries = Some child
              /\ isDirectory (snd e) = isDirectory child
              /\ resolve child rest = Some y
              /\ (isDirectory y = true -> includeDirs = true)
              /\ accepts (fst e :: rest) include0 = true
              /\ excluded (fst e :: rest) exclude0 = false
              /\ it = (render (elems ++ fst e :: rest), None)).
Proof.
  intros Hrec Hp Hr Hh Hi He Hterms Hin.
  destruct (listed_entry _ _ _ Hp Hr Hin) as (Hn & y0 & Hl & Hy0 & Hlow).
  unfold entryStep. cbn [Name IsDir entryOf]. rewrite (Join_render _ _ Hp Hn).
  assert (Hown : forall rest y,
             lookup (fst e) entries = Some y0 ->
             resolve y0 rest = Some y -> isDirectory y0 = false -> rest = []).
  { intros rest y _ Hy Hd. destruct y0; [now apply resolve_file in Hy|discriminate]. }
  destruct (isDirectory (snd e)) eqn:Hdir; cbn [negb].
  - (* a directory *)
    destruct (matchDirFirst_advance exclude0 (fst e) [] He) as (next & Hfirst & Hnext).
    eapply yields_orPanic; [exact Hfirst|].
    destruct (matchFileAny exclude0 (fst e)) eqn:Hx.
    { eapply yields_weaken; [|apply yields_ret].
      intros it (child & rest & y & _ & _ & _ & _ & _ & Hex & _).
      cbn [excluded] in Hex. now rewrite Hx in Hex. }
    rewrite (Hnext eq_refl). cbn [app].
    eapply yields_orPanic;
      [exact (matchDirAll_advance _ (fst e) [] false (nonEmpty_active _ Hi))|].
    cbn [orb app].
    destruct (negb (len (advance (fst e) (activeInclude include0)) =? 0)%nat
              && negb (always (advance (fst e) exclude0))) eqn:Hgo.
    + eapply yields_weaken;
        [|apply yields_then;
          [apply (Hrec (elems ++ [fst e]) y0);
           [now apply plainNames_snoc|exact Hy0|lia
           |apply advance_nonEmpty, nonEmpty_active, Hi
           |now apply advance_nonEmpty
           |apply advance_termsIn; [now apply nonEmpty_active|now apply termsIn_active]]
          |apply yields_ret]].
      intros it (child & rest & y & Hc & Hsame & Hy & Hd & Hacc & Hex & ->). left.
      rewrite Hl in Hc. injection Hc as <-.
      cbn [excluded] in Hex. rewrite Hx in Hex. cbn [orb] in Hex.
      destruct rest as [|r rest].
      * cbn [resolve] in Hy. injection Hy as <-. left.
        rewrite <- accepts_active in Hacc. cbn [accepts] in Hacc. rewrite Hacc.
        symmetry in Hsame. rewrite (Hd Hsame).
        repeat split; auto.
        destruct y0 as [|es]; [discriminate|]. now exists es.
      * right. exists (r :: rest), y. split; [discriminate|].
        rewrite <- app_assoc. cbn [app]. repeat split; auto.
        -- change (fst e :: r :: rest) with ([fst e] ++ r :: rest).
           rewrite app_assoc, resolve_app, Hy0. exact Hy.
        -- rewrite <- accepts_active in Hacc.
           now rewrite accepts_cons in Hacc by discriminate.
    + eapply yields_weaken with
        (T := fun it => (if matchFileAny (activeInclude include0) (fst e)
                         then includeDirs else false) = true
                        /\ it = (render (elems ++ [fst e]), None)).
      * intros it (child & rest & y & Hc & Hsame & Hy & Hd & Hacc & Hex & ->).
        rewrite Hl in Hc. injection Hc as <-.
        cbn [excluded] in Hex. rewrite Hx in Hex. cbn [orb] in Hex.
        rewrite <- accepts_active in Hacc.
        destruct rest as [|r rest].
        -- cbn [resolve] in Hy. injection Hy as <-.
           cbn [accepts] in Hacc. rewrite Hacc. symmetry in Hsame.
           now rewrite (Hd Hsame).
        -- exfalso. rewrite accepts_cons in Hacc by discriminate.
           apply andb_false_iff in Hgo as [Hgo|Hgo].
           ++ apply negb_false_iff, len_zero in Hgo. rewrite Hgo, accepts_nil in Hacc.
              discriminate.
           ++ apply negb_false_iff in Hgo.
              rewrite (excluded_always _ _ Hgo) in Hex; discriminate.
      * destruct (if matchFileAny (activeInclude include0) (fst e)
                  then includeDirs else false).
        -- eapply yields_weaken; [|apply yields_yieldItem]. now intros it [_ ->].
        -- eapply yields_weaken; [|apply yields_ret]. now intros it [? _].
  - (* not a directory *)
    destruct (matchFileAny exclude0 (fst e)) eqn:Hx.
    { eapply yields_weaken; [|apply yields_ret].
      intros it (child & rest & y & _ & _ & _ & _ & _ & Hex & _).
      cbn [excluded] in Hex. now rewrite Hx in Hex. }
    destruct (matchFileAny (activeInclude include0) (fst e)) eqn:Hhit.
    + eapply yields_weaken; [|apply yields_yieldItem].
      intros it (child & rest & y & Hc & Hsame & Hy & _ & _ & _ & ->).
      rewrite Hl in Hc. injection Hc as <-.
      now rewrite (Hown rest y Hl Hy (eq_sym Hsame)).
    + eapply yields_weaken; [|apply yields_ret].
      intros it (child & rest & y & Hc & Hsame & Hy & _ & Hacc & _ & _).
      rewrite Hl in Hc. injection Hc as <-.
      rewrite (Hown rest y Hl Hy (eq_sym Hsame)) in Hacc.
      rewrite <- accepts_active in Hacc. cbn [accepts] in Hacc. congruence.
Qed.

Lemma listStep_complete (rec : stepFn) (fuel : nat) (elems : list string) (x : node)
    (yieldDir : bool) (include0 exclude0 : list pattern) :
  completeStep root includeDirs fuel rec ->
  plainNames elems -> resolve root elems = Some x -> height x < fuel ->
  Forall nonEmpty include0 -> Forall nonEmpty exclude0 -> termsIn meta include0 ->
  yields (listStep rec (treeFS root) collect (render elems) yieldDir includeDirs
                   (activeInclude include0) exclude0)
         (target root includeDirs elems include0 exclude0 yieldDir).
Proof.
  intros Hrec Hp Hr Hh Hi He Hterms. unfold listStep.
  apply yields_fsReadDir. rewrite (ReadDir_treeFS _ _ Hp), Hr.
  destruct x as [|entries].
  { eapply yields_weaken; [|apply yields_yieldItem].
    intros it Hit. now destruct (no_target_in_file _ _ _ _ _ Hr Hit). }
  eapply yields_weaken;
    [|apply yields_then;
      [apply (yieldSelf_target elems yieldDir)
      |apply (yields_forEach _
                (fun i it =>
                   exists child rest y,
                     lookup (Name i) entries = Some child
                     /\ IsDir i = isDirectory child
                     /\ resolve child rest = Some y
                     /\ (isDirectory y = true -> includeDirs = true)
                     /\ accepts (Name i :: rest) include0 = true
                     /\ excluded (Name i :: rest) exclude0 = false
                     /\ it = (render (elems ++ Name i :: rest), None)))]].
  - intros it [(Hy & Hd & _ & ->)|(names & y & Hne & Hy & Hd & Hacc & Hex & ->)];
      [now left|right].
    destruct names as [|n rest]; [congruence|].
    destruct (target_entry _ _ _ _ _ Hr Hy) as (child & Hl & Hc & Hin).
    exists (entryOf (n, child)). split; [exact Hin|].
    exists child, rest, y. cbn [Name IsDir entryOf fst snd]. repeat split; auto.
  - intros i Hin. apply in_map_iff in Hin as (e & <- & Hin).
    now apply (entryStep_complete rec fuel elems entries).
Qed.

Lemma matchStep_complete (fuel : nat) :
  completeStep root includeDirs fuel (matchStep fuel (treeFS root) collect).
Proof.
  induction fuel as [|fuel IH];
    intros elems x yieldDir include0 exclude0 Hp Hr Hh Hi He Hterms; [lia|].
  cbn [matchStep]. destruct (always include0) eqn:Ha.
  - destruct (len exclude0 =? 0)%nat eqn:Hlen.
    + apply len_zero in Hlen. subst exclude0.
      apply (allStep_complete fuel elems x); auto. lia.
    + pose proof (listStep_complete _ fuel elems x yieldDir include0 exclude0
                    IH Hp Hr ltac:(lia) Hi He Hterms) as H.
      unfold activeInclude in H. now rewrite Ha in H.
  - destruct (literal include0) as [[[name nextInclude] ok]|] eqn:Hl.
    + eapply yields_orPanic; [reflexivity|].
      destruct ok; [now apply literal_meta in Hl|].
      pose proof (listStep_complete _ fuel elems x yieldDir include0 exclude0
                    IH Hp Hr ltac:(lia) Hi He Hterms) as H.
      unfold activeInclude in H. now rewrite Ha in H.
    + destruct (literal_nonEmpty _ Hi) as (? & ? & ? & Hsome & _). congruence.
Qed.

End Complete.

(** X12.  [Match] is complete for [MatchPath] on finite trees when every
    term of every include string has a metacharacter.  Started in a
    directory of a tree with plain names, with a consumer that never stops
    and a depth bound that exceeds the height of that directory by two, the
    walk returns
    [true] and has handed over every file below the start directory, and
    with [includeDirs] every directory below it, whose relative path
    [MatchPath] accepts. *)
Theorem Match_emits_all_that_MatchPath_accepts (fuel : nat) (root x : node)
    (elems : list string) (includeDirs : bool) (includes excludes : list string)
    (g : Glob) :
  New includes excludes = (Some g, None) ->
  (forall s t, In s includes -> In t (terms s) -> hasMeta t = true) ->
  plainTree root = true ->
  plainNames elems ->
  resolve root elems = Some x ->
  S (height x) < fuel ->
  exists st,
    Glob_Match fuel g (treeFS root) collect (render elems) includeDirs = Done true st
    /\ forall names y,
         names <> [] ->
         resolve x names = Some y ->
         (isDirectory y = true -> includeDirs = true) ->
         Glob_MatchPath g (render names) = Some true ->
         In (render (elems ++ names), None) (emitted st).
Proof.
  intros HNew Hmeta Hroot Hp Hr Hh. apply New_strategy in HNew.
  assert (Hx : plainTree x = true) by exact (resolve_plainTree _ _ _ Hroot Hr).
  destruct HNew as [He Hi|H1 H2|H1 Hi He Hbad]; cbn [Glob_Match].
  - destruct (allStep_complete root includeDirs Hroot fuel elems x false [["**"]]
                Hp Hr ltac:(lia) eq_refl start) as (st & E & _ & Hpay).
    exists st. split; [exact E|].
    intros names y Hne Hy Hd _. apply Hpay. right. exists names, y.
    rewrite resolve_app, Hr. repeat split; auto.
    + now apply accepts_levels.
    + apply excluded_nil.
  - exists start. split; [reflexivity|]. intros names y _ _ _ H. discriminate.
  - rewrite countBad_app in Hbad.
    assert (Hbi : countBad includes = 0) by lia.
    pose proof (newPatterns_nonEmpty includes) as Hni.
    pose proof (newPatterns_nonEmpty excludes) as Hne.
    cbn [include exclude].
    assert (Hterms : termsIn meta (fst (newPatterns includes))).
    { rewrite (newPatterns_compiled _ Hbi).
      apply Forall_forall. intros q Hq. apply in_flat_map in Hq as (s & Hs & Hq).
      apply Forall_forall. intros t Ht.
      exact (Hmeta s t Hs (compiled_incl _ _ _ Hq Ht)). }
    destruct (matchStep_complete root includeDirs Hroot fuel elems x false _ _
                Hp Hr Hh Hni Hne Hterms start) as (st & E & _ & Hpay).
    exists st. split; [exact E|].
    intros names y Hnames Hy Hd HM. apply Hpay. right. exists names, y.
    rewrite resolve_app, Hr.
    cbn [Glob_MatchPath] in HM. rewrite MatchPath_accepts in HM; auto.
    cbn [include exclude] in HM.
    rewrite (segments_render _ (resolve_plain _ _ _ Hx Hy) Hnames) in HM.
    injection HM as HM. apply andb_prop in HM as [Hacc Hex].
    apply negb_true_iff in Hex. repeat split; auto.
Qed.

(** The include [**/?] and the exclude [b] over [twoDirs]. *)
Lemma Match_emits_all_that_MatchPath_accepts_witness :
  exists st,
    Glob_Match 4 (matchGlobOf {| include := [["**"; "?"]; ["?"]]; exclude := [["b"]] |})
               (treeFS twoDirs) collect (render []) true = Done true st
    /\ forall names y,
         names <> [] ->
         resolve twoDirs names = Some y ->
         (isDirectory y = true -> true = true) ->
         Glob_MatchPath (matchGlobOf {| include := [["**"; "?"]; ["?"]];
                                        exclude := [["b"]] |})
                        (render names) = Some true ->
         In (render ([] ++ names), None) (emitted st).
Proof.
  apply (Match_emits_all_that_MatchPath_accepts 4 twoDirs twoDirs [] true
           ["**/?"] ["b"]).
  - reflexivity.
  - intros s t [<-|[]] [<-|[<-|[]]]; reflexivity.
  - reflexivity.
  - constructor.
  - reflexivity.
  - cbn. lia.
Defined.

(** ** [MatchPath], one pattern string at a time *)

Lemma splitSlash_pieces_concat (l : list string) :
  (forall t, In t l -> containsByte "/" t = false) -> l <> [] ->
  splitSlash (String.concat "/" l) = l.
Proof.
  induction l as [|x l IH]; intros Hl Hne; [congruence|].
  destruct l as [|y l].
  - cbn [String.concat]. apply splitSlash_noSlash. apply Hl. now left.
  - change (String.concat "/" (x :: y :: l))
      with (x ++ "/" ++ String.concat "/" (y :: l))%string.
    rewrite splitSlash_app, splitSlash_noSlash by (apply Hl; now left).
    rewrite IH; [reflexivity| |discriminate].
    intros t Ht. apply Hl. now right.
Qed.

Lemma segments_pieces_concat (l : list string) :
  (forall t, In t l -> t <> "" /\ containsByte "/" t = false) -> l <> [] ->
  segments (String.concat "/" l) = l.
Proof.
  intros Hl Hne. unfold segments.
  rewrite splitSlash_pieces_concat; [|intros t Ht; now apply Hl|exact Hne].
  clear Hne. induction l as [|x l IH]; [reflexivity|].
  cbn [filter]. destruct (Hl x (or_introl eq_refl)) as [Hx _].
  apply String.eqb_neq in Hx. rewrite Hx. cbn [negb]. f_equal.
  apply IH. intros t Ht. apply Hl. now right.
Qed.

Lemma prefixes_incl {A} (l pre : list A) (t : A) :
  In pre (prefixes l) -> In t pre -> In t l.
Proof.
  revert pre. induction l as [|x l IH]; intros pre Hpre Ht; [destruct Hpre|].
  cbn [prefixes] in Hpre. destruct Hpre as [<-|Hpre].
  - destruct Ht as [<-|[]]. now left.
  - apply in_map_iff in Hpre as (q & <- & Hq).
    destruct Ht as [<-|Ht]; [now left|right]. now apply (IH q).
Qed.

Lemma matchesAlone_accepts (s p : string) :
  malformed s = false -> segments p <> [] ->
  matchesAlone s p = accepts (segments p) (compiled s).
Proof.
  intros Hs Hp. unfold matchesAlone.
  assert (Hbad : countBad ([s] ++ []) = 0).
  { unfold countBad. cbn [app filter]. now rewrite Hs. }
  destruct (String.eqb_spec s "**") as [->|Hne].
  - cbn. symmetry. now apply accepts_levels.
  - assert (HNew : New [s] [] = (Some (matchGlobOf {| include := fst (newPatterns [s]);
                                                      exclude := fst (newPatterns []) |}),
                                 None)).
    { apply New_strategy. apply useMatch; auto; [|discriminate].
      right. intros [H|[]]. congruence. }
    rewrite HNew. cbn [Glob_MatchPath].
    rewrite MatchPath_accepts; cbn [include exclude];
      [|apply newPatterns_nonEmpty|apply newPatterns_nonEmpty].
    rewrite (newPatterns_compiled [s]) by exact Hbad.
    change (fst (newPatterns [])) with (@nil pattern).
    cbn [flat_map]. rewrite app_nil_r, excluded_nil. cbn [negb].
    rewrite andb_true_r. now destruct (accepts (segments p) (compiled s)).
Qed.

Lemma matchesAlone_levels (p : string) : matchesAlone "**" p = true.
Proof. reflexivity. Qed.

(** X2.  The meaning of a glob is made of the meanings of its strings.  For
    a path with a segment, [MatchPath] of the glob that [New] builds accepts
    the path exactly when the glob of one of the include strings alone
    accepts it and the glob of no exclude string alone accepts the path or
    one of its ancestors. *)
Theorem MatchPath_takes_patterns_one_by_one (includes excludes : list string)
    (g : Glob) (p : string) :
  New includes excludes = (Some g, None) ->
  segments p <> [] ->
  Glob_MatchPath g p
  = Some (existsb (fun i => matchesAlone i p) includes
          && negb (existsb (fun e =>
                              existsb (fun q => matchesAlone e (String.concat "/" q))
                                      (prefixes (segments p)))
                           excludes)).
Proof.
  intros HNew Hp. apply New_strategy in HNew.
  destruct HNew as [He Hi|H1 H2|H1 Hi He Hbad].
  - subst excludes. cbn [Glob_MatchPath existsb negb]. rewrite andb_true_r.
    f_equal. symmetry. apply existsb_exists. exists "**". now split.
  - cbn [Glob_MatchPath]. f_equal. symmetry. destruct H2 as [->|H2]; [reflexivity|].
    apply andb_false_iff. right. apply negb_false_iff.
    apply existsb_exists. exists "**". split; [exact H2|].
    destruct (segments p) as [|n names]; [congruence|]. reflexivity.
  - cbn [Glob_MatchPath]. rewrite countBad_app in Hbad.
    assert (Hbi : countBad includes = 0) by lia.
    assert (Hbe : countBad excludes = 0) by lia.
    rewrite MatchPath_accepts; cbn [include exclude];
      [|apply newPatterns_nonEmpty|apply newPatterns_nonEmpty].
    rewrite (newPatterns_compiled _ Hbi), (newPatterns_compiled _ Hbe).
    rewrite accepts_flat_map, excluded_flat_map. f_equal. f_equal.
    + apply existsb_agree. intros i Hin. symmetry.
      apply matchesAlone_accepts; [|exact Hp]. exact (countBad_zero _ _ Hbi Hin).
    + f_equal. apply existsb_agree. intros e Hin.
      rewrite excluded_prefixes. apply existsb_agree. intros q Hq.
      assert (Hseg : segments (String.concat "/" q) = q).
      { apply segments_pieces_concat; [|exact (prefixes_nonEmpty _ _ Hq)].
        intros t Ht. apply (segments_pieces p). exact (prefixes_incl _ _ _ Hq Ht). }
      rewrite matchesAlone_accepts; [now rewrite Hseg|exact (countBad_zero _ _ Hbe Hin)|].
      rewrite Hseg. exact (prefixes_nonEmpty _ _ Hq).
Qed.

(** The includes [a/*] and [**/*.go], the exclude [a/b] and the path
    [a/b/x.go]. *)
Lemma MatchPath_takes_patterns_one_by_one_witness :
  Glob_MatchPath (matchGlobOf {| include := [["a"; "*"]; ["**"; "*.go"]; ["*.go"]];
                                 exclude := [["a"; "b"]] |}) "a/b/x.go"
  = Some (existsb (fun i => matchesAlone i "a/b/x.go") ["a/*"; "**/*.go"]
          && negb (existsb (fun e =>
                              existsb (fun q => matchesAlone e (String.concat "/" q))
                                      (prefixes (segments "a/b/x.go")))
                           ["a/b"])).
Proof.
  apply (MatchPath_takes_patterns_one_by_one ["a/*"; "**/*.go"] ["a/b"]).
  - reflexivity.
  - discriminate.
Defined.

(** ** Directories are handed over on request only *)

Lemma filesOnly_error (fsys : FS) (p : string) (err : error) :
  filesOnly fsys (p, Some err).
Proof. intros H. discriminate. Qed.

Lemma yieldSelf_quiet (fsys : FS) (yield : yieldFn) (dir : string) (yieldDir : bool) :
  emitsOnly (filesOnly fsys) (yieldSelf yield dir yieldDir false).
Proof. unfold yieldSelf. rewrite andb_false_r. apply emitsOnly_ret. Qed.

Lemma allStep_filesOnly (fsys : FS) (yield : yieldFn) (fuel : nat) :
  forall dir yieldDir,
    emitsOnly (filesOnly fsys) (allStep fuel fsys yield dir yieldDir false).
Proof.
  induction fuel as [|fuel IH]; intros dir yieldDir.
  - intros st it Hin. now left.
  - cbn [allStep]. apply emitsOnly_fsReadDir.
    destruct (ReadDir fsys dir) as [infos|err] eqn:Hread;
      [|apply emitsOnly_yieldItem, filesOnly_error].
    apply emitsOnly_bind; [apply yieldSelf_quiet|].
    intros ok. destruct (negb ok); [apply emitsOnly_ret|].
    apply emitsOnly_forEach. intros i Hi.
    destruct (IsDir i) eqn:Hdir; [apply IH|].
    apply emitsOnly_yieldItem. intros _. left. now exists dir, infos, i.
Qed.

Lemma entryStep_filesOnly (fsys : FS) (yield : yieldFn) (rec : stepFn) (dir : string)
    (infos : list DirEntry) (include exclude : list pattern) (i : DirEntry) :
  filesOnlyStep fsys rec -> ReadDir fsys dir = Ok infos -> In i infos ->
  emitsOnly (filesOnly fsys) (entryStep rec yield dir false include exclude i).
Proof.
  intros Hrec Hread Hi. unfold entryStep.
  destruct (IsDir i) eqn:Hdir; cbn [negb].
  - apply emitsOnly_orPanic. intros [excluded nextExclude] _.
    destruct excluded; [apply emitsOnly_ret|].
    apply emitsOnly_orPanic. intros [hit nextInclude] _.
    replace (if hit then false else false) with false by now destruct hit.
    destruct (negb (len nextInclude =? 0)%nat && negb (always nextExclude));
      [|apply emitsOnly_ret].
    apply emitsOnly_bind; [apply Hrec|].
    intros ok. destruct (negb ok); apply emitsOnly_ret.
  - destruct (matchFileAny exclude (Name i)); [apply emitsOnly_ret|].
    destruct (matchFileAny include (Name i)); [|apply emitsOnly_ret].
    apply emitsOnly_yieldItem. intros _. left. now exists dir, infos, i.
Qed.

Lemma listStep_filesOnly (fsys : FS) (yield : yieldFn) (rec : stepFn) (dir : string)
    (yieldDir : bool) (include exclude : list pattern) :
  filesOnlyStep fsys rec ->
  emitsOnly (filesOnly fsys)
            (listStep rec fsys yield dir yieldDir false include exclude).
Proof.
  intros Hrec. unfold listStep. apply emitsOnly_fsReadDir.
  destruct (ReadDir fsys dir) as [infos|err] eqn:Hread;
    [|apply emitsOnly_yieldItem, filesOnly_error].
  apply emitsOnly_bind; [apply yieldSelf_quiet|].
  intros ok. destruct (negb ok); [apply emitsOnly_ret|].
  apply emitsOnly_forEach. intros i Hi. now apply (entryStep_filesOnly _ _ _ _ infos).
Qed.

Lemma literalStep_filesOnly (fsys : FS) (yield : yieldFn) (rec : stepFn)
    (dir : string) (exclude : list pattern) (name : string)
    (nextInclude : list pattern) :
  filesOnlyStep fsys rec ->
  emitsOnly (filesOnly fsys)
            (literalStep rec fsys yield dir false exclude name nextInclude).
Proof.
  intros Hrec. unfold literalStep.
  destruct (matchFileAny exclude name); [apply emitsOnly_ret|].
  apply emitsOnly_fsStat.
  destruct (Stat fsys (GoPath.Join dir name)) as [isDir|err] eqn:Hstat.
  - destruct isDir.
    + apply emitsOnly_orPanic. intros x _.
      destruct (negb (len nextInclude =? 0)%nat && negb (always (snd x)));
        [apply Hrec|apply emitsOnly_ret].
    + apply emitsOnly_yieldItem. intros _. now right.
  - destruct (errors_Is_ErrNotExist err);
      [apply emitsOnly_ret|apply emitsOnly_yieldItem, filesOnly_error].
Qed.

Lemma matchStep_filesOnly (fsys : FS) (yield : yieldFn) (fuel : nat) :
  filesOnlyStep fsys (matchStep fuel fsys yield).
Proof.
  induction fuel as [|fuel IH]; intros dir yieldDir include exclude.
  - intros st it Hin. now left.
  - cbn [matchStep]. destruct (always include).
    + destruct (len exclude =? 0)%nat;
        [apply allStep_filesOnly|now apply listStep_filesOnly].
    + apply emitsOnly_orPanic. intros [[name nextInclude] ok] _.
      destruct ok; [now apply literalStep_filesOnly|now apply listStep_filesOnly].
Qed.

(** X13.  Without [includeDirs], every item without error that [Match]
    hands over is a path that the file system reported as something else
    than a directory, as an entry of a listing or to the probe of the
    literal fast path.  This holds for every strategy, file system, pattern
    set and consumer. *)
Theorem Match_without_includeDirs_emits_no_directory (fuel : nat) (g : Glob)
    (fsys : FS) (yield : yieldFn) (dir p : string) :
  In (p, None) (emitted (stateOf (Glob_Match fuel g fsys yield dir false))) ->
  reportedFile fsys p.
Proof.
  intros Hin. destruct g as [| |g]; cbn [Glob_Match stateOf] in Hin.
  - destruct (allStep_filesOnly fsys yield fuel dir false start _ Hin) as [[]|H].
    now apply H.
  - destruct Hin.
  - destruct (matchStep_filesOnly fsys yield fuel dir false (include g) (exclude g)
                start _ Hin) as [[]|H].
    now apply H.
Qed.

(** The include [**] and the exclude [b] over [twoDirs]: the item [a/x]. *)
Lemma Match_without_includeDirs_emits_no_directory_witness :
  reportedFile (treeFS twoDirs) "a/x".
Proof.
  apply (Match_without_includeDirs_emits_no_directory 3
           (matchGlobOf {| include := [["**"]]; exclude := [["b"]] |})
           (treeFS twoDirs) collect ".").
  vm_compute. left. reflexivity.
Defined.

(** ** The walk of a finite tree ends *)

Lemma returns_ret {A} (a : A) : returns (ret a).
Proof. intros st. now exists a, st. Qed.

Lemma returns_bind {A B} (m : M A) (f : A -> M B) :
  returns m -> (forall a, returns (f a)) -> returns (bind m f).
Proof.
  intros Hm Hf st. destruct (Hm st) as (a & st1 & E1).
  destruct (Hf a st1) as (b & st2 & E2).
  exists b, st2. unfold bind. now rewrite E1.
Qed.

Lemma returns_forEach {A} (body : A -> M bool) (l : list A) :
  (forall x, In x l -> returns (body x)) -> returns (forEach body l).
Proof.
  induction l as [|x l IH]; intros Hbody; [apply returns_ret|].
  cbn [forEach]. apply returns_bind; [apply Hbody; now left|].
  intros [|]; [|apply returns_ret]. apply IH. intros y Hy. apply Hbody. now right.
Qed.

Lemma returns_yieldItem (yield : yieldFn) (p : string) (e : option error) :
  returns (yieldItem yield p e).
Proof. intros st. eexists _, _. reflexivity. Qed.

Lemma returns_yieldSelf (yield : yieldFn) (dir : string) (a b : bool) :
  returns (yieldSelf yield dir a b).
Proof.
  unfold yieldSelf. destruct (a && b); [apply returns_yieldItem|apply returns_ret].
Qed.

Lemma returns_fsReadDir {B} (fsys : FS) (dir : string)
    (f : result (list DirEntry) -> M B) :
  returns (f (ReadDir fsys dir)) -> returns (bind (fsReadDir fsys dir) f).
Proof. intros Hf st. unfold bind, fsReadDir. apply Hf. Qed.

Lemma returns_fsStat {B} (fsys : FS) (name : string) (f : result bool -> M B) :
  returns (f (Stat fsys name)) -> returns (bind (fsStat fsys name) f).
Proof. intros Hf st. unfold bind, fsStat. apply Hf. Qed.

Lemma returns_orPanic {A B} (o : option A) (a : A) (f : A -> M B) :
  o = Some a -> returns (f a) -> returns (bind (orPanic o) f).
Proof. intros -> Hf st. unfold bind, orPanic. apply Hf. Qed.

Lemma Stat_treeFS (root : node) (elems : list string) :
  plainNames elems ->
  Stat (treeFS root) (render elems)
  = match resolve root elems with
    | None => Err (PathError "stat" (render elems) ErrNotExist)
    | Some x => Ok (isDirectory x)
    end.
Proof.
  intros Hp. cbn [Stat treeFS]. rewrite (open_render _ _ _ Hp).
  now destruct (resolve root elems).
Qed.

Lemma resolve_child (root : node) (elems : list string) (x y : node) (n : string) :
  resolve root elems = Some x -> resolve root (elems ++ [n]) = Some y ->
  height y < height x.
Proof.
  intros Hx Hy. rewrite resolve_app, Hx in Hy. cbn [resolve] in Hy.
  destruct x as [|entries]; [discriminate|].
  destruct (lookup n entries) as [child|] eqn:Hl; [|discriminate].
  injection Hy as <-. now apply (lookup_height n).
Qed.

Section Returns.

Variable root : node.
Variable yield : yieldFn.
Hypothesis root_plain : plainTree root = true.

Lemma allStep_returns (fuel : nat) :
  forall elems x yieldDir includeDirs,
    plainNames elems -> resolve root elems = Some x -> height x < fuel ->
    returns (allStep fuel (treeFS root) yield (render elems) yieldDir includeDirs).
Proof.
  induction fuel as [|fuel IH]; intros elems x yieldDir includeDirs Hp Hr Hh; [lia|].
  cbn [allStep]. apply returns_fsReadDir. rewrite (ReadDir_treeFS _ _ Hp), Hr.
  destruct x as [|entries]; [apply returns_yieldItem|].
  apply returns_bind; [apply returns_yieldSelf|].
  intros ok. destruct (negb ok); [apply returns_ret|].
  apply returns_forEach. intros i Hi. apply in_map_iff in Hi as (e & <- & He).
  destruct (listed_entry root root_plain _ _ _ Hp Hr He) as (Hn & y & Hl & Hy & Hlow).
  cbn [Name IsDir entryOf]. rewrite (Join_render _ _ Hp Hn).
  destruct (isDirectory (snd e)); [|apply returns_yieldItem].
  apply (IH (elems ++ [fst e]) y); [now apply plainNames_snoc|exact Hy|lia].
Qed.

Lemma entryStep_returns (rec : stepFn) (fuel : nat) (elems : list string)
    (entries : list (string * node)) (includeDirs : bool)
    (include0 exclude0 : list pattern) (e : string * node) :
  returnsStep root fuel rec ->
  plainNames elems -> resolve root elems = Some (directory entries) ->
  height (directory entries) < fuel ->
  Forall nonEmpty include0 -> Forall nonEmpty exclude0 -> termsIn plain include0 ->
  In e entries ->
  returns (entryStep rec yield (render elems) includeDirs include0 exclude0 (entryOf e)).
Proof.
  intros Hrec Hp Hr Hh Hi He Hterms Hin.
  destruct (listed_entry root root_plain _ _ _ Hp Hr Hin) as (Hn & y & Hl & Hy & Hlow).
  unfold entryStep. cbn [Name IsDir entryOf]. rewrite (Join_render _ _ Hp Hn).
  assert (Hfinish : forall b : bool,
             returns (if b then yieldItem yield (render (elems ++ [fst e])) None
                      else ret true)).
  { intros [|]; [apply returns_yieldItem|apply returns_ret]. }
  destruct (negb (isDirectory (snd e))).
  - destruct (matchFileAny exclude0 (fst e)); [apply returns_ret|apply Hfinish].
  - destruct (matchDirFirst_advance exclude0 (fst e) [] He) as (next & Hfirst & Hnext).
    eapply returns_orPanic; [exact Hfirst|].
    destruct (matchFileAny exclude0 (fst e)) eqn:Hx; [apply returns_ret|].
    rewrite (Hnext eq_refl). cbn [app].
    eapply returns_orPanic; [exact (matchDirAll_advance _ (fst e) [] false Hi)|].
    cbn [app].
    destruct (negb (len (advance (fst e) include0) =? 0)%nat
              && negb (always (advance (fst e) exclude0))); [|apply Hfinish].
    apply returns_bind.
    + apply (Hrec (elems ++ [fst e]) y);
        [now apply plainNames_snoc|exact Hy|lia|now apply advance_nonEmpty
        |now apply advance_nonEmpty|now apply advance_termsIn].
    + intros ok. destruct (negb ok); [apply returns_ret|apply (Hfinish false)].
Qed.

Lemma listStep_returns (rec : stepFn) (fuel : nat) (elems : list string) (x : node)
    (yieldDir includeDirs : bool) (include0 exclude0 : list pattern) :
  returnsStep root fuel rec ->
  plainNames elems -> resolve root elems = Some x -> height x < fuel ->
  Forall nonEmpty include0 -> Forall nonEmpty exclude0 -> termsIn plain include0 ->
  returns (listStep rec (treeFS root) yield (render elems) yieldDir includeDirs
                    include0 exclude0).
Proof.
  intros Hrec Hp Hr Hh Hi He Hterms. unfold listStep.
  apply returns_fsReadDir. rewrite (ReadDir_treeFS _ _ Hp), Hr.
  destruct x as [|entries]; [apply returns_yieldItem|].
  apply returns_bind; [apply returns_yieldSelf|].
  intros ok. destruct (negb ok); [apply returns_ret|].
  apply returns_forEach. intros i Hin. apply in_map_iff in Hin as (e & <- & Hin).
  now apply (entryStep_returns rec fuel elems entries).
Qed.

Lemma literalStep_returns (rec : stepFn) (fuel : nat) (elems : list string) (x : node)
    (includeDirs : bool) (exclude0 : list pattern) (name : string)
    (nextInclude : list pattern) :
  returnsStep root fuel rec ->
  plainNames elems -> resolve root elems = Some x -> height x < fuel ->
  plain name ->
  Forall nonEmpty nextInclude -> Forall nonEmpty exclude0 -> termsIn plain nextInclude ->
  returns (literalStep rec (treeFS root) yield (render elems) includeDirs exclude0
                       name nextInclude).
Proof.
  intros Hrec Hp Hr Hh Hn Hi He Hterms. unfold literalStep.
  destruct (matchFileAny exclude0 name); [apply returns_ret|].
  rewrite (Join_render _ _ Hp Hn).
  apply returns_fsStat. rewrite (Stat_treeFS _ _ (plainNames_snoc _ _ Hp Hn)).
  destruct (resolve root (elems ++ [name])) as [y|] eqn:Hy.
  - destruct (isDirectory y); [|apply returns_yieldItem].
    eapply returns_orPanic; [exact (matchDirAll_advance _ name [] false He)|].
    cbn [snd app].
    destruct (negb (len nextInclude =? 0)%nat && negb (always (advance name exclude0))).
    + pose proof (resolve_child _ _ _ _ _ Hr Hy) as Hlow.
      apply (Hrec (elems ++ [name]) y);
        [now apply plainNames_snoc|exact Hy|lia|exact Hi
        |now apply advance_nonEmpty|exact Hterms].
    + destruct (negb includeDirs); [apply returns_ret|apply returns_yieldItem].
  - cbn [errors_Is_ErrNotExist]. apply returns_ret.
Qed.

Lemma matchStep_returns (fuel : nat) :
  returnsStep root fuel (matchStep fuel (treeFS root) yield).
Proof.
  induction fuel as [|fuel IH];
    intros elems x yieldDir includeDirs include0 exclude0 Hp Hr Hh Hi He Hterms; [lia|].
  cbn [matchStep]. destruct (always include0) eqn:Ha.
  - destruct (len exclude0 =? 0)%nat.
    + apply (allStep_returns fuel elems x); auto. lia.
    + apply (listStep_returns _ fuel elems x); auto; [lia| |].
      * repeat constructor. discriminate.
      * repeat constructor.
  - destruct (literal include0) as [[[name nextInclude] ok]|] eqn:Hl.
    + eapply returns_orPanic; [reflexivity|].
      destruct ok; [|apply (listStep_returns _ fuel elems x); auto; lia].
      destruct (literal_nonEmpty _ Hi) as (? & ? & ? & Hsome & Hnext).
      rewrite Hl in Hsome. injection Hsome as <- <- <-.
      apply literal_inv in Hl as (rest & -> & _ & ->).
      inversion Hterms as [|? ? Hq _]; subst. inversion Hq as [|? ? Hname Hrest]; subst.
      apply (literalStep_returns _ fuel elems x); auto; [lia|].
      destruct rest; [constructor|]. constructor; [exact Hrest|constructor].
    + destruct (literal_nonEmpty _ Hi) as (? & ? & ? & Hsome & _). congruence.
Qed.

End Returns.

(** X18.  The walk of a finite tree ends.  With include terms that are
    plain (none is empty, [.] or [..]), started in a directory of a tree
    with plain names, [Match] ends normally, without a panic, as soon as the
    depth bound exceeds the height of the start directory by two, whatever
    the consumer does. *)
Theorem Match_returns_on_finite_trees (fuel : nat) (root x : node)
    (yield : yieldFn) (elems : list string) (includeDirs : bool)
    (includes excludes : list string) (g : Glob) :
  New includes excludes = (Some g, None) ->
  (forall s t, In s includes -> In t (terms s) -> plain t) ->
  plainTree root = true ->
  plainNames elems ->
  resolve root elems = Some x ->
  S (height x) < fuel ->
  exists b st,
    Glob_Match fuel g (treeFS root) yield (render elems) includeDirs = Done b st.
Proof.
  intros HNew Hplain Hroot Hp Hr Hh. apply New_strategy in HNew.
  destruct HNew as [He Hi|H1 H2|H1 Hi He Hbad]; cbn [Glob_Match].
  - apply (allStep_returns root yield Hroot fuel elems x); auto. lia.
  - now exists true, start.
  - rewrite countBad_app in Hbad.
    assert (Hbi : countBad includes = 0) by lia.
    cbn [include exclude].
    apply (matchStep_returns root yield Hroot fuel elems x); auto.
    + apply newPatterns_nonEmpty.
    + apply newPatterns_nonEmpty.
    + rewrite (newPatterns_compiled _ Hbi).
      apply Forall_forall. intros q Hq. apply in_flat_map in Hq as (s & Hs & Hq).
      apply Forall_forall. intros t Ht.
      exact (Hplain s t Hs (compiled_incl _ _ _ Hq Ht)).
Qed.

(** The include [a/*] and the exclude [b] over [twoDirs], with a consumer
    that stops at once. *)
Lemma Match_returns_on_finite_trees_witness :
  exists b st,
    Glob_Match 4 (matchGlobOf {| include := [["a"; "*"]]; exclude := [["b"]] |})
               (treeFS twoDirs) (fun _ _ => false) (render []) true = Done b st.
Proof.
  apply (Match_returns_on_finite_trees 4 twoDirs twoDirs (fun _ _ => false) [] true
           ["a/*"] ["b"]).
  - reflexivity.
  - intros s t [<-|[]] [<-|[<-|[]]]; reflexivity.
  - reflexivity.
  - constructor.
  - reflexivity.
  - cbn. lia.
Defined.

(** ** No directory is listed twice *)

Lemma listed_app (a b : list fsop) : listed (a ++ b) = listed a ++ listed b.
Proof.
  induction a as [|[d|n] a IH]; cbn [app listed]; [reflexivity| |exact IH].
  now rewrite IH.
Qed.

Lemma listsOnce_listless {A} (L : string -> Prop) (m : M A) :
  listless m -> listsOnce L m.
Proof.
  intros H st Hnd Hold. specialize (H st). split; [now rewrite H|].
  intros d Hd. left. now rewrite H in Hd.
Qed.

Lemma listsOnce_mono {A} (L L' : string -> Prop) (m : M A) :
  (forall d, L d -> L' d) -> listsOnce L m -> listsOnce L' m.
Proof.
  intros HL Hm st Hnd Hold.
  destruct (Hm st Hnd) as [Hnd' Hnew].
  - intros d Hd HLd. exact (Hold d Hd (HL d HLd)).
  - split; [exact Hnd'|]. intros d Hd. destruct (Hnew d Hd); auto.
Qed.

Lemma listsOnce_seq {A B} (L1 L2 L : string -> Prop) (m : M A) (f : A -> M B) :
  listsOnce L1 m -> (forall a, listsOnce L2 (f a)) ->
  (forall d, L1 d -> L2 d -> False) ->
  (forall d, L1 d -> L d) -> (forall d, L2 d -> L d) ->
  listsOnce L (bind m f).
Proof.
  intros Hm Hf Hdis H1 H2 st Hnd Hold. unfold bind.
  destruct (Hm st Hnd) as [Hnd1 Hnew1].
  { intros d Hd HL. exact (Hold d Hd (H1 d HL)). }
  destruct (m st) as [a st1|st1|st1]; cbn [stateOf] in *.
  - destruct (Hf a st1 Hnd1) as [Hnd2 Hnew2].
    { intros d Hd HL. destruct (Hnew1 d Hd) as [Hd'|Hd'].
      - exact (Hold d Hd' (H2 d HL)).
      - exact (Hdis d Hd' HL). }
    split; [exact Hnd2|]. intros d Hd.
    destruct (Hnew2 d Hd) as [Hd'|Hd']; [|auto].
    destruct (Hnew1 d Hd'); auto.
  - split; [exact Hnd1|]. intros d Hd. destruct (Hnew1 d Hd); auto.
  - split; [exact Hnd1|]. intros d Hd. destruct (Hnew1 d Hd); auto.
Qed.

Lemma listsOnce_after {A B} (L : string -> Prop) (m : M A) (f : A -> M B) :
  listless m -> (forall a, listsOnce L (f a)) -> listsOnce L (bind m f).
Proof.
  intros Hm Hf.
  apply (listsOnce_seq (fun _ => False) L L); auto; [|intros d []].
  now apply listsOnce_listless.
Qed.

Lemma listsOnce_before {A B} (L : string -> Prop) (m : M A) (f : A -> M B) :
  listsOnce L m -> (forall a, listless (f a)) -> listsOnce L (bind m f).
Proof.
  intros Hm Hf.
  apply (listsOnce_seq L (fun _ => False) L); auto; [|intros d []].
  intros a. now apply listsOnce_listless.
Qed.

Lemma listsOnce_orPanic {A B} (L : string -> Prop) (o : option A) (f : A -> M B) :
  (forall a, o = Some a -> listsOnce L (f a)) -> listsOnce L (bind (orPanic o) f).
Proof.
  intros Hf. destruct o as [a|].
  - intros st. apply (Hf a eq_refl).
  - apply listsOnce_listless. intros st. reflexivity.
Qed.

Lemma listsOnce_forEach {A} (Lx : A -> string -> Prop) (body : A -> M bool)
    (l : list A) :
  (forall x, In x l -> listsOnce (Lx x) (body x)) ->
  ForallOrdPairs (fun x y => forall d, Lx x d -> Lx y d -> False) l ->
  listsOnce (fun d => exists x, In x l /\ Lx x d) (forEach body l).
Proof.
  induction l as [|x l IH]; intros Hbody Hpairs.
  - apply listsOnce_listless. intros st. reflexivity.
  - inversion Hpairs as [|? ? Hx Hl]; subst. cbn [forEach].
    apply (listsOnce_seq (Lx x) (fun d => exists y, In y l /\ Lx y d)).
    + apply Hbody. now left.
    + intros [|].
      * apply IH; [|exact Hl]. intros y Hy. apply Hbody. now right.
      * apply listsOnce_listless. intros st. reflexivity.
    + intros d H1 (y & Hy & H2). rewrite Forall_forall in Hx. exact (Hx y Hy d H1 H2).
    + intros d H1. exists x. split; [now left|exact H1].
    + intros d (y & Hy & H2). exists y. split; [now right|exact H2].
Qed.

Lemma listsOnce_fsReadDir {B} (L2 L : string -> Prop) (fsys : FS) (dir : string)
    (f : result (list DirEntry) -> M B) :
  listsOnce L2 (f (ReadDir fsys dir)) ->
  ~ L2 dir -> L dir -> (forall d, L2 d -> L d) ->
  listsOnce L (bind (fsReadDir fsys dir) f).
Proof.
  intros Hf Hdis H1 H2 st Hnd Hold. unfold bind, fsReadDir.
  set (st1 := {| emitted := emitted st; trace := trace st ++ [OpReadDir dir] |}).
  assert (Hl : listed (trace st1) = listed (trace st) ++ [dir]).
  { subst st1. cbn [trace]. now rewrite listed_app. }
  destruct (Hf st1) as [Hnd2 Hnew2].
  - rewrite Hl. apply NoDup_app; [exact Hnd|repeat constructor; intros []|].
    intros d Hd [Heq|[]]. subst d. exact (Hold dir Hd H1).
  - rewrite Hl. intros d Hd HL. apply in_app_or in Hd as [Hd|[Heq|[]]].
    + exact (Hold d Hd (H2 d HL)).
    + subst d. exact (Hdis HL).
  - split; [exact Hnd2|]. intros d Hd.
    destruct (Hnew2 d Hd) as [Hd'|Hd']; [|auto].
    rewrite Hl in Hd'. apply in_app_or in Hd' as [Hd'|[Heq|[]]]; [auto|].
    subst d. auto.
Qed.

Lemma listless_ret {A} (a : A) : listless (ret a).
Proof. intros st. reflexivity. Qed.

Lemma listless_yieldItem (yield : yieldFn) (p : string) (e : option error) :
  listless (yieldItem yield p e).
Proof. intros st. reflexivity. Qed.

Lemma listless_yieldSelf (yield : yieldFn) (dir : string) (a b : bool) :
  listless (yieldSelf yield dir a b).
Proof. unfold yieldSelf. destruct (a && b); intros st; reflexivity. Qed.

Lemma listless_fsStat (fsys : FS) (name : string) : listless (fsStat fsys name).
Proof. intros st. cbn. rewrite listed_app. cbn. apply app_nil_r. Qed.

Lemma render_inj (a b : list string) :
  plainNames a -> plainNames b -> render a = render b -> a = b.
Proof.
  intros Ha Hb H.
  pose proof (splitSlash_render _ Ha) as Sa.
  pose proof (splitSlash_render _ Hb) as Sb.
  rewrite H, Sb in Sa.
  destruct a as [|x a], b as [|y b]; auto.
  - injection Sa as Hy _. subst y. inversion Hb as [|? ? Hy _]. discriminate Hy.
  - injection Sa as Hx _. subst x. inversion Ha as [|? ? Hx _]. discriminate Hx.
Qed.

Lemma under_self (elems : list string) : under elems (render elems).
Proof. exists []. split; [constructor|now rewrite app_nil_r]. Qed.

Lemma under_child (elems : list string) (n d : string) :
  plain n -> under (elems ++ [n]) d -> under elems d.
Proof.
  intros Hn (chain & Hc & ->). exists (n :: chain).
  split; [now constructor|now rewrite <- app_assoc].
Qed.

Lemma under_child_not_self (elems : list string) (n : string) :
  plainNames elems -> plain n -> ~ under (elems ++ [n]) (render elems).
Proof.
  intros Hp Hn (chain & Hc & H). rewrite <- app_assoc in H.
  apply render_inj in H; [|exact Hp|].
  - apply (f_equal (@List.length string)) in H. rewrite length_app in H.
    cbn in H. lia.
  - apply Forall_app. split; [exact Hp|now constructor].
Qed.

Lemma under_apart (elems : list string) (n m d : string) :
  plainNames elems -> plain n -> plain m -> n <> m ->
  under (elems ++ [n]) d -> under (elems ++ [m]) d -> False.
Proof.
  intros Hp Hn Hm Hne (c1 & H1 & ->) (c2 & H2 & H).
  rewrite <- !app_assoc in H. apply render_inj in H.
  - apply app_inv_head in H. cbn in H. congruence.
  - apply Forall_app. split; [exact Hp|now constructor].
  - apply Forall_app. split; [exact Hp|now constructor].
Qed.

Lemma NoDup_pairs {A B} (f : A -> B) (l : list A) :
  NoDup (map f l) -> ForallOrdPairs (fun x y => f x <> f y) l.
Proof.
  induction l as [|x l IH]; intros H; [constructor|].
  inversion H as [|? ? Hx Hl]; subst. constructor; [|now apply IH].
  apply Forall_forall. intros y Hy Heq. apply Hx. rewrite Heq. now apply in_map.
Qed.

Lemma ForallOrdPairs_impl {A} (R R' : A -> A -> Prop) (l : list A) :
  (forall x y, In x l -> In y l -> R x y -> R' x y) ->
  ForallOrdPairs R l -> ForallOrdPairs R' l.
Proof.
  induction l as [|x l IH]; intros HR H; [constructor|].
  inversion H as [|? ? Hx Hl]; subst. constructor.
  - rewrite Forall_forall in *. intros y Hy. apply HR; [now left|now right|now apply Hx].
  - apply IH; [|exact Hl]. intros a b Ha Hb. apply HR; now right.
Qed.

Section Once.

Variable fsys : FS.
Variable yield : yieldFn.
Hypothesis fsys_plain : plainFS fsys.
Hypothesis fsys_distinct : distinctFS fsys.

(** The loops over a listing of the directory [elems], entry by entry. *)
Lemma entries_once (elems : list string) (infos : list DirEntry)
    (body : DirEntry -> M bool) (d0 : M bool) :
  plainNames elems -> ReadDir fsys (render elems) = Ok infos ->
  listless d0 ->
  (forall i, In i infos -> plain (Name i) ->
             listsOnce (under (elems ++ [Name i])) (body i)) ->
  listsOnce (under elems)
    (bind (fsReadDir fsys (render elems))
          (fun r => match r with
                    | Err err => yieldItem yield (render elems) (Some err)
                    | Ok infos =>
                        ok <- d0 ;;
                        if negb ok then ret false else forEach body infos
                    end)).
Proof.
  intros Hp Hread Hd0 Hbody.
  apply (listsOnce_fsReadDir
           (fun d => exists i, In i infos /\ under (elems ++ [Name i]) d)).
  - rewrite Hread. apply listsOnce_after; [exact Hd0|].
    intros ok. destruct (negb ok); [apply listsOnce_listless, listless_ret|].
    apply listsOnce_forEach.
    + intros i Hi. apply Hbody; [exact Hi|exact (fsys_plain _ _ _ Hread Hi)].
    + apply (ForallOrdPairs_impl (fun x y => Name x <> Name y));
        [|apply NoDup_pairs, (fsys_distinct _ _ Hread)].
      intros x y Hx Hy Hne d Hdx Hdy.
      exact (under_apart elems (Name x) (Name y) d Hp
               (fsys_plain _ _ _ Hread Hx) (fsys_plain _ _ _ Hread Hy) Hne Hdx Hdy).
  - intros (i & Hi & Hu).
    exact (under_child_not_self _ _ Hp (fsys_plain _ _ _ Hread Hi) Hu).
  - apply under_self.
  - intros d (i & Hi & Hu).
    exact (under_child _ _ _ (fsys_plain _ _ _ Hread Hi) Hu).
Qed.

Lemma failed_once (elems : list string) (err : error)
    (k : list DirEntry -> M bool) :
  ReadDir fsys (render elems) = Err err ->
  listsOnce (under elems)
    (bind (fsReadDir fsys (render elems))
          (fun r => match r with
                    | Err err => yieldItem yield (render elems) (Some err)
                    | Ok infos => k infos
                    end)).
Proof.
  intros Hread.
  apply (listsOnce_fsReadDir (fun _ => False)); [|tauto|apply under_self|tauto].
  rewrite Hread. apply listsOnce_listless, listless_yieldItem.
Qed.

Lemma allStep_once (fuel : nat) :
  forall elems yieldDir includeDirs,
    plainNames elems ->
    listsOnce (under elems)
              (allStep fuel fsys yield (render elems) yieldDir includeDirs).
Proof.
  induction fuel as [|fuel IH]; intros elems yieldDir includeDirs Hp.
  - apply listsOnce_listless. intros st. reflexivity.
  - cbn [allStep].
    destruct (ReadDir fsys (render elems)) as [infos|err] eqn:Hread;
      [|now apply (failed_once elems err)].
    apply (entries_once elems infos); auto; [apply listless_yieldSelf|].
    intros i Hi Hn. rewrite (Join_render _ _ Hp Hn).
    destruct (IsDir i); [|apply listsOnce_listless, listless_yieldItem].
    apply IH. now apply plainNames_snoc.
Qed.

Lemma entryStep_once (rec : stepFn) (elems : list string) (includeDirs : bool)
    (include0 exclude0 : list pattern) (i : DirEntry) :
  onceStep rec -> plainNames elems -> plain (Name i) -> termsIn plain include0 ->
  listsOnce (under (elems ++ [Name i]))
            (entryStep rec yield (render elems) includeDirs include0 exclude0 i).
Proof.
  intros Hrec Hp Hn Hterms. unfold entryStep. rewrite (Join_render _ _ Hp Hn).
  assert (Hfinish : forall b : bool,
             listless (if b then yieldItem yield (render (elems ++ [Name i])) None
                       else ret true)).
  { intros [|]; [apply listless_yieldItem|apply listless_ret]. }
  destruct (negb (IsDir i)).
  - apply listsOnce_listless.
    destruct (matchFileAny exclude0 (Name i)); [apply listless_ret|apply Hfinish].
  - apply listsOnce_orPanic. intros [excluded nextExclude] _.
    destruct excluded; [apply listsOnce_listless, listless_ret|].
    apply listsOnce_orPanic. intros [hit nextInclude] Hall.
    destruct (negb (len nextInclude =? 0)%nat && negb (always nextExclude));
      [|apply listsOnce_listless, Hfinish].
    apply listsOnce_before.
    + apply Hrec; [now apply plainNames_snoc|].
      exact (matchDirAll_termsIn plain _ _ _ _ _ _ Hterms (Forall_nil _) Hall).
    + intros ok. destruct (negb ok); [apply listless_ret|apply (Hfinish false)].
Qed.

Lemma listStep_once (rec : stepFn) (elems : list string) (yieldDir includeDirs : bool)
    (include0 exclude0 : list pattern) :
  onceStep rec -> plainNames elems -> termsIn plain include0 ->
  listsOnce (under elems)
            (listStep rec fsys yield (render elems) yieldDir includeDirs
                      include0 exclude0).
Proof.
  intros Hrec Hp Hterms. unfold listStep.
  destruct (ReadDir fsys (render elems)) as [infos|err] eqn:Hread;
    [|now apply (failed_once elems err)].
  apply (entries_once elems infos); auto; [apply listless_yieldSelf|].
  intros i Hi Hn. now apply entryStep_once.
Qed.

Lemma literalStep_once (rec : stepFn) (elems : list string) (includeDirs : bool)
    (exclude0 : list pattern) (name : string) (nextInclude : list pattern) :
  onceStep rec -> plainNames elems -> plain name -> termsIn plain nextInclude ->
  listsOnce (under elems)
            (literalStep rec fsys yield (render elems) includeDirs exclude0
                         name nextInclude).
Proof.
  intros Hrec Hp Hn Hterms. unfold literalStep. rewrite (Join_render _ _ Hp Hn).
  destruct (matchFileAny exclude0 name); [apply listsOnce_listless, listless_ret|].
  apply listsOnce_after; [apply listless_fsStat|].
  intros [isDir|err].
  - destruct isDir; [|apply listsOnce_listless, listless_yieldItem].
    apply listsOnce_orPanic. intros x _.
    destruct (negb (len nextInclude =? 0)%nat && negb (always (snd x))).
    + apply (listsOnce_mono (under (elems ++ [name]))).
      * intros d. now apply under_child.
      * apply Hrec; [now apply plainNames_snoc|exact Hterms].
    + apply listsOnce_listless.
      destruct (negb includeDirs); [apply listless_ret|apply listless_yieldItem].
  - apply listsOnce_listless.
    destruct (errors_Is_ErrNotExist err); [apply listless_ret|apply listless_yieldItem].
Qed.

Lemma matchStep_once (fuel : nat) : onceStep (matchStep fuel fsys yield).
Proof.
  induction fuel as [|fuel IH];
    intros elems yieldDir includeDirs include0 exclude0 Hp Hterms.
  - apply listsOnce_listless. intros st. reflexivity.
  - cbn [matchStep]. destruct (always include0).
    + destruct (len exclude0 =? 0)%nat; [now apply allStep_once|].
      apply listStep_once; auto. repeat constructor.
    + apply listsOnce_orPanic. intros [[name nextInclude] ok] Hl.
      destruct ok; [|now apply listStep_once].
      apply literal_inv in Hl as (rest & -> & _ & ->).
      inversion Hterms as [|? ? Hq _]; subst. inversion Hq as [|? ? Hname Hrest]; subst.
      apply literalStep_once; auto.
      destruct rest; [constructor|]. constructor; [exact Hrest|constructor].
Qed.

End Once.

Lemma distinctNames_NoDup (l : list string) : distinctNames l = true -> NoDup l.
Proof.
  induction l as [|n l IH]; intros H; [constructor|].
  cbn [distinctNames] in H. apply andb_prop in H as [Hn Hl].
  constructor; [|now apply IH].
  intros Hin. apply negb_true_iff in Hn.
  assert (Hex : existsb (String.eqb n) l = true).
  { apply existsb_exists. exists n. split; [exact Hin|apply String.eqb_refl]. }
  congruence.
Qed.

Lemma resolve_distinctTree (elems : list string) :
  forall root x,
    distinctTree root = true -> resolve root elems = Some x -> distinctTree x = true.
Proof.
  induction elems as [|e elems IH]; intros root x Hroot H.
  - now injection H as <-.
  - cbn [resolve] in H. destruct root as [|entries]; [discriminate|].
    destruct (lookup e entries) as [child|] eqn:Hl; [|discriminate].
    apply (IH child); [|exact H].
    apply lookup_In in Hl. cbn [distinctTree] in Hroot.
    apply andb_prop in Hroot as [_ Hall]. rewrite forallb_forall in Hall.
    exact (Hall _ Hl).
Qed.

Lemma treeFS_distinct (root : node) :
  distinctTree root = true -> distinctFS (treeFS root).
Proof.
  intros Hroot dir infos. cbn [ReadDir treeFS]. unfold open.
  destruct (negb (validPath dir)); [discriminate|].
  destruct (resolve root (if dir =? "." then [] else splitSlash dir))
    as [[|entries]|] eqn:Hr; try discriminate.
  apply resolve_distinctTree in Hr; [|exact Hroot].
  intros [= <-]. rewrite map_map. cbn [Name].
  cbn [distinctTree] in Hr. apply andb_prop in Hr as [Hn _].
  now apply distinctNames_NoDup.
Qed.

(** X17.  No directory is listed twice.  On a file system whose listings
    return plain names, each once, with include terms that are plain and a
    clean relative start directory, the directories that [Match] lists are
    pairwise different, whatever the consumer and the depth reached. *)
Theorem Match_lists_no_directory_twice (fuel : nat) (fsys : FS) (yield : yieldFn)
    (elems : list string) (includeDirs : bool) (includes excludes : list string)
    (g : Glob) :
  New includes excludes = (Some g, None) ->
  (forall s t, In s includes -> In t (terms s) -> plain t) ->
  plainFS fsys -> distinctFS fsys ->
  plainNames elems ->
  NoDup (listed (trace (stateOf
           (Glob_Match fuel g fsys yield (render elems) includeDirs)))).
Proof.
  intros HNew Hplain Hfs Hdis Hp. apply New_strategy in HNew.
  destruct HNew as [He Hi|H1 H2|H1 Hi He Hbad]; cbn [Glob_Match].
  - apply (allStep_once fsys yield Hfs Hdis fuel elems false includeDirs Hp start);
      [constructor|intros d []].
  - constructor.
  - rewrite countBad_app in Hbad.
    assert (Hbi : countBad includes = 0) by lia.
    cbn [include exclude].
    apply (matchStep_once fsys yield Hfs Hdis fuel elems false includeDirs _ _ Hp);
      [|constructor|intros d []].
    rewrite (newPatterns_compiled _ Hbi).
    apply Forall_forall. intros q Hq. apply in_flat_map in Hq as (s & Hs & Hq).
    apply Forall_forall. intros t Ht.
    exact (Hplain s t Hs (compiled_incl _ _ _ Hq Ht)).
Qed.

(** The include [**/x] over [twoDirs]. *)
Lemma Match_lists_no_directory_twice_witness :
  NoDup (listed (trace (stateOf
           (Glob_Match 4 (matchGlobOf {| include := [["**"; "x"]; ["x"]];
                                         exclude := [] |})
                       (treeFS twoDirs) collect (render []) true)))).
Proof.
  apply (Match_lists_no_directory_twice 4 (treeFS twoDirs) collect [] true
           ["**/x"] []).
  - reflexivity.
  - intros s t [<-|[]] [<-|[<-|[]]]; reflexivity.
  - apply treeFS_plain. reflexivity.
  - apply treeFS_distinct. reflexivity.
  - constructor.
Defined.

(** ** A directory comes before what it holds *)

Lemma ancestorFirst_nil : ancestorFirst [].
Proof. intros [|] ? ? ? ? ? H; discriminate. Qed.

Lemma ancestorFirst_one (it : item) : ancestorFirst [it].
Proof.
  intros [|x l1] p e l2 d e' H Hin; cbn [app] in H.
  - injection H as _ H. subst l2. destruct Hin.
  - destruct l1; discriminate.
Qed.

Lemma ancestorFirst_app (a b : list item) :
  ancestorFirst a -> ancestorFirst b ->
  (forall x y, In x a -> In y b -> ~ below (fst y) (fst x)) ->
  ancestorFirst (a ++ b).
Proof.
  induction a as [|x a IH]; intros Ha Hb Hab; [exact Hb|].
  assert (Htail : ancestorFirst (a ++ b)).
  { apply IH; [|exact Hb|].
    - intros l1 p e l2 d e' Heq. apply (Ha (x :: l1) p e l2 d e'). now rewrite Heq.
    - intros y z Hy. apply Hab. now right. }
  intros [|z l1] p e l2 d e' H Hin; cbn [app] in H.
  - injection H as Hx Hl2. subst x l2.
    apply in_app_or in Hin as [Hin|Hin].
    + exact (Ha [] p e a d e' eq_refl Hin).
    + exact (Hab (p, e) (d, e') (or_introl eq_refl) Hin).
  - injection H as _ H. exact (Htail l1 p e l2 d e' H Hin).
Qed.

Lemma emitsInOrder_silent {A} (L : string -> Prop) (m : M A) :
  silent m -> emitsInOrder L m.
Proof.
  intros H st. exists []. rewrite H, app_nil_r.
  split; [reflexivity|]. split; [intros it []|apply ancestorFirst_nil].
Qed.

Lemma emitsInOrder_yieldItem (L : string -> Prop) (yield : yieldFn) (p : string)
    (e : option error) :
  L p -> emitsInOrder L (yieldItem yield p e).
Proof.
  intros HL st. exists [(p, e)]. split; [reflexivity|].
  split; [|apply ancestorFirst_one]. now intros it [<-|[]].
Qed.

Lemma emitsInOrder_mono {A} (L L' : string -> Prop) (m : M A) :
  (forall d, L d -> L' d) -> emitsInOrder L m -> emitsInOrder L' m.
Proof.
  intros HL Hm st. destruct (Hm st) as (new & E & Hin & Hord).
  exists new. repeat split; auto.
Qed.

Lemma emitsInOrder_seq {A B} (L1 L2 L : string -> Prop) (m : M A) (f : A -> M B) :
  emitsInOrder L1 m -> (forall a, emitsInOrder L2 (f a)) ->
  (forall p d, L1 p -> L2 d -> ~ below d p) ->
  (forall d, L1 d -> L d) -> (forall d, L2 d -> L d) ->
  emitsInOrder L (bind m f).
Proof.
  intros Hm Hf Hapart H1 H2 st. unfold bind.
  destruct (Hm st) as (new1 & E1 & Hin1 & Hord1).
  destruct (m st) as [a st1|st1|st1]; cbn [stateOf] in *.
  - destruct (Hf a st1) as (new2 & E2 & Hin2 & Hord2).
    exists (new1 ++ new2). rewrite E2, E1, app_assoc. split; [reflexivity|]. split.
    + intros it Hit. apply in_app_or in Hit as [Hit|Hit]; auto.
    + apply ancestorFirst_app; auto.
  - exists new1. repeat split; auto.
  - exists new1. repeat split; auto.
Qed.

Lemma emitsInOrder_after {A B} (L : string -> Prop) (m : M A) (f : A -> M B) :
  silent m -> (forall a, emitsInOrder L (f a)) -> emitsInOrder L (bind m f).
Proof.
  intros Hm Hf.
  apply (emitsInOrder_seq (fun _ => False) L L).
  - now apply emitsInOrder_silent.
  - exact Hf.
  - intros p d [].
  - intros d [].
  - auto.
Qed.

Lemma emitsInOrder_before {A B} (L : string -> Prop) (m : M A) (f : A -> M B) :
  emitsInOrder L m -> (forall a, silent (f a)) -> emitsInOrder L (bind m f).
Proof.
  intros Hm Hf.
  apply (emitsInOrder_seq L (fun _ => False) L).
  - exact Hm.
  - intros a. now apply emitsInOrder_silent.
  - intros p d _ [].
  - auto.
  - intros d [].
Qed.

Lemma emitsInOrder_orPanic {A B} (L : string -> Prop) (o : option A) (f : A -> M B) :
  (forall a, o = Some a -> emitsInOrder L (f a)) ->
  emitsInOrder L (bind (orPanic o) f).
Proof.
  intros Hf. destruct o as [a|].
  - intros st. apply (Hf a eq_refl).
  - apply emitsInOrder_silent. intros st. reflexivity.
Qed.

Lemma emitsInOrder_forEach {A} (Lx : A -> string -> Prop) (body : A -> M bool)
    (l : list A) :
  (forall x, In x l -> emitsInOrder (Lx x) (body x)) ->
  ForallOrdPairs (fun x y => forall p d, Lx x p -> Lx y d -> ~ below d p) l ->
  emitsInOrder (fun d => exists x, In x l /\ Lx x d) (forEach body l).
Proof.
  induction l as [|x l IH]; intros Hbody Hpairs.
  - apply emitsInOrder_silent. intros st. reflexivity.
  - inversion Hpairs as [|? ? Hx Hl]; subst. cbn [forEach].
    apply (emitsInOrder_seq (Lx x) (fun d => exists y, In y l /\ Lx y d)).
    + apply Hbody. now left.
    + intros [|].
      * apply IH; [|exact Hl]. intros y Hy. apply Hbody. now right.
      * apply emitsInOrder_silent. intros st. reflexivity.
    + intros p d H1 (y & Hy & H2). rewrite Forall_forall in Hx.
      exact (Hx y Hy p d H1 H2).
    + intros d H1. exists x. split; [now left|exact H1].
    + intros d (y & Hy & H2). exists y. split; [now right|exact H2].
Qed.

Lemma emitsInOrder_fsReadDir {B} (L : string -> Prop) (fsys : FS) (dir : string)
    (f : result (list DirEntry) -> M B) :
  emitsInOrder L (f (ReadDir fsys dir)) ->
  emitsInOrder L (bind (fsReadDir fsys dir) f).
Proof.
  intros Hf st. unfold bind, fsReadDir.
  exact (Hf {| emitted := emitted st; trace := trace st ++ [OpReadDir dir] |}).
Qed.

Lemma silent_ret {A} (a : A) : silent (ret a).
Proof. intros st. reflexivity. Qed.

Lemma not_below_self (elems : list string) (n d : string) :
  plainNames elems -> plain n -> under (elems ++ [n]) d -> ~ below d (render elems).
Proof.
  intros Hp Hn (c & Hc & ->) (ds & m & chain & Hall & Hd & Hself).
  apply render_inj in Hd;
    [|apply Forall_app; split; [now apply plainNames_snoc|exact Hc]
     |now apply Forall_app in Hall as [? _]].
  apply render_inj in Hself; [|exact Hp|exact Hall].
  rewrite <- Hd in Hself.
  apply (f_equal (@List.length string)) in Hself. rewrite !length_app in Hself.
  cbn in Hself. lia.
Qed.

Lemma not_below_apart (elems : list string) (n m p d : string) :
  plainNames elems -> plain n -> plain m -> n <> m ->
  under (elems ++ [n]) p -> under (elems ++ [m]) d -> ~ below d p.
Proof.
  intros Hp Hn Hm Hne (c1 & H1 & ->) (c2 & H2 & ->) (ds & k & chain & Hall & Hd & Hpd).
  assert (P1 : plainNames ((elems ++ [n]) ++ c1)).
  { apply Forall_app. split; [now apply plainNames_snoc|exact H1]. }
  assert (P2 : plainNames ((elems ++ [m]) ++ c2)).
  { apply Forall_app. split; [now apply plainNames_snoc|exact H2]. }
  apply render_inj in Hd; [|exact P2|now apply Forall_app in Hall as [? _]].
  apply render_inj in Hpd; [|exact P1|exact Hall].
  subst ds. rewrite <- !app_assoc in Hpd. apply app_inv_head in Hpd.
  cbn in Hpd. congruence.
Qed.

Section Ordered.

Variable fsys : FS.
Variable yield : yieldFn.
Hypothesis fsys_plain : plainFS fsys.
Hypothesis fsys_distinct : distinctFS fsys.

Lemma yieldSelf_ordered (elems : list string) (a b : bool) :
  emitsInOrder (eq (render elems)) (yieldSelf yield (render elems) a b).
Proof.
  unfold yieldSelf. destruct (a && b).
  - now apply emitsInOrder_yieldItem.
  - apply emitsInOrder_silent, silent_ret.
Qed.

(** The loops over a listing of the directory [elems], entry by entry. *)
Lemma entries_ordered (elems : list string) (yieldDir includeDirs : bool)
    (body : DirEntry -> M bool) :
  plainNames elems ->
  (forall infos i, ReadDir fsys (render elems) = Ok infos -> In i infos ->
                   plain (Name i) ->
                   emitsInOrder (under (elems ++ [Name i])) (body i)) ->
  emitsInOrder (under elems)
    (bind (fsReadDir fsys (render elems))
          (fun r => match r with
                    | Err err => yieldItem yield (render elems) (Some err)
                    | Ok infos =>
                        ok <- yieldSelf yield (render elems) yieldDir includeDirs ;;
                        if negb ok then ret false else forEach body infos
                    end)).
Proof.
  intros Hp Hbody. apply emitsInOrder_fsReadDir.
  destruct (ReadDir fsys (render elems)) as [infos|err] eqn:Hread;
    [|apply emitsInOrder_yieldItem, under_self].
  apply (emitsInOrder_seq (eq (render elems))
           (fun d => exists i, In i infos /\ under (elems ++ [Name i]) d)).
  - apply yieldSelf_ordered.
  - intros ok. destruct (negb ok); [apply emitsInOrder_silent, silent_ret|].
    apply emitsInOrder_forEach.
    + intros i Hi. apply (Hbody infos); auto. exact (fsys_plain _ _ _ Hread Hi).
    + apply (ForallOrdPairs_impl (fun x y => Name x <> Name y));
        [|apply NoDup_pairs, (fsys_distinct _ _ Hread)].
      intros x y Hx Hy Hne p d Hpx Hdy.
      exact (not_below_apart elems (Name x) (Name y) p d Hp
               (fsys_plain _ _ _ Hread Hx) (fsys_plain _ _ _ Hread Hy) Hne Hpx Hdy).
  - intros p d <- (i & Hi & Hu).
    exact (not_below_self _ _ _ Hp (fsys_plain _ _ _ Hread Hi) Hu).
  - intros d <-. apply under_self.
  - intros d (i & Hi & Hu).
    exact (under_child _ _ _ (fsys_plain _ _ _ Hread Hi) Hu).
Qed.

Lemma allStep_ordered (fuel : nat) :
  forall elems yieldDir includeDirs,
    plainNames elems ->
    emitsInOrder (under elems)
                 (allStep fuel fsys yield (render elems) yieldDir includeDirs).
Proof.
  induction fuel as [|fuel IH]; intros elems yieldDir includeDirs Hp.
  - apply emitsInOrder_silent. intros st. reflexivity.
  - cbn [allStep]. apply entries_ordered; [exact Hp|].
    intros infos i Hread Hi Hn. rewrite (Join_render _ _ Hp Hn).
    destruct (IsDir i); [apply IH; now apply plainNames_snoc|].
    apply emitsInOrder_yieldItem, under_self.
Qed.

Lemma entryStep_ordered (rec : stepFn) (elems : list string) (includeDirs : bool)
    (include0 exclude0 : list pattern) (i : DirEntry) :
  orderedStep rec -> plainNames elems -> plain (Name i) -> termsIn plain include0 ->
  emitsInOrder (under (elems ++ [Name i]))
               (entryStep rec yield (render elems) includeDirs include0 exclude0 i).
Proof.
  intros Hrec Hp Hn Hterms. unfold entryStep. rewrite (Join_render _ _ Hp Hn).
  assert (Hfinish : forall b : bool,
             emitsInOrder (under (elems ++ [Name i]))
               (if b then yieldItem yield (render (elems ++ [Name i])) None
                else ret true)).
  { intros [|]; [apply emitsInOrder_yieldItem, under_self
                |apply emitsInOrder_silent, silent_ret]. }
  destruct (negb (IsDir i)).
  - destruct (matchFileAny exclude0 (Name i));
      [apply emitsInOrder_silent, silent_ret|apply Hfinish].
  - apply emitsInOrder_orPanic. intros [excluded nextExclude] _.
    destruct excluded; [apply emitsInOrder_silent, silent_ret|].
    apply emitsInOrder_orPanic. intros [hit nextInclude] Hall.
    destruct (negb (len nextInclude =? 0)%nat && negb (always nextExclude));
      [|apply Hfinish].
    apply emitsInOrder_before.
    + apply Hrec; [now apply plainNames_snoc|].
      exact (matchDirAll_termsIn plain _ _ _ _ _ _ Hterms (Forall_nil _) Hall).
    + intros ok. destruct (negb ok); apply silent_ret.
Qed.

Lemma listStep_ordered (rec : stepFn) (elems : list string)
    (yieldDir includeDirs : bool) (include0 exclude0 : list pattern) :
  orderedStep rec -> plainNames elems -> termsIn plain include0 ->
  emitsInOrder (under elems)
               (listStep rec fsys yield (render elems) yieldDir includeDirs
                         include0 exclude0).
Proof.
  intros Hrec Hp Hterms. unfold listStep. apply entries_ordered; [exact Hp|].
  intros infos i _ _ Hn. now apply entryStep_ordered.
Qed.

Lemma literalStep_ordered (rec : stepFn) (elems : list string) (includeDirs : bool)
    (exclude0 : list pattern) (name : string) (nextInclude : list pattern) :
  orderedStep rec -> plainNames elems -> plain name -> termsIn plain nextInclude ->
  emitsInOrder (under elems)
               (literalStep rec fsys yield (render elems) includeDirs exclude0
                            name nextInclude).
Proof.
  intros Hrec Hp Hn Hterms. unfold literalStep. rewrite (Join_render _ _ Hp Hn).
  assert (Hchild : under elems (render (elems ++ [name]))).
  { apply (under_child _ name); [exact Hn|apply under_self]. }
  destruct (matchFileAny exclude0 name); [apply emitsInOrder_silent, silent_ret|].
  apply emitsInOrder_after; [apply silent_fsStat|].
  intros [isDir|err].
  - destruct isDir; [|now apply emitsInOrder_yieldItem].
    apply emitsInOrder_orPanic. intros x _.
    destruct (negb (len nextInclude =? 0)%nat && negb (always (snd x))).
    + apply (emitsInOrder_mono (under (elems ++ [name]))).
      * intros d. now apply under_child.
      * apply Hrec; [now apply plainNames_snoc|exact Hterms].
    + destruct (negb includeDirs);
        [apply emitsInOrder_silent, silent_ret|now apply emitsInOrder_yieldItem].
  - destruct (errors_Is_ErrNotExist err);
      [apply emitsInOrder_silent, silent_ret
      |apply emitsInOrder_yieldItem, under_self].
Qed.

Lemma matchStep_ordered (fuel : nat) : orderedStep (matchStep fuel fsys yield).
Proof.
  induction fuel as [|fuel IH];
    intros elems yieldDir includeDirs include0 exclude0 Hp Hterms.
  - apply emitsInOrder_silent. intros st. reflexivity.
  - cbn [matchStep]. destruct (always include0).
    + destruct (len exclude0 =? 0)%nat; [now apply allStep_ordered|].
      apply listStep_ordered; auto. repeat constructor.
    + apply emitsInOrder_orPanic. intros [[name nextInclude] ok] Hl.
      destruct ok; [|now apply listStep_ordered].
      apply literal_inv in Hl as (rest & -> & _ & ->).
      inversion Hterms as [|? ? Hq _]; subst. inversion Hq as [|? ? Hname Hrest]; subst.
      apply literalStep_ordered; auto.
      destruct rest; [constructor|]. constructor; [exact Hrest|constructor].
Qed.

End Ordered.

(** X14.  A directory comes before what it holds.  On a file system whose
    listings return plain names, each once, with include terms that are
    plain and a clean relative start directory, no item that [Match] hands
    over is followed by an item for a directory above it: if the path [p]
    is handed over and the path [d] later, then [p] does not lie below
    [d]. *)
Theorem Match_emits_a_directory_before_what_it_holds (fuel : nat) (fsys : FS)
    (yield : yieldFn) (elems : list string) (includeDirs : bool)
    (includes excludes : list string) (g : Glob)
    (before : list item) (p : string) (e : option error) (after : list item)
    (d : string) (e' : option error) :
  New includes excludes = (Some g, None) ->
  (forall s t, In s includes -> In t (terms s) -> plain t) ->
  plainFS fsys -> distinctFS fsys ->
  plainNames elems ->
  emitted (stateOf (Glob_Match fuel g fsys yield (render elems) includeDirs))
  = before ++ (p, e) :: after ->
  In (d, e') after ->
  ~ below d p.
Proof.
  intros HNew Hplain Hfs Hdis Hp. apply New_strategy in HNew.
  assert (Hord : ancestorFirst
            (emitted (stateOf (Glob_Match fuel g fsys yield (render elems)
                                          includeDirs)))).
  { destruct HNew as [He Hi|H1 H2|H1 Hi He Hbad]; cbn [Glob_Match].
    - destruct (allStep_ordered fsys yield Hfs Hdis fuel elems false includeDirs Hp
                  start) as (new & -> & _ & Hord). exact Hord.
    - apply ancestorFirst_nil.
    - rewrite countBad_app in Hbad.
      assert (Hbi : countBad includes = 0) by lia.
      cbn [include exclude].
      destruct (matchStep_ordered fsys yield Hfs Hdis fuel elems false includeDirs
                  (fst (newPatterns includes)) (fst (newPatterns excludes)) Hp)
        with (st := start) as (new & -> & _ & Hord); [|exact Hord].
      rewrite (newPatterns_compiled _ Hbi).
      apply Forall_forall. intros q Hq. apply in_flat_map in Hq as (s & Hs & Hq).
      apply Forall_forall. intros t Ht.
      exact (Hplain s t Hs (compiled_incl _ _ _ Hq Ht)). }
  intros Heq Hin. exact (Hord before p e after d e' Heq Hin).
Qed.

(** The include [**] and the exclude [b] over [twoDirs], with
    [includeDirs]: [a] comes first and [a/x] second. *)
Lemma Match_emits_a_directory_before_what_it_holds_witness :
  emitted (stateOf (Glob_Match 4 (matchGlobOf {| include := [["**"]]; exclude := [["b"]] |})
                               (treeFS twoDirs) collect (render []) true))
  = [] ++ ("a", None) :: [("a/x", None)]
  /\ ~ below "a/x" "a".
Proof.
  split; [reflexivity|].
  apply (Match_emits_a_directory_before_what_it_holds 4 (treeFS twoDirs) collect []
           true ["**"] ["b"]
           (matchGlobOf {| include := [["**"]]; exclude := [["b"]] |})
           [] "a" None [("a/x", None)] "a/x" None).
  - reflexivity.
  - intros s t [<-|[]] [<-|[]]; reflexivity.
  - apply treeFS_plain. reflexivity.
  - apply treeFS_distinct. reflexivity.
  - constructor.
  - reflexivity.
  - left. reflexivity.
Defined.

(** ** A literal term is probed, not listed *)

Section Probed.

Variable fsys : FS.
Variable yield : yieldFn.
Hypothesis fsys_plain : plainFS fsys.

Lemma allStep_within (fuel : nat) :
  forall elems yieldDir includeDirs,
    plainNames elems ->
    readsWithin (under elems)
                (allStep fuel fsys yield (render elems) yieldDir includeDirs).
Proof.
  induction fuel as [|fuel IH]; intros elems yieldDir includeDirs Hp.
  - now apply readsWithin_quiet.
  - cbn [allStep]. apply readsWithin_fsReadDir; [apply under_self|].
    destruct (ReadDir fsys (render elems)) as [infos|err] eqn:Hread;
      [|apply readsWithin_yieldItem].
    apply readsWithin_bind; [apply readsWithin_yieldSelf|].
    intros ok. destruct (negb ok); [apply readsWithin_ret|].
    apply readsWithin_forEach. intros i Hi.
    pose proof (fsys_plain _ _ _ Hread Hi) as Hn.
    rewrite (Join_render _ _ Hp Hn).
    destruct (IsDir i); [|apply readsWithin_yieldItem].
    apply (readsWithin_mono (under (elems ++ [Name i]))).
    + intros d. now apply under_child.
    + apply IH. now apply plainNames_snoc.
Qed.

Lemma entryStep_within (rec : stepFn) (elems : list string) (includeDirs : bool)
    (include0 exclude0 : list pattern) (i : DirEntry) :
  withinStep rec -> plainNames elems -> plain (Name i) -> termsIn plain include0 ->
  readsWithin (under elems)
              (entryStep rec yield (render elems) includeDirs include0 exclude0 i).
Proof.
  intros Hrec Hp Hn Hterms. unfold entryStep. rewrite (Join_render _ _ Hp Hn).
  assert (Hfinish : forall b : bool,
             readsWithin (under elems)
               (if b then yieldItem yield (render (elems ++ [Name i])) None
                else ret true)).
  { intros [|]; [apply readsWithin_yieldItem|apply readsWithin_ret]. }
  destruct (negb (IsDir i)).
  - destruct (matchFileAny exclude0 (Name i)); [apply readsWithin_ret|apply Hfinish].
  - apply readsWithin_orPanic. intros [excluded nextExclude] _.
    destruct excluded; [apply readsWithin_ret|].
    apply readsWithin_orPanic. intros [hit nextInclude] Hall.
    destruct (negb (len nextInclude =? 0)%nat && negb (always nextExclude));
      [|apply Hfinish].
    apply readsWithin_bind.
    + apply (readsWithin_mono (under (elems ++ [Name i]))).
      * intros d. now apply under_child.
      * apply Hrec; [now apply plainNames_snoc|].
        exact (matchDirAll_termsIn plain _ _ _ _ _ _ Hterms (Forall_nil _) Hall).
    + intros ok. destruct (negb ok); [apply readsWithin_ret|apply (Hfinish false)].
Qed.

Lemma listStep_within (rec : stepFn) (elems : list string)
    (yieldDir includeDirs : bool) (include0 exclude0 : list pattern) :
  withinStep rec -> plainNames elems -> termsIn plain include0 ->
  readsWithin (under elems)
              (listStep rec fsys yield (render elems) yieldDir includeDirs
                        include0 exclude0).
Proof.
  intros Hrec Hp Hterms. unfold listStep.
  apply readsWithin_fsReadDir; [apply under_self|].
  destruct (ReadDir fsys (render elems)) as [infos|err] eqn:Hread;
    [|apply readsWithin_yieldItem].
  apply readsWithin_bind; [apply readsWithin_yieldSelf|].
  intros ok. destruct (negb ok); [apply readsWithin_ret|].
  apply readsWithin_forEach. intros i Hi.
  apply entryStep_within; auto. exact (fsys_plain _ _ _ Hread Hi).
Qed.

(** The literal fast path lists nothing but the entry it probes and what
    lies below that entry. *)
Lemma literalStep_within (rec : stepFn) (elems : list string) (includeDirs : bool)
    (exclude0 : list pattern) (name : string) (nextInclude : list pattern) :
  withinStep rec -> plainNames elems -> plain name -> termsIn plain nextInclude ->
  readsWithin (under (elems ++ [name]))
              (literalStep rec fsys yield (render elems) includeDirs exclude0
                           name nextInclude).
Proof.
  intros Hrec Hp Hn Hterms. unfold literalStep. rewrite (Join_render _ _ Hp Hn).
  destruct (matchFileAny exclude0 name); [apply readsWithin_ret|].
  apply readsWithin_fsStat. intros [isDir|err].
  - destruct isDir; [|apply readsWithin_yieldItem].
    apply readsWithin_orPanic. intros x _.
    destruct (negb (len nextInclude =? 0)%nat && negb (always (snd x))).
    + apply Hrec; [now apply plainNames_snoc|exact Hterms].
    + destruct (negb includeDirs); [apply readsWithin_ret|apply readsWithin_yieldItem].
  - destruct (errors_Is_ErrNotExist err); [apply readsWithin_ret|apply readsWithin_yieldItem].
Qed.

Lemma literal_plain (include0 : list pattern) (name : string)
    (nextInclude : list pattern) :
  termsIn plain include0 -> literal include0 = Some (name, nextInclude, true) ->
  plain name /\ termsIn plain nextInclude /\ always include0 = false.
Proof.
  intros Hterms Hl. apply literal_inv in Hl as (rest & -> & Hmeta & ->).
  inversion Hterms as [|? ? Hq _]; subst. inversion Hq as [|? ? Hname Hrest]; subst.
  split; [exact Hname|]. split.
  - destruct rest; [constructor|]. constructor; [exact Hrest|constructor].
  - cbn. destruct rest; [|reflexivity].
    rewrite (noMeta_not_levels _ Hmeta). reflexivity.
Qed.

Lemma matchStep_within (fuel : nat) : withinStep (matchStep fuel fsys yield).
Proof.
  induction fuel as [|fuel IH];
    intros elems yieldDir includeDirs include0 exclude0 Hp Hterms.
  - now apply readsWithin_quiet.
  - cbn [matchStep]. destruct (always include0).
    + destruct (len exclude0 =? 0)%nat; [now apply allStep_within|].
      apply listStep_within; auto. repeat constructor.
    + apply readsWithin_orPanic. intros [[name nextInclude] ok] Hl.
      destruct ok; [|now apply listStep_within].
      destruct (literal_plain _ _ _ Hterms Hl) as (Hname & Hnext & _).
      apply (readsWithin_mono (under (elems ++ [name]))).
      * intros d. now apply under_child.
      * now apply literalStep_within.
Qed.

End Probed.

(** X19.  A literal term is probed, not listed.  When the include set is a
    single pattern whose first term [name] has no metacharacter, then, on a
    file system whose listings return plain names, with plain include terms
    and a clean relative start directory, [Match] never lists the start
    directory: every directory it lists is the entry [name] of the start
    directory or lies below that entry. *)
Theorem literal_prefix_is_probed_not_listed (fuel : nat) (fsys : FS)
    (yield : yieldFn) (elems : list string) (includeDirs : bool) (g : matchGlob)
    (name : string) (nextInclude : list pattern) (d : string) :
  plainFS fsys ->
  plainNames elems ->
  termsIn plain (include g) ->
  literal (include g) = Some (name, nextInclude, true) ->
  In (OpReadDir d)
     (trace (stateOf (Glob_Match fuel (matchGlobOf g) fsys yield (render elems)
                                 includeDirs))) ->
  under (elems ++ [name]) d /\ d <> render elems.
Proof.
  intros Hfs Hp Hterms Hl Hin.
  destruct (literal_plain _ _ _ Hterms Hl) as (Hname & Hnext & Ha).
  assert (Hu : under (elems ++ [name]) d).
  { cbn [Glob_Match] in Hin. destruct fuel as [|fuel]; [destruct Hin|].
    cbn [matchStep] in Hin. rewrite Ha, Hl in Hin.
    destruct (literalStep_within fsys yield (matchStep fuel fsys yield) elems
                includeDirs (exclude g) name nextInclude
                (matchStep_within fsys yield Hfs fuel) Hp Hname Hnext start d Hin)
      as [[]|H].
    exact H. }
  split; [exact Hu|].
  intros ->. exact (under_child_not_self _ _ Hp Hname Hu).
Qed.

(** The include [a/*] over [twoDirs]: the directory [a] is listed, the
    root is not. *)
Lemma literal_prefix_is_probed_not_listed_witness :
  under ([] ++ ["a"]) "a" /\ "a" <> render [].
Proof.
  apply (literal_prefix_is_probed_not_listed 3 (treeFS twoDirs) collect [] false
           {| include := [["a"; "*"]]; exclude := [] |} "a" [["*"]] "a").
  - apply treeFS_plain. reflexivity.
  - constructor.
  - repeat constructor.
  - reflexivity.
  - vm_compute. right. left. reflexivity.
Defined.

(** ** Where the code departs from its own description *)

(** C1.  The include [a/b] compiles to one pattern of two terms; [MatchPath]
    rejects the path [a], and [Match], run over a tree that holds the plain
    file [a] and nothing else, hands out [a]: the literal fast path emits a
    plain file without looking at the terms that remain. *)
Theorem C1_Match_emits_what_MatchPath_rejects :
  New ["a/b"] [] = (Some (matchGlobOf {| include := [["a"; "b"]]; exclude := [] |}), None)
  /\ Glob_MatchPath (matchGlobOf {| include := [["a"; "b"]]; exclude := [] |}) "a"
     = Some false
  /\ forall includeDirs,
       Glob_Match 2 (matchGlobOf {| include := [["a"; "b"]]; exclude := [] |})
                  (treeFS fileA) collect "." includeDirs
       = Done true {| emitted := [("a", None)]; trace := [OpStat "a"] |}.
Proof.
  repeat (split; [reflexivity|]). intros [|]; reflexivity.
Qed.

(** C2.  The include [a/**/b] fully matches the segments of [a/b] when
    [**] stands for no segment at all, which the description of the pattern
    syntax allows, and nothing is excluded; [MatchPath] answers false. *)
Theorem C2_inner_levels_wildcard_needs_a_level :
  New ["a/**/b"] []
  = (Some (matchGlobOf {| include := [["a"; "**"; "b"]]; exclude := [] |}), None)
  /\ specMatchPath ["a/**/b"] [] "a/b" = true
  /\ Glob_MatchPath (matchGlobOf {| include := [["a"; "**"; "b"]]; exclude := [] |}) "a/b"
     = Some false
  /\ Glob_MatchPath (matchGlobOf {| include := [["a"; "**"; "b"]]; exclude := [] |}) "a/x/b"
     = Some true.
Proof.
  repeat (split; [reflexivity|]). reflexivity.
Qed.

(** C3.  With the include [a/b/c], the walk reaches the level of [a] with
    the single pattern [b/c] active; that pattern has two terms and does not
    match the plain file [b], and [Match] hands out [a/b] all the same. *)
Theorem C3_literal_path_emits_file_with_terms_left :
  New ["a/b/c"] []
  = (Some (matchGlobOf {| include := [["a"; "b"; "c"]]; exclude := [] |}), None)
  /\ descend [["a"; "b"; "c"]] [] "a" = Some ([["b"; "c"]], [])
  /\ matchFileAny [["b"; "c"]] "b" = false
  /\ forall includeDirs,
       Glob_Match 3 (matchGlobOf {| include := [["a"; "b"; "c"]]; exclude := [] |})
                  (treeFS fileAB) collect "." includeDirs
       = Done true {| emitted := [("a/b", None)]; trace := [OpStat "a"; OpStat "a/b"] |}.
Proof.
  repeat (split; [reflexivity|]). intros [|]; reflexivity.
Qed.

(** C4.  With the include [a/*] and directories requested, no pattern
    signals an immediate match on the directory [a] (the pattern has a term
    left after [a]), and [Match] hands out [a]: the literal fast path
    enters the directory with [yieldDir] set to [includeDirs]. *)
Theorem C4_literal_path_emits_unmatched_directory :
  New ["a/*"] [] = (Some (matchGlobOf {| include := [["a"; "*"]]; exclude := [] |}), None)
  /\ matchDirAll [["a"; "*"]] "a" [] false = Some (false, [["*"]])
  /\ Glob_MatchPath (matchGlobOf {| include := [["a"; "*"]]; exclude := [] |}) "a"
     = Some false
  /\ Glob_Match 3 (matchGlobOf {| include := [["a"; "*"]]; exclude := [] |})
                (treeFS dirA) collect "." true
     = Done true {| emitted := [("a", None)]; trace := [OpStat "a"; OpReadDir "a"] |}.
Proof.
  repeat (split; [reflexivity|]). reflexivity.
Qed.

(** C6.  With the include [*/../a/*] and the exclude [a], the exclude
    pattern matches the entry [a] of the root immediately, so that [a] is
    turned away there; the walk still lists [a] and hands out [a/x], which
    [MatchPath] rejects: it enters [b], where the single include pattern
    left has the literal first term [..], and the literal fast path joins
    that term to [b] and so walks back into the root, where the exclude
    pattern is no longer active. *)
Theorem C6_literal_path_walks_up_into_turned_away_directory :
  New ["*/../a/*"] ["a"]
  = (Some (matchGlobOf {| include := [["*"; ".."; "a"; "*"]]; exclude := [["a"]] |}),
     None)
  /\ ReadDir (treeFS twoDirs) "."
     = Ok [{| Name := "a"; IsDir := true |}; {| Name := "b"; IsDir := true |}]
  /\ matchDirFirst [["a"]] "a" [] = Some (true, [])
  /\ descend [["*"; ".."; "a"; "*"]] [["a"]] "a" = None
  /\ GoPath.Join "b" ".." = "."
  /\ Glob_Match 5 (matchGlobOf {| include := [["*"; ".."; "a"; "*"]];
                                   exclude := [["a"]] |})
                (treeFS twoDirs) collect "." false
     = Done true {| emitted := [("a/x", None)];
                    trace := [OpReadDir "."; OpStat "."; OpStat "a"; OpReadDir "a"] |}
  /\ Glob_MatchPath (matchGlobOf {| include := [["*"; ".."; "a"; "*"]];
                                    exclude := [["a"]] |}) "a/x"
     = Some false.
Proof.
  repeat (split; [reflexivity|]). reflexivity.
Qed.

(** A term on which [path.Match] fails for every name is a term that
    [match] never matches. *)
Lemma bad_term_never_accepts (t : string) (rest : pattern) (names : list string) :
  (forall name, GoPath.Match t name = None) ->
  nonEmpty rest ->
  accepts names [t :: rest] = false.
Proof.
  intros Hbad Hrest. destruct names as [|n names]; [reflexivity|].
  assert (Hnot : (t =? "**") = false).
  { destruct (String.eqb_spec t "**") as [->|]; [|reflexivity].
    specialize (Hbad ""). discriminate. }
  assert (Hstep : advance n [t :: rest] = []).
  { cbn [advance flat_map advance1]. rewrite Hnot.
    unfold match_. now rewrite Hbad. }
  destruct names as [|n' names].
  - cbn [accepts matchFileAny existsb matchFile]. now destruct rest.
  - change (accepts (n :: n' :: names) [t :: rest])
      with (accepts (n' :: names) (advance n [t :: rest])).
    rewrite Hstep. apply accepts_nil.
Qed.

(** C5.  The include string [[a/b]] has the terms [[a] and [b]], and [[a] is
    malformed: [path.Match] fails on it for every name, the empty one of the
    validation included.  [New] accepts the string all the same, because
    line 36 validates the string as a whole, in which [[a/b]] reads as one
    well-formed character class: it returns no error and a glob that holds the term
    [[a] and therefore accepts no path at all.  The string [x/a\/b], whose
    term [a\] ends in an escape character, is accepted in the same way. *)
Theorem C5_New_accepts_a_malformed_term :
  (specMalformed "[a/b]" = true /\ malformed "[a" = true
   /\ malformed "[a/b]" = false)
  /\ New ["[a/b]"] []
     = (Some (matchGlobOf {| include := [["[a"; "b]"]]; exclude := [] |}), None)
  /\ (forall name, GoPath.Match "[a" name = None)
  /\ (forall p,
        Glob_MatchPath (matchGlobOf {| include := [["[a"; "b]"]]; exclude := [] |}) p
        = Some false)
  /\ (specMalformed "x/a\/b" = true /\ malformed "a\" = true)
  /\ New ["x/a\/b"] []
     = (Some (matchGlobOf {| include := [["x"; "a\"; "b"]]; exclude := [] |}), None).
Proof.
  assert (Hbad : forall name, GoPath.Match "[a" name = None).
  { intros name. unfold GoPath.Match. cbn [String.length GoPath.matchLoop].
    unfold GoPath.matchRound. cbn [GoPath.scanChunk GoPath.dropStars GoPath.scan
                                     Ascii.eqb Bool.eqb fst snd andb String.eqb].
    reflexivity. }
  split; [repeat split; reflexivity|].
  split; [reflexivity|].
  split; [exact Hbad|].
  split; [|split; [split; reflexivity|reflexivity]].
  intros p. cbn [Glob_MatchPath].
  rewrite MatchPath_accepts by (repeat constructor; discriminate).
  cbn [include exclude].
  rewrite (bad_term_never_accepts "[a" ["b]"] _ Hbad) by discriminate.
  reflexivity.
Qed.
